(** * ForceCalendar ICS subsystem: a shallow embedding in Rocq

    Modelled sources:
    - [ICSParser] (parse, export, eventToICS, parseProperty, parseDate,
      formatDate, unfoldLines, foldLines, escapeText, unescapeText,
      normalizeEvent) from
      src/node_modules/@forcecalendar/interface/src/utils/DOMUtils.js;
    - [ICSHandler.import] and [EventSearch] (search, filter,
      calculateMatchScore, levenshteinDistance, tokenize, sortResults)
      from src/README.md.

    Strings are Rocq [string]s whose characters stand for UTF-16 code
    units below 256 (the Latin-1 range); JavaScript numbers that occur as
    date fields are integers, written [option Z] with [None] for NaN. *)

From Stdlib Require Import ZArith String Ascii List Bool Lia Sorted Permutation.
Import ListNotations.

Open Scope string_scope.
Open Scope Z_scope.

(** ** Characters and string primitives *)

Definition LF : ascii := "010"%char.
Definition CR : ascii := "013"%char.
Definition BS : ascii := "\"%char.
Definition CRLF : string := String CR (String LF EmptyString).

Definition ch (c : ascii) : string := String c EmptyString.

(** ECMAScript [StrWhiteSpaceChar] restricted to code units below 256. *)
Definition is_js_space (c : ascii) : bool :=
  let n := nat_of_ascii c in
  (9 <=? n)%nat && (n <=? 13)%nat || (n =? 32)%nat || (n =? 160)%nat.

Fixpoint blank (s : string) : bool :=
  match s with
  | EmptyString => true
  | String c s' => is_js_space c && blank s'
  end.

(** [s.indexOf(c)] for a one-character needle; [-1] when absent. *)
Fixpoint index_of_nat (c : ascii) (s : string) : option nat :=
  match s with
  | EmptyString => None
  | String x s' =>
      if Ascii.eqb x c then Some 0%nat
      else option_map S (index_of_nat c s')
  end.

Definition index_of (c : ascii) (s : string) : Z :=
  match index_of_nat c s with
  | Some k => Z.of_nat k
  | None => -1
  end.

(** [s.substring(a, b)]: arguments clamped to [0, length], swapped when
    [a > b]. *)
Definition js_substring (s : string) (a b : Z) : string :=
  let len := Z.of_nat (String.length s) in
  let a' := Z.max 0 (Z.min a len) in
  let b' := Z.max 0 (Z.min b len) in
  String.substring (Z.to_nat (Z.min a' b')) (Z.to_nat (Z.max a' b' - Z.min a' b')) s.

Definition js_substring_from (s : string) (a : Z) : string :=
  js_substring s a (Z.of_nat (String.length s)).

(** [s.substr(start, len)] for non-negative arguments. *)
Definition js_substr (s : string) (start len : nat) : string :=
  String.substring start len s.

Fixpoint starts_with (p s : string) : bool :=
  match p, s with
  | EmptyString, _ => true
  | String a p', String b s' => Ascii.eqb a b && starts_with p' s'
  | String _ _, EmptyString => false
  end.

(** [s.includes(p)] *)
Fixpoint includes (s p : string) : bool :=
  match s with
  | EmptyString => starts_with p s
  | String _ s' => starts_with p s || includes s' p
  end.

Definition ends_with_char (s : string) (c : ascii) : bool :=
  match String.get (String.length s - 1) s with
  | Some x => (0 <? String.length s)%nat && Ascii.eqb x c
  | None => false
  end.

(** [s.split(c)[0]]: the prefix before the first occurrence of [c]. *)
Fixpoint before_char (c : ascii) (s : string) : string :=
  match s with
  | EmptyString => EmptyString
  | String x s' => if Ascii.eqb x c then EmptyString else String x (before_char c s')
  end.

(** [s.replace(/c/g, r)] for a one-character pattern. *)
Fixpoint replace1 (c : ascii) (r s : string) : string :=
  match s with
  | EmptyString => EmptyString
  | String x s' => if Ascii.eqb x c then r ++ replace1 c r s' else String x (replace1 c r s')
  end.

(** [s.replace(/ab/g, r)] for a two-character pattern: leftmost matches,
    scanning resumes after each match. *)
Fixpoint replace2 (a b : ascii) (r s : string) : string :=
  match s with
  | String x ((String y rest) as s') =>
      if Ascii.eqb x a && Ascii.eqb y b then r ++ replace2 a b r rest
      else String x (replace2 a b r s')
  | _ => s
  end.

(** [s.replace(/abc/g, r)] for a three-character pattern. *)
Fixpoint replace3 (a b c : ascii) (r s : string) : string :=
  match s with
  | String x ((String y (String z rest)) as s') =>
      if Ascii.eqb x a && Ascii.eqb y b && Ascii.eqb z c then r ++ replace3 a b c r rest
      else String x (replace3 a b c r s')
  | _ => s
  end.

(** ** Text escaping ([ICSParser.escapeText] / [ICSParser.unescapeText]) *)

Definition escapeText (text : string) : string :=
  match text with
  | EmptyString => EmptyString
  | _ =>
      replace1 LF (String BS "n")
        (replace1 "," (String BS ",")
          (replace1 ";" (String BS ";")
            (replace1 BS (String BS (ch BS)) text)))
  end.

Definition unescapeText (text : string) : string :=
  match text with
  | EmptyString => EmptyString
  | _ =>
      replace2 BS BS (ch BS)
        (replace2 BS ";" ";"
          (replace2 BS "," ","
            (replace2 BS "n" (ch LF) text)))
  end.

(** ** Numbers: [String(n)], [padStart], [parseInt], [ToNumber] *)

Definition digit_char (d : Z) : ascii :=
  if d <? 10 then ascii_of_nat (48 + Z.to_nat d) else ascii_of_nat (87 + Z.to_nat d).

(** Digits of a non-negative integer in base [radix] (10 or 36),
    most significant first. *)
Fixpoint digits_rev (fuel : nat) (radix n : Z) (acc : string) : string :=
  match fuel with
  | O => acc
  | S f =>
      let acc' := String (digit_char (n mod radix)) acc in
      if n <? radix then acc' else digits_rev f radix (n / radix) acc'
  end.

Definition Z_to_radix (radix z : Z) : string :=
  let fuel := S (Z.to_nat (Z.log2 (Z.abs z))) in
  if z <? 0 then "-" ++ digits_rev fuel radix (- z) EmptyString
  else digits_rev fuel radix z EmptyString.

(** [String(n)] for a JavaScript number that is an integer or NaN. *)
Definition num_to_string (n : option Z) : string :=
  match n with
  | Some z => Z_to_radix 10 z
  | None => "NaN"
  end.

(** [s.padStart(2, '0')] *)
Definition padStart2 (s : string) : string :=
  match String.length s with
  | O => "00"
  | 1%nat => "0" ++ s
  | _ => s
  end.

Definition digit_val (radix : Z) (c : ascii) : option Z :=
  let n := Z.of_nat (nat_of_ascii c) in
  let v := if (48 <=? n) && (n <=? 57) then n - 48
           else if (97 <=? n) && (n <=? 122) then n - 87
           else if (65 <=? n) && (n <=? 90) then n - 55
           else 99 in
  if v <? radix then Some v else None.

(** Longest prefix of digits (as [parseInt] reads it); [None] when the
    prefix is empty. *)
Fixpoint digits_prefix (radix acc : Z) (seen : bool) (s : string) : option Z :=
  match s with
  | String c s' =>
      match digit_val radix c with
      | Some v => digits_prefix radix (acc * radix + v) true s'
      | None => if seen then Some acc else None
      end
  | EmptyString => if seen then Some acc else None
  end.

(** The whole string is a non-empty run of digits (as [ToNumber] reads
    it). *)
Fixpoint all_digits (radix acc : Z) (seen : bool) (s : string) : option Z :=
  match s with
  | String c s' =>
      match digit_val radix c with
      | Some v => all_digits radix (acc * radix + v) true s'
      | None => None
      end
  | EmptyString => if seen then Some acc else None
  end.

Fixpoint trim_start (s : string) : string :=
  match s with
  | String c s' => if is_js_space c then trim_start s' else s
  | EmptyString => EmptyString
  end.

Fixpoint trim_end (s : string) : string :=
  match s with
  | String c s' =>
      let t := trim_end s' in
      match t with
      | EmptyString => if is_js_space c then EmptyString else String c EmptyString
      | _ => String c t
      end
  | EmptyString => EmptyString
  end.

Definition trim (s : string) : string := trim_end (trim_start s).

(** [parseInt(s)] with the radix left undefined. *)
Definition parseInt (s : string) : option Z :=
  let s1 := trim_start s in
  let '(sign, s2) :=
    match s1 with
    | String c r =>
        if Ascii.eqb c "-" then (-1, r) else if Ascii.eqb c "+" then (1, r) else (1, s1)
    | EmptyString => (1, s1)
    end in
  let '(radix, s3) :=
    match s2 with
    | String z (String x r) =>
        if Ascii.eqb z "0" && (Ascii.eqb x "x" || Ascii.eqb x "X") then (16, r) else (10, s2)
    | _ => (10, s2)
    end in
  option_map (Z.mul sign) (digits_prefix radix 0 false s3).

(** [ToNumber(s)] on a string, for the integer numerals: decimal with an
    optional sign, and the [0x], [0o], [0b] forms.  Numerals with a
    fraction or an exponent are not modelled and read as NaN. *)
Definition ToNumber (s : string) : option Z :=
  let t := trim s in
  match t with
  | EmptyString => Some 0
  | String z (String x r) =>
      if Ascii.eqb z "0" && (Ascii.eqb x "x" || Ascii.eqb x "X") then all_digits 16 0 false r
      else if Ascii.eqb z "0" && (Ascii.eqb x "o" || Ascii.eqb x "O") then all_digits 8 0 false r
      else if Ascii.eqb z "0" && (Ascii.eqb x "b" || Ascii.eqb x "B") then all_digits 2 0 false r
      else if Ascii.eqb z "-" then option_map Z.opp (all_digits 10 0 false (String x r))
      else if Ascii.eqb z "+" then all_digits 10 0 false (String x r)
      else all_digits 10 0 false t
  | String z EmptyString => all_digits 10 0 false t
  end.

(** ** Dates: the proleptic Gregorian calendar of ECMA-262 *)

(** Days since 1970-01-01 of the civil date [y-m-d] ([m] in 1..12). *)
Definition days_from_civil (y m d : Z) : Z :=
  let y' := if m <=? 2 then y - 1 else y in
  let era := y' / 400 in
  let yoe := y' - era * 400 in
  let mp := if 2 <? m then m - 3 else m + 9 in
  let doy := (153 * mp + 2) / 5 + d - 1 in
  let doe := yoe * 365 + yoe / 4 - yoe / 100 + doy in
  era * 146097 + doe - 719468.

(** The civil date [(y, m, d)] ([m] in 1..12) of a day number. *)
Definition civil_from_days (z0 : Z) : Z * Z * Z :=
  let z := z0 + 719468 in
  let era := z / 146097 in
  let doe := z - era * 146097 in
  let yoe := (doe - doe / 1460 + doe / 36524 - doe / 146096) / 365 in
  let y := yoe + era * 400 in
  let doy := doe - (365 * yoe + yoe / 4 - yoe / 100) in
  let mp := (5 * doy + 2) / 153 in
  let d := doy - (153 * mp + 2) / 5 + 1 in
  let m := if mp <? 10 then mp + 3 else mp - 9 in
  (if m <=? 2 then y + 1 else y, m, d).

Definition msPerDay : Z := 86400000.

(** A [Date] object: its time value, or an Invalid Date. *)
Inductive jsdate := DValid (tv : Z) | DInvalid.

Definition MakeDay (y m d : option Z) : option Z :=
  match y, m, d with
  | Some y, Some m, Some d => Some (days_from_civil (y + m / 12) (m mod 12 + 1) 1 + d - 1)
  | _, _, _ => None
  end.

Definition MakeTime (h mi s ms : option Z) : option Z :=
  match h, mi, s, ms with
  | Some h, Some mi, Some s, Some ms => Some (h * 3600000 + mi * 60000 + s * 1000 + ms)
  | _, _, _, _ => None
  end.

Definition MakeDate (day time : option Z) : option Z :=
  match day, time with
  | Some d, Some t => Some (d * msPerDay + t)
  | _, _ => None
  end.

Definition TimeClip (t : option Z) : jsdate :=
  match t with
  | Some t => if Z.abs t <=? 8640000000000000 then DValid t else DInvalid
  | None => DInvalid
  end.

(** Years 0..99 given to the [Date] constructor or [Date.UTC] mean
    1900..1999. *)
Definition full_year (y : option Z) : option Z :=
  match y with
  | Some y => if (0 <=? y) && (y <=? 99) then Some (1900 + y) else Some y
  | None => None
  end.

(** *** Time zones (ECMA-262, 21.4.1: LocalTime and UTC)

    The host's time zone, as the time-zone database describes it: the
    offset (ms) of local time from UTC in force before the first
    transition, and the transitions, each an instant (a time value) and
    the offset in force from that instant on. *)
Record time_zone := mkZone { z_initial : Z; z_transitions : list (Z * Z) }.

Fixpoint offset_from (o : Z) (trs : list (Z * Z)) (t : Z) : Z :=
  match trs with
  | [] => o
  | (a, o') :: trs' => if a <=? t then offset_from o' trs' t else o
  end.

(** [GetNamedTimeZoneOffsetNanoseconds], in milliseconds. *)
Definition offset_at (z : time_zone) (t : Z) : Z := offset_from (z_initial z) (z_transitions z) t.

(** [LocalTime(t)] *)
Definition LocalTime (z : time_zone) (t : Z) : Z := t + offset_at z t.

(** The offsets the zone ever uses. *)
Definition zone_offsets (z : time_zone) : list Z := z_initial z :: map snd (z_transitions z).

(** [GetNamedTimeZoneEpochNanoseconds]: the instants whose local time is
    [tl] are the [tl - o] for the offsets [o] in force at [tl - o]; here
    the list of those offsets. *)
Definition possible_offsets (z : time_zone) (tl : Z) : list Z :=
  filter (fun o => offset_at z (tl - o) =? o) (zone_offsets z).

(** The largest local time before [tl] that some instant shows.  For an
    offset [o], the last instant before [tl - o] with offset [o] is
    [tl - o - 1] or the instant [a - 1] just before a transition [a]. *)
Definition latest_local_before (z : time_zone) (tl : Z) : Z :=
  let cands := flat_map (fun o =>
                 map (fun p => p + o)
                   (filter (fun p => offset_at z p =? o)
                      ((tl - o - 1) :: filter (fun p => p <? tl - o)
                                         (map (fun tr => fst tr - 1) (z_transitions z)))))
               (zone_offsets z) in
  match cands with
  | c :: cs => fold_left Z.max cs c
  | [] => tl - 1
  end.

(** [UTC(t)]: a local time shown by several instants is read as the
    earliest of them (the one with the largest offset); a local time
    skipped by a transition is read with the offset of the last instant
    showing the latest local time before it (the offset before the
    transition). *)
Definition UTC (z : time_zone) (tl : Z) : Z :=
  match possible_offsets z tl with
  | o :: os => tl - fold_left Z.max os o
  | [] =>
      match possible_offsets z (latest_local_before z tl) with
      | o :: os => tl - fold_left Z.min os o
      | [] => tl - z_initial z
      end
  end.

(** [s.replace('p', '')] with a string pattern: only the first occurrence
    is removed. *)
Fixpoint remove_first (p s : string) : string :=
  if starts_with p s then String.substring (String.length p) (String.length s - String.length p) s
  else match s with
       | EmptyString => EmptyString
       | String c s' => String c (remove_first p s')
       end.

(** [lines.join(sep)] *)
Fixpoint join (sep : string) (l : list string) : string :=
  match l with
  | [] => EmptyString
  | [x] => x
  | x :: l' => x ++ sep ++ join sep l'
  end.

(** [s.split(/\r?\n/)] *)
Fixpoint split_lines_acc (cur : string) (s : string) : list string :=
  match s with
  | String c ((String d rest) as s') =>
      if Ascii.eqb c CR && Ascii.eqb d LF then cur :: split_lines_acc EmptyString rest
      else if Ascii.eqb c LF then cur :: split_lines_acc EmptyString s'
      else split_lines_acc (cur ++ ch c) s'
  | String c EmptyString =>
      if Ascii.eqb c LF then [cur; EmptyString] else [cur ++ ch c]
  | EmptyString => [cur]
  end.

Definition split_lines (s : string) : list string := split_lines_acc EmptyString s.

(** ** Event records *)

Inductive organizer_val := OrgStr (s : string) | OrgObj (email name : string).
Inductive attendee_val := AttStr (s : string) | AttObj (email name : string).

Record rrule_obj := mkRRule {
  freq : string;
  interval : option Z;
  count : option Z;
  until : option jsdate;
  byDay : option (list string);
  byMonth : option (list string)
}.

Inductive recurrence_val := RStr (s : string) | RObj (r : rrule_obj).

(** An event record.  An absent or null string field is [""] (both are
    falsy, and the code only ever tests these fields for truthiness); an
    absent date is [None]; a reminder's [minutes] is [None] when absent.
    [categories_] is the record's [categories] array, read only by
    [EventSearch.filter] ([[]] when absent or not an array). *)
Record event := mkEvent {
  id : string;
  title : string;
  description : string;
  location : string;
  category : string;
  start : option jsdate;
  end_ : option jsdate;
  allDay : bool;
  status : string;
  showAs : string;
  organizer : option organizer_val;
  attendees : list attendee_val;
  reminders : list (option Z);
  recurrence : option recurrence_val;
  timezone : string;
  categories_ : list string
}.

Definition set_id (v : string) (e : event) : event :=
  mkEvent v (title e) (description e) (location e) (category e) (start e) (end_ e)
    (allDay e) (status e) (showAs e) (organizer e) (attendees e) (reminders e)
    (recurrence e) (timezone e) (categories_ e).
Definition set_title (v : string) (e : event) : event :=
  mkEvent (id e) v (description e) (location e) (category e) (start e) (end_ e)
    (allDay e) (status e) (showAs e) (organizer e) (attendees e) (reminders e)
    (recurrence e) (timezone e) (categories_ e).
Definition set_description (v : string) (e : event) : event :=
  mkEvent (id e) (title e) v (location e) (category e) (start e) (end_ e)
    (allDay e) (status e) (showAs e) (organizer e) (attendees e) (reminders e)
    (recurrence e) (timezone e) (categories_ e).
Definition set_location (v : string) (e : event) : event :=
  mkEvent (id e) (title e) (description e) v (category e) (start e) (end_ e)
    (allDay e) (status e) (showAs e) (organizer e) (attendees e) (reminders e)
    (recurrence e) (timezone e) (categories_ e).
Definition set_category (v : string) (e : event) : event :=
  mkEvent (id e) (title e) (description e) (location e) v (start e) (end_ e)
    (allDay e) (status e) (showAs e) (organizer e) (attendees e) (reminders e)
    (recurrence e) (timezone e) (categories_ e).
Definition set_categories (v : list string) (e : event) : event :=
  mkEvent (id e) (title e) (description e) (location e) (category e) (start e) (end_ e)
    (allDay e) (status e) (showAs e) (organizer e) (attendees e) (reminders e)
    (recurrence e) (timezone e) v.
Definition set_start (v : option jsdate) (e : event) : event :=
  mkEvent (id e) (title e) (description e) (location e) (category e) v (end_ e)
    (allDay e) (status e) (showAs e) (organizer e) (attendees e) (reminders e)
    (recurrence e) (timezone e) (categories_ e).
Definition set_end (v : option jsdate) (e : event) : event :=
  mkEvent (id e) (title e) (description e) (location e) (category e) (start e) v
    (allDay e) (status e) (showAs e) (organizer e) (attendees e) (reminders e)
    (recurrence e) (timezone e) (categories_ e).
Definition set_allDay (v : bool) (e : event) : event :=
  mkEvent (id e) (title e) (description e) (location e) (category e) (start e) (end_ e)
    v (status e) (showAs e) (organizer e) (attendees e) (reminders e)
    (recurrence e) (timezone e) (categories_ e).
Definition set_status (v : string) (e : event) : event :=
  mkEvent (id e) (title e) (description e) (location e) (category e) (start e) (end_ e)
    (allDay e) v (showAs e) (organizer e) (attendees e) (reminders e)
    (recurrence e) (timezone e) (categories_ e).
Definition set_showAs (v : string) (e : event) : event :=
  mkEvent (id e) (title e) (description e) (location e) (category e) (start e) (end_ e)
    (allDay e) (status e) v (organizer e) (attendees e) (reminders e)
    (recurrence e) (timezone e) (categories_ e).
Definition set_organizer (v : option organizer_val) (e : event) : event :=
  mkEvent (id e) (title e) (description e) (location e) (category e) (start e) (end_ e)
    (allDay e) (status e) (showAs e) v (attendees e) (reminders e)
    (recurrence e) (timezone e) (categories_ e).
Definition set_attendees (v : list attendee_val) (e : event) : event :=
  mkEvent (id e) (title e) (description e) (location e) (category e) (start e) (end_ e)
    (allDay e) (status e) (showAs e) (organizer e) v (reminders e)
    (recurrence e) (timezone e) (categories_ e).
Definition set_recurrence (v : option recurrence_val) (e : event) : event :=
  mkEvent (id e) (title e) (description e) (location e) (category e) (start e) (end_ e)
    (allDay e) (status e) (showAs e) (organizer e) (attendees e) (reminders e)
    v (timezone e) (categories_ e).

(** [ICSParser.createEmptyEvent] *)
Definition createEmptyEvent : event :=
  mkEvent "" "" "" "" "" None None false "confirmed" "busy" None [] [] None "" [].

(** ** The parser and serializer, over the ambient environment *)

Section ICSParser.

(** The ambient time zone of the host, and the name that
    [Intl.DateTimeFormat().resolvedOptions().timeZone] reports. *)
Variable tz : time_zone.
Variable tzname : string.
(** [generateUID()]: the [k]-th identifier the process generates
    ([Date.now()] and [Math.random()] are not modelled further). *)
Variable gen_uid : nat -> string.

Definition local_field (f : Z -> Z) (d : jsdate) : option Z :=
  match d with
  | DValid t => Some (f (LocalTime tz t))
  | DInvalid => None
  end.

Definition getFullYear : jsdate -> option Z :=
  local_field (fun l => let '(y, _, _) := civil_from_days (l / msPerDay) in y).
Definition getMonth : jsdate -> option Z :=
  local_field (fun l => let '(_, m, _) := civil_from_days (l / msPerDay) in m - 1).
Definition getDate : jsdate -> option Z :=
  local_field (fun l => let '(_, _, d) := civil_from_days (l / msPerDay) in d).
Definition getHours : jsdate -> option Z := local_field (fun l => (l / 3600000) mod 24).
Definition getMinutes : jsdate -> option Z := local_field (fun l => (l / 60000) mod 60).
Definition getSeconds : jsdate -> option Z := local_field (fun l => (l / 1000) mod 60).

(** [new Date(y, m, d, h, mi, s)]: the arguments are local clock fields. *)
Definition new_Date (y m d h mi s : option Z) : jsdate :=
  TimeClip (option_map (UTC tz)
    (MakeDate (MakeDay (full_year y) m d) (MakeTime h mi s (Some 0)))).

(** [new Date(Date.UTC(y, m, d, h, mi, s))] *)
Definition new_Date_UTC (y m d h mi s : option Z) : jsdate :=
  TimeClip (MakeDate (MakeDay (full_year y) m d) (MakeTime h mi s (Some 0))).

(** [ICSParser.formatDate] *)
Definition formatDate (date : jsdate) (dateOnly : bool) : string :=
  let year := num_to_string (getFullYear date) in
  let month := padStart2 (num_to_string (option_map (fun m => m + 1) (getMonth date))) in
  let day := padStart2 (num_to_string (getDate date)) in
  if dateOnly then year ++ month ++ day
  else
    let hour := padStart2 (num_to_string (getHours date)) in
    let minute := padStart2 (num_to_string (getMinutes date)) in
    let second := padStart2 (num_to_string (getSeconds date)) in
    year ++ month ++ day ++ "T" ++ hour ++ minute ++ second.

(** [dateString.replace(/^TZID=[^:]+:/, '')] *)
Definition strip_tzid (s : string) : string :=
  if starts_with "TZID=" s then
    let rest := String.substring 5 (String.length s - 5) s in
    match index_of_nat ":" rest with
    | Some (S k) => String.substring (S (S k)) (String.length rest - S (S k)) rest
    | _ => s
    end
  else s.

(** [parseInt(x) || 0] *)
Definition or0 (n : option Z) : option Z :=
  match n with
  | Some z => Some z
  | None => Some 0
  end.

Definition minus1 (n : option Z) : option Z := option_map (fun m => m - 1) n.

(** [ICSParser.parseDate] *)
Definition parseDate (dateString0 property : string) : jsdate :=
  let dateString := strip_tzid dateString0 in
  if includes property "VALUE=DATE" || (String.length dateString =? 8)%nat then
    let year := js_substr dateString 0 4 in
    let month := js_substr dateString 4 2 in
    let day := js_substr dateString 6 2 in
    new_Date (ToNumber year) (minus1 (ToNumber month)) (ToNumber day)
      (Some 0) (Some 0) (Some 0)
  else
    let year := parseInt (js_substr dateString 0 4) in
    let month := minus1 (parseInt (js_substr dateString 4 2)) in
    let day := parseInt (js_substr dateString 6 2) in
    let hour := or0 (parseInt (js_substr dateString 9 2)) in
    let minute := or0 (parseInt (js_substr dateString 11 2)) in
    let second := or0 (parseInt (js_substr dateString 13 2)) in
    if ends_with_char dateString "Z"
    then new_Date_UTC year month day hour minute second
    else new_Date year month day hour minute second.

(** [ICSParser.parseProperty].  The lookup [this.propertyMap[propName]]
    guards the [switch]; [EXDATE] is mapped but has no case, so it is
    ignored like the unmapped names.  (Keys inherited from
    [Object.prototype], such as ["constructor"], also reach no case.) The
    status lookup [statusMap[value]] is modelled on the three own keys. *)
Definition parseProperty (property value : string) (ev : event) : event :=
  let propName := before_char ";" property in
  if (String.eqb propName "DTSTART") || (String.eqb propName "DTEND") then
    let d := Some (parseDate value property) in
    let ev' := if String.eqb propName "DTSTART" then set_start d ev else set_end d ev in
    if includes property "VALUE=DATE" then set_allDay true ev' else ev'
  else if String.eqb propName "SUMMARY" then set_title (unescapeText value) ev
  else if String.eqb propName "DESCRIPTION" then set_description (unescapeText value) ev
  else if String.eqb propName "LOCATION" then set_location (unescapeText value) ev
  else if String.eqb propName "UID" then set_id value ev
  else if String.eqb propName "CATEGORIES" then set_category (before_char "," value) ev
  else if String.eqb propName "STATUS" then
    set_status (if String.eqb value "TENTATIVE" then "tentative"
                else if String.eqb value "CONFIRMED" then "confirmed"
                else if String.eqb value "CANCELLED" then "cancelled"
                else "confirmed") ev
  else if String.eqb propName "TRANSP" then
    set_showAs (if String.eqb value "TRANSPARENT" then "free" else "busy") ev
  else if String.eqb propName "ORGANIZER" then set_organizer (Some (OrgStr (remove_first "mailto:" value))) ev
  else if String.eqb propName "ATTENDEE" then
    let email := remove_first "mailto:" value in
    set_attendees (attendees ev ++ [AttObj email (before_char "@" email)])%list ev
  else if String.eqb propName "RRULE" then set_recurrence (Some (RStr value)) ev
  else ev.

(** [ICSParser.normalizeEvent], threading the count of generated ids.
    (The conversion of [start]/[end] to [Date] objects never fires on a
    parsed record: they are already [Date]s or null.) *)
Definition normalizeEvent (n : nat) (ev : event) : event * nat :=
  let '(event1, n') :=
    match id ev with
    | EmptyString => (set_id (gen_uid n) ev, S n)
    | _ => (ev, n)
    end in
  let event2 := match title event1 with
                | EmptyString => set_title "Untitled Event" event1
                | _ => event1
                end in
  (event2, n').

(** [ICSParser.unfoldLines] *)
Definition unfoldLines (icsString : string) : list string :=
  split_lines (replace2 LF " " EmptyString (replace3 CR LF " " EmptyString icsString)).

(** The loop state of [ICSParser.parse]: the output array, [currentEvent],
    [inEvent], [inAlarm], and the count of generated ids. *)
Record pstate := mkP {
  p_events : list event;
  p_cur : option event;
  p_inEvent : bool;
  p_inAlarm : bool;
  p_uid : nat
}.

(** The dispatch on [property] and [value] in the body of the loop of
    [ICSParser.parse]. *)
Definition parse_entry (st : pstate) (property value : string) : pstate :=
  if String.eqb property "BEGIN" then
    if String.eqb value "VEVENT" then
      mkP (p_events st) (Some createEmptyEvent) true (p_inAlarm st) (p_uid st)
    else if String.eqb value "VALARM" then
      mkP (p_events st) (p_cur st) (p_inEvent st) true (p_uid st)
    else st
  else if String.eqb property "END" then
    match String.eqb value "VEVENT", p_cur st with
    | true, Some cur =>
        let '(ev, n) := normalizeEvent (p_uid st) cur in
        mkP (p_events st ++ [ev])%list None false (p_inAlarm st) n
    | _, _ =>
        if String.eqb value "VALARM"
        then mkP (p_events st) (p_cur st) (p_inEvent st) false (p_uid st)
        else st
    end
  else if p_inEvent st && negb (p_inAlarm st) then
    match p_cur st with
    | Some cur => mkP (p_events st) (Some (parseProperty property value cur))
                    (p_inEvent st) (p_inAlarm st) (p_uid st)
    | None => st
    end
  else st.

(** One iteration of the [for (let line of lines)] loop of
    [ICSParser.parse]. *)
Definition parse_line (st : pstate) (line : string) : pstate :=
  if blank line then st
  else
    let colonIndex := index_of ":" line in
    let semicolonIndex := index_of ";" line in
    let separatorIndex :=
      if (-1 <? semicolonIndex) && (semicolonIndex <? colonIndex)
      then semicolonIndex else colonIndex in
    if separatorIndex =? -1 then st
    else
      let property := js_substring line 0 separatorIndex in
      let value := js_substring_from line (colonIndex + 1) in
      parse_entry st property value.

Definition parse_lines (st : pstate) (lines : list string) : pstate :=
  fold_left parse_line lines st.

(** [ICSParser.parse]: the parsed events, and the count of generated ids
    after the call. *)
Definition parse (n : nat) (icsString : string) : list event * nat :=
  let st := parse_lines (mkP [] None false false n) (unfoldLines icsString) in
  (p_events st, p_uid st).

(** ** Serialization *)

Definition maxLineLength : nat := 75.

(** The continuation chunks of [ICSParser.foldLines]: each is
    [' ' + remaining.substr(0, 74)]. *)
Fixpoint fold_chunks (fuel : nat) (remaining : string) : list string :=
  match fuel with
  | O => []
  | S f =>
      match remaining with
      | EmptyString => []
      | _ =>
          let chunk := String.substring 0 (maxLineLength - 1) remaining in
          (" " ++ chunk) ::
            fold_chunks f (String.substring (String.length chunk)
                             (String.length remaining - String.length chunk) remaining)
      end
  end.

Definition fold_line (line : string) : string :=
  if (String.length line <=? maxLineLength)%nat then line
  else
    let first := String.substring 0 maxLineLength line in
    let remaining := String.substring maxLineLength (String.length line - maxLineLength) line in
    join CRLF (first :: fold_chunks (String.length remaining) remaining).

(** [ICSParser.foldLines] *)
Definition foldLines (lines : list string) : list string := map fold_line lines.

(** [ICSParser.objectToRRule].  [freq.toUpperCase()] is modelled on
    ASCII letters. *)
Definition to_upper_ascii (c : ascii) : ascii :=
  let n := nat_of_ascii c in
  if (97 <=? n)%nat && (n <=? 122)%nat then ascii_of_nat (n - 32) else c.

Fixpoint to_upper (s : string) : string :=
  match s with
  | EmptyString => EmptyString
  | String c s' => String (to_upper_ascii c) (to_upper s')
  end.

Definition num_truthy (n : option Z) : option Z :=
  match n with
  | Some 0 | None => None
  | Some z => Some z
  end.

Definition objectToRRule (r : rrule_obj) : string :=
  let parts :=
    concat
      [match freq r with EmptyString => [] | f => ["FREQ=" ++ to_upper f] end;
       match num_truthy (interval r) with Some i => ["INTERVAL=" ++ Z_to_radix 10 i] | None => [] end;
       match num_truthy (count r) with Some c => ["COUNT=" ++ Z_to_radix 10 c] | None => [] end;
       match until r with Some u => ["UNTIL=" ++ formatDate u false] | None => [] end;
       match byDay r with Some l => ["BYDAY=" ++ join "," l] | None => [] end;
       match byMonth r with Some l => ["BYMONTH=" ++ join "," l] | None => [] end] in
  join ";" parts.

(** [ICSParser.eventToICS].  [None] stands for the [TypeError] thrown by
    [formatDate] when [start] is missing; the count of generated ids is
    threaded through. *)
Definition eventToICS (n : nat) (now : Z) (ev : event) : option (list string) * nat :=
  let '(uid, n') := match id ev with
                    | EmptyString => (gen_uid n, S n)
                    | i => (i, n)
                    end in
  match start ev with
  | None => (None, n')
  | Some s =>
      let dates :=
        if allDay ev then
          ("DTSTART;VALUE=DATE:" ++ formatDate s true) ::
          match end_ ev with
          | Some e => ["DTEND;VALUE=DATE:" ++ formatDate e true]
          | None => []
          end
        else
          let tzid := match timezone ev with EmptyString => tzname | z => z end in
          ("DTSTART;TZID=" ++ tzid ++ ":" ++ formatDate s false) ::
          match end_ ev with
          | Some e => ["DTEND;TZID=" ++ tzid ++ ":" ++ formatDate e false]
          | None => []
          end in
      let text (name v : string) :=
        match v with EmptyString => [] | _ => [name ++ ":" ++ escapeText v] end in
      let status_lines :=
        match status ev with
        | EmptyString => []
        | st => ["STATUS:" ++ (if String.eqb st "tentative" then "TENTATIVE"
                               else if String.eqb st "confirmed" then "CONFIRMED"
                               else if String.eqb st "cancelled" then "CANCELLED"
                               else "CONFIRMED")]
        end in
      let transp_lines :=
        match showAs ev with
        | EmptyString => []
        | v => ["TRANSP:" ++ (if String.eqb v "busy" then "OPAQUE"
                              else if String.eqb v "free" then "TRANSPARENT"
                              else "OPAQUE")]
        end in
      let category_lines :=
        match category ev with EmptyString => [] | c => ["CATEGORIES:" ++ c] end in
      let organizer_lines :=
        match organizer ev with
        | None | Some (OrgStr EmptyString) => []
        | Some (OrgStr o) => ["ORGANIZER:mailto:" ++ o]
        | Some (OrgObj em nm) =>
            ["ORGANIZER:mailto:" ++ match em with EmptyString => nm | _ => em end]
        end in
      let attendee_lines :=
        flat_map (fun a =>
          match a with
          | AttStr EmptyString => []
          | AttStr s => ["ATTENDEE:mailto:" ++ s]
          | AttObj EmptyString _ => ["ATTENDEE:mailto:[object Object]"]
          | AttObj em _ => ["ATTENDEE:mailto:" ++ em]
          end) (attendees ev) in
      let rrule_lines :=
        match recurrence ev with
        | None | Some (RStr EmptyString) => []
        | Some (RStr r) => [if starts_with "RRULE:" r then r else "RRULE:" ++ r]
        | Some (RObj o) => ["RRULE:" ++ objectToRRule o]
        end in
      let alarm_lines :=
        flat_map (fun m =>
          ["BEGIN:VALARM"; "ACTION:DISPLAY";
           "TRIGGER:-PT" ++ Z_to_radix 10 (match num_truthy m with Some z => z | None => 15 end) ++ "M";
           "DESCRIPTION:" ++ match title ev with EmptyString => "Reminder" | t => t end;
           "END:VALARM"]) (reminders ev) in
      (Some (concat
        [["BEGIN:VEVENT"; "UID:" ++ uid; "DTSTAMP:" ++ formatDate (DValid now) false];
         dates;
         text "SUMMARY" (title ev); text "DESCRIPTION" (description ev);
         text "LOCATION" (location ev);
         status_lines; transp_lines; category_lines; organizer_lines;
         attendee_lines; rrule_lines; alarm_lines;
         ["END:VEVENT"]]), n')
  end.

Fixpoint events_to_ics (n : nat) (now : Z) (events : list event) : option (list string) * nat :=
  match events with
  | [] => (Some [], n)
  | ev :: rest =>
      match eventToICS n now ev with
      | (Some ls, n1) =>
          match events_to_ics n1 now rest with
          | (Some ls', n2) => (Some (app ls ls'), n2)
          | (None, n2) => (None, n2)
          end
      | (None, n1) => (None, n1)
      end
  end.

(** [ICSParser.export]: [now] is the instant of the call, [n] the count
    of ids generated so far. *)
Definition export (n : nat) (now : Z) (events : list event) (calendarName : string)
  : option string * nat :=
  match events_to_ics n now events with
  | (Some body, n') =>
      let lines := concat [["BEGIN:VCALENDAR"; "VERSION:2.0"; "PRODID:-//Force Calendar Core//EN";
                            "X-WR-CALNAME:" ++ calendarName; "METHOD:PUBLISH"]; body;
                           ["END:VCALENDAR"]] in
      (Some (join CRLF (foldLines lines)), n')
  | (None, n') => (None, n')
  end.

End ICSParser.

(** ** The import handler ([ICSHandler.import]) *)

(** A thrown JavaScript value: an object with an optional [message], or
    [null]/[undefined]. *)
Inductive exn := ExnObj (message : option string) | ExnNullish.

Definition Error (msg : string) : exn := ExnObj (Some msg).

Inductive res (A : Type) := ROk (a : A) | RThrow (e : exn).
Arguments ROk {A} a.
Arguments RThrow {A} e.

(** The calendar-state collaborator, as an interface over its state [S]:
    each method may change the state and may throw. *)
Class CalendarState (S : Type) := {
  getEvent : string -> S -> res (option event) * S;
  getEvents : S -> res (list event) * S;
  addEvent : event -> S -> res unit * S;
  updateEvent : string -> event -> S -> res unit * S;
  removeEvent : string -> S -> res unit * S
}.

Record import_options := mkImportOptions {
  merge : bool;
  updateExisting : bool;
  skipDuplicates : bool;
  dateRange : option (jsdate * jsdate);
  categories : option (list string)
}.

(** The defaults of [import(input, options = {})]. *)
Definition default_import_options : import_options :=
  mkImportOptions true false true None None.

Record import_results := mkResults {
  imported : list event;
  skipped : list (event * string);
  updated : list event;
  errors : list (event * option string)
}.

Definition empty_results : import_results := mkResults [] [] [] [].

Definition add_imported (e : event) (r : import_results) : import_results :=
  mkResults (imported r ++ [e]) (skipped r) (updated r) (errors r).
Definition add_skipped (e : event) (reason : string) (r : import_results) : import_results :=
  mkResults (imported r) (skipped r ++ [(e, reason)]) (updated r) (errors r).
Definition add_updated (e : event) (r : import_results) : import_results :=
  mkResults (imported r) (skipped r) (updated r ++ [e]) (errors r).
Definition add_error (e : event) (msg : option string) (r : import_results) : import_results :=
  mkResults (imported r) (skipped r) (updated r) (errors r ++ [(e, msg)]).

(** The source of [import]'s text: a string, a [File]/[Blob] whose read
    either yields its text or fails, or a value of another type. *)
Inductive ics_input := InString (s : string) | InBlob (read : res string) | InOther.

(** [ICSHandler.getICSString] *)
Definition getICSString (input : ics_input) : res string :=
  match input with
  | InString s => ROk s
  | InBlob r => r
  | InOther => RThrow (Error "Invalid input type. Expected string, File, or Blob.")
  end.

(** Relational operators on [Date] objects compare time values; an
    Invalid Date compares false. *)
Definition date_le (a b : jsdate) : bool :=
  match a, b with
  | DValid x, DValid y => x <=? y
  | _, _ => false
  end.

(** [ICSHandler.isInDateRange]; [new Date(null)] is the epoch. *)
Definition isInDateRange (ev : event) (range : jsdate * jsdate) : bool :=
  let '(s, e) := range in
  let eventStart := match start ev with Some d => d | None => DValid 0 end in
  let eventEnd := match end_ ev with Some d => d | None => eventStart end in
  (date_le s eventStart && date_le eventStart e) ||
  (date_le s eventEnd && date_le eventEnd e) ||
  (date_le eventStart s && date_le e eventEnd).

(** [ICSHandler.generateNewId]: [now] is [Date.now()]. *)
Definition generateNewId (now : Z) (originalId : string) : string :=
  originalId ++ "-copy-" ++ Z_to_radix 36 now.

Section ImportHandler.

Context {S : Type} `{CalendarState S}.

(** The body of the [try] block of one loop iteration.  It returns the
    update of the results, or the thrown value, together with the record
    [eventData] as it stands afterwards: the clone branch reassigns its
    [id] in place before calling [addEvent]. *)
Definition import_step (o : import_options) (now : Z) (eventData : event) (s : S)
  : res (import_results -> import_results) * event * S :=
  let in_range := match dateRange o with
                  | Some r => isInDateRange eventData r
                  | None => true
                  end in
  if negb in_range then (ROk (add_skipped eventData "out_of_range"), eventData, s) else
  let in_categories := match categories o with
                       | Some cats => existsb (String.eqb (category eventData)) cats
                       | None => true
                       end in
  if negb in_categories then (ROk (add_skipped eventData "category_filtered"), eventData, s) else
  match getEvent (id eventData) s with
  | (RThrow e, s1) => (RThrow e, eventData, s1)
  | (ROk (Some _), s1) =>
      if updateExisting o then
        match updateEvent (id eventData) eventData s1 with
        | (RThrow e, s2) => (RThrow e, eventData, s2)
        | (ROk _, s2) => (ROk (add_updated eventData), eventData, s2)
        end
      else if skipDuplicates o then
        (ROk (add_skipped eventData "duplicate"), eventData, s1)
      else
        let eventData' := set_id (generateNewId now (id eventData)) eventData in
        match addEvent eventData' s1 with
        | (RThrow e, s2) => (RThrow e, eventData', s2)
        | (ROk _, s2) => (ROk (add_imported eventData'), eventData', s2)
        end
  | (ROk None, s1) =>
      match addEvent eventData s1 with
      | (RThrow e, s2) => (RThrow e, eventData, s2)
      | (ROk _, s2) => (ROk (add_imported eventData), eventData, s2)
      end
  end.

Definition TypeError : exn := Error "TypeError".

(** The [for (const eventData of parsedEvents)] loop with its per-event
    [try]/[catch].  The catch reads [error.message], which itself throws
    when the thrown value is [null] or [undefined].  Besides the results,
    the loop returns the array [parsedEvents] as it stands afterwards. *)
Fixpoint import_loop (o : import_options) (now : Z) (evs : list event)
    (r : import_results) (s : S) : res (import_results * list event) * S :=
  match evs with
  | [] => (ROk (r, []), s)
  | ev :: rest =>
      let '(out, ev', s1) := import_step o now ev s in
      let next := match out with
                  | ROk f => ROk (f r)
                  | RThrow (ExnObj msg) => ROk (add_error ev' msg r)
                  | RThrow ExnNullish => RThrow TypeError
                  end in
      match next with
      | ROk r' =>
          match import_loop o now rest r' s1 with
          | (ROk (r'', rest'), s2) => (ROk (r'', ev' :: rest'), s2)
          | (RThrow e, s2) => (RThrow e, s2)
          end
      | RThrow e => (RThrow e, s1)
      end
  end.

(** The removal loop run when [merge] is false. *)
Fixpoint remove_absent (importedIds : list string) (existingEvents : list event) (s : S)
  : res unit * S :=
  match existingEvents with
  | [] => (ROk tt, s)
  | e :: rest =>
      if existsb (String.eqb (id e)) importedIds then remove_absent importedIds rest s
      else match removeEvent (id e) s with
           | (ROk _, s1) => remove_absent importedIds rest s1
           | (RThrow x, s1) => (RThrow x, s1)
           end
  end.

(** The outer [catch]: [new Error(`ICS import failed: ${error.message}`)]. *)
Definition import_failure (e : exn) : exn :=
  match e with
  | ExnObj (Some m) => Error ("ICS import failed: " ++ m)
  | ExnObj None => Error "ICS import failed: undefined"
  | ExnNullish => TypeError
  end.

(** [ICSHandler.import]: [tz] and [gen] are the environment of the parser,
    [n] the count of ids generated so far and [now] the value of
    [Date.now()] during the call.  The result is the settled promise, the
    new count of generated ids and the collaborator's state. *)
Definition import (tz : time_zone) (gen : nat -> string) (n : nat) (now : Z)
    (input : ics_input) (o : import_options) (s : S) : res import_results * nat * S :=
  match getICSString input with
  | RThrow e => (RThrow (import_failure e), n, s)
  | ROk icsString =>
      let '(parsedEvents, n') := parse tz gen n icsString in
      match import_loop o now parsedEvents empty_results s with
      | (RThrow e, s1) => (RThrow (import_failure e), n', s1)
      | (ROk (results, parsedEvents'), s1) =>
          if merge o then (ROk results, n', s1)
          else
            let importedIds := map id parsedEvents' in
            match getEvents s1 with
            | (RThrow e, s2) => (RThrow (import_failure e), n', s2)
            | (ROk existingEvents, s2) =>
                match remove_absent importedIds existingEvents s2 with
                | (ROk _, s3) => (ROk results, n', s3)
                | (RThrow e, s3) => (RThrow (import_failure e), n', s3)
                end
            end
      end
  end.

End ImportHandler.

(** [!event.recurrence] is false: a recurrence rule is present. *)
Definition recurrence_truthy (ev : event) : bool :=
  match recurrence ev with
  | None | Some (RStr EmptyString) => false
  | Some _ => true
  end.

(** [date.getTime()]; [None] is NaN. *)
Definition time_value (d : jsdate) : option Z :=
  match d with
  | DValid t => Some t
  | DInvalid => None
  end.

(** [ICSHandler.expandRecurringEvents]: each record is paired with the
    [parentId] of its copy ([None] for a record pushed unchanged).  The
    range bounds it computes are unused, so the [dateRange] argument is
    not modelled; [None] stands for the [TypeError] of
    [instance.start.getTime()] on a recurring record without [start].
    The id [""] is the empty string in the template [`${event.id}-...`]. *)
Fixpoint expandRecurringEvents (events : list event) : option (list (event * option string)) :=
  match events with
  | [] => Some []
  | ev :: rest =>
      let here :=
        if negb (recurrence_truthy ev) then Some (ev, None)
        else match start ev with
             | None => None
             | Some st =>
                 Some (set_recurrence None
                         (set_id (id ev ++ "-" ++ num_to_string (time_value st)) ev),
                       Some (id ev))
             end in
      match here with
      | None => None
      | Some x =>
          match expandRecurringEvents rest with
          | Some xs => Some (x :: xs)
          | None => None
          end
      end
  end.

(** The options of [ICSHandler.export], with their defaults. *)
Record export_options := mkExportOptions {
  x_dateRange : option (jsdate * jsdate);
  x_categories : option (list string);
  calendarName : string;
  includeRecurring : bool;
  expandRecurring : bool
}.

Definition default_export_options : export_options :=
  mkExportOptions None None "Lightning Calendar Export" true false.

(** [ICSHandler.export]: [tz], [tzname] and [gen] are the environment of
    the parser, [n] the count of generated ids and [now] the instant of
    the call; the [parentId] of an expanded copy is not read by
    [ICSParser.export].  [RThrow] is a thrown value. *)
Definition handler_export {S : Type} `{CalendarState S} (tz : time_zone) (tzname : string)
    (gen : nat -> string) (n : nat) (now : Z) (o : export_options) (s : S)
  : res string * nat * S :=
  match getEvents s with
  | (RThrow e, s1) => (RThrow e, n, s1)
  | (ROk events0, s1) =>
      let events1 := match x_dateRange o with
                     | Some r => filter (fun ev => isInDateRange ev r) events0
                     | None => events0
                     end in
      let events2 := match x_categories o with
                     | Some cats => filter (fun ev => existsb (String.eqb (category ev)) cats) events1
                     | None => events1
                     end in
      let events3 := if expandRecurring o
                     then option_map (map fst) (expandRecurringEvents events2)
                     else if negb (includeRecurring o)
                     then Some (filter (fun ev => negb (recurrence_truthy ev)) events2)
                     else Some events2 in
      match events3 with
      | None => (RThrow TypeError, n, s1)
      | Some evs =>
          match export tz tzname gen n now evs (calendarName o) with
          | (Some out, n') => (ROk out, n', s1)
          | (None, n') => (RThrow TypeError, n', s1)
          end
      end
  end.

(** Modelled from the spec: the calendar-state collaborator of §4.3 and
    §6 ([getEvent], [getEvents], [addEvent], [updateEvent], [removeEvent]),
    which is not part of this repository.  Its state is the list of stored
    records in insertion order, keyed by [id]; no method throws. *)
Definition store := list event.

Definition store_find (i : string) (s : store) : option event :=
  find (fun e => String.eqb (id e) i) s.

Definition store_remove (i : string) (s : store) : store :=
  filter (fun e => negb (String.eqb (id e) i)) s.

#[export] Instance store_calendar : CalendarState store := {
  getEvent i s := (ROk (store_find i s), s);
  getEvents s := (ROk s, s);
  addEvent e s := (ROk tt, app (store_remove (id e) s) [e]);
  updateEvent i e s :=
    (ROk tt, map (fun x => if String.eqb (id x) i then set_id i e else x) s);
  removeEvent i s := (ROk tt, store_remove i s)
}.

(** ** The search engine ([EventSearch]) *)

(** [String.prototype.toLowerCase] on code units below 256. *)
Definition to_lower_ascii (c : ascii) : ascii :=
  let n := nat_of_ascii c in
  if ((65 <=? n)%nat && (n <=? 90)%nat) || ((192 <=? n)%nat && (n <=? 222)%nat && negb (n =? 215)%nat)
  then ascii_of_nat (n + 32) else c.

Fixpoint to_lower (s : string) : string :=
  match s with
  | EmptyString => EmptyString
  | String c s' => String (to_lower_ascii c) (to_lower s')
  end.

(** [EventSearch.tokenize]: [query.split(/\s+/).filter(t => t.length > 0)],
    that is the maximal runs of non-white-space characters. *)
Fixpoint tokenize_acc (cur : string) (s : string) : list string :=
  match s with
  | EmptyString => match cur with EmptyString => [] | _ => [cur] end
  | String c s' =>
      if is_js_space c
      then match cur with
           | EmptyString => tokenize_acc EmptyString s'
           | _ => cur :: tokenize_acc EmptyString s'
           end
      else tokenize_acc (cur ++ ch c) s'
  end.

Definition tokenize (query : string) : list string := tokenize_acc EmptyString query.

(** One row of the matrix of [EventSearch.levenshteinDistance]: [bi] is
    [b.charAt(i - 1)], [diag] is [matrix[i-1][j-1]], [ups] the rest of row
    [i - 1] and [left] is [matrix[i][j-1]]. *)
Fixpoint lev_row (bi : ascii) (a : string) (diag : nat) (ups : list nat) (left : nat)
  : list nat :=
  match a, ups with
  | String aj a', up :: ups' =>
      let v := if Ascii.eqb bi aj then diag
               else Nat.min (Nat.min (diag + 1) (left + 1)) (up + 1) in
      v :: lev_row bi a' up ups' v
  | _, _ => []
  end.

Fixpoint lev_rows (a b : string) (i : nat) (prev : list nat) : list nat :=
  match b with
  | EmptyString => prev
  | String bi b' =>
      let row := i :: lev_row bi a (hd 0%nat prev) (tl prev) i in
      lev_rows a b' (S i) row
  end.

Definition levenshteinDistance (a b : string) : nat :=
  match a, b with
  | EmptyString, _ => String.length b
  | _, EmptyString => String.length a
  | _, _ => last (lev_rows a b 1 (seq 0 (S (String.length a)))) 0%nat
  end.

(** The value [event[field]]: a string, a falsy value (skipped by the
    scoring loop), or a truthy value that is not a string. *)
Inductive field_val := FStr (s : string) | FFalsy | FNonString.

Definition str_field (s : string) : field_val :=
  match s with EmptyString => FFalsy | _ => FStr s end.

Definition field_value (ev : event) (field : string) : field_val :=
  if String.eqb field "id" then str_field (id ev)
  else if String.eqb field "title" then str_field (title ev)
  else if String.eqb field "description" then str_field (description ev)
  else if String.eqb field "location" then str_field (location ev)
  else if String.eqb field "category" then str_field (category ev)
  else if String.eqb field "status" then str_field (status ev)
  else if String.eqb field "showAs" then str_field (showAs ev)
  else if String.eqb field "timezone" then str_field (timezone ev)
  else if String.eqb field "start" then match start ev with Some _ => FNonString | None => FFalsy end
  else if String.eqb field "end" then match end_ ev with Some _ => FNonString | None => FFalsy end
  else if String.eqb field "allDay" then if allDay ev then FNonString else FFalsy
  else if String.eqb field "organizer" then
    match organizer ev with
    | Some (OrgStr s) => str_field s
    | Some (OrgObj _ _) => FNonString
    | None => FFalsy
    end
  else if String.eqb field "attendees" then FNonString
  else if String.eqb field "reminders" then FNonString
  else if String.eqb field "recurrence" then
    match recurrence ev with
    | Some (RStr s) => str_field s
    | Some (RObj _) => FNonString
    | None => FFalsy
    end
  else FFalsy.

(** Contribution of one query term to one field value. *)
Definition term_score (fuzzy : bool) (normalizedValue term : string) : Z :=
  if includes normalizedValue term then 10
  else if fuzzy then
    let distance := Z.of_nat (levenshteinDistance term normalizedValue) in
    if distance <=? 2 then 5 - distance else 0
  else 0.

(** [EventSearch.calculateMatchScore].  [None] stands for the
    [TypeError] of [value.toLowerCase()] on a value that is not a string
    (the case-sensitive path on such values is not modelled and is also
    reported as [None]). *)
Fixpoint calculateMatchScore_from (ev : event) (queryTerms : list string)
    (fields : list string) (fuzzy caseSensitive : bool) (totalScore : Z) : option Z :=
  match fields with
  | [] => Some totalScore
  | field :: fields' =>
      match field_value ev field with
      | FFalsy => calculateMatchScore_from ev queryTerms fields' fuzzy caseSensitive totalScore
      | FNonString => None
      | FStr value =>
          let normalizedValue := if caseSensitive then value else to_lower value in
          let total1 := fold_left (fun acc term => acc + term_score fuzzy normalizedValue term)
                          queryTerms totalScore in
          let total2 := if String.eqb field "title" then total1 * 2 else total1 in
          calculateMatchScore_from ev queryTerms fields' fuzzy caseSensitive total2
      end
  end.

Definition calculateMatchScore (ev : event) (queryTerms fields : list string)
    (fuzzy caseSensitive : bool) : option Z :=
  calculateMatchScore_from ev queryTerms fields fuzzy caseSensitive 0.

(** A search hit: the record and its score ([matches] is computed by
    [getMatchDetails] and then dropped, so it is not modelled). *)
Record hit := mkHit { hit_event : event; hit_score : Z }.

(** The number a [Date]-valued [start] converts to; [None] is NaN. *)
Definition start_num (ev : event) : option Z :=
  match start ev with
  | Some (DValid t) => Some t
  | Some DInvalid => None
  | None => Some 0
  end.

(** [a.localeCompare(b)]: the collation of the host's default locale
    (ICU), which is not modelled; the sort depends on it only through its
    sign. *)
Class Collator := localeCompare : string -> string -> Z.

(** Code-unit order of two strings, a comparator of the kind
    [localeCompare] is (used in concrete runs). *)
Fixpoint string_compare (a b : string) : Z :=
  match a, b with
  | EmptyString, EmptyString => 0
  | EmptyString, String _ _ => -1
  | String _ _, EmptyString => 1
  | String x a', String y b' =>
      let nx := Z.of_nat (nat_of_ascii x) in
      let ny := Z.of_nat (nat_of_ascii y) in
      if nx <? ny then -1 else if ny <? nx then 1 else string_compare a' b'
  end.

(** The comparators of [EventSearch.sortResults]; a NaN result counts
    as [+0], as in [Array.prototype.sort]. *)
Definition sort_comparator `{lc : Collator} (sortBy : string) : option (hit -> hit -> Z) :=
  if String.eqb sortBy "relevance" then Some (fun a b => hit_score b - hit_score a)
  else if String.eqb sortBy "date" then
    Some (fun a b => match start_num (hit_event a), start_num (hit_event b) with
                     | Some x, Some y => x - y
                     | _, _ => 0
                     end)
  else if String.eqb sortBy "title" then
    Some (fun a b => localeCompare (title (hit_event a)) (title (hit_event b)))
  else None.

(** [Array.prototype.sort] with a comparator: a stable insertion sort. *)
Fixpoint insert_by {A : Type} (cmp : A -> A -> Z) (x : A) (l : list A) : list A :=
  match l with
  | [] => [x]
  | y :: l' => if cmp x y <=? 0 then x :: y :: l' else y :: insert_by cmp x l'
  end.

Fixpoint sort_by {A : Type} (cmp : A -> A -> Z) (l : list A) : list A :=
  match l with
  | [] => []
  | x :: l' => insert_by cmp x (sort_by cmp l')
  end.

(** [EventSearch.sortResults] *)
Definition sortResults `{lc : Collator} (results : list hit) (sortBy : string) : list hit :=
  match sort_comparator sortBy with
  | Some cmp => sort_by cmp results
  | None => results
  end.

(** [results.slice(0, limit)] for an integer [limit]. *)
Definition slice0 {A : Type} (l : list A) (limit : Z) : list A :=
  let len := Z.of_nat (length l) in
  let k := if limit <? 0 then Z.max (len + limit) 0 else Z.min limit len in
  firstn (Z.to_nat k) l.

Record search_options := mkSearchOptions {
  fields : list string;
  fuzzy : bool;
  caseSensitive : bool;
  limit : option Z;           (* [None]: null *)
  sortBy : string
}.

Definition indexFields : list string := ["title"; "description"; "location"; "category"].

Definition default_search_options : search_options :=
  mkSearchOptions indexFields true false None "relevance".

Fixpoint score_events (queryTerms : list string) (o : search_options) (events : list event)
  : option (list hit) :=
  match events with
  | [] => Some []
  | ev :: rest =>
      match calculateMatchScore ev queryTerms (fields o) (fuzzy o) (caseSensitive o),
            score_events queryTerms o rest with
      | Some score, Some hits => Some (if 0 <? score then mkHit ev score :: hits else hits)
      | _, _ => None
      end
  end.

(** [EventSearch.search] over the collection [events] returned by
    [eventStore.getAllEvents()]; [None] stands for a thrown [TypeError]. *)
Definition search `{lc : Collator} (query : string) (o : search_options) (events : list event)
  : option (list event) :=
  if blank query then Some []
  else
    let normalizedQuery := if caseSensitive o then query else to_lower query in
    let queryTerms := tokenize normalizedQuery in
    match score_events queryTerms o events with
    | None => None
    | Some results =>
        let sorted := sortResults results (sortBy o) in
        let limited := match limit o with
                       | Some l => if l =? 0 then sorted else slice0 sorted l
                       | None => sorted
                       end in
        Some (map hit_event limited)
    end.

Record filters := mkFilters {
  f_dateRange : option (jsdate * jsdate);
  f_categories : option (list string);
  f_locations : option (list string);
  f_attendees : option (list string);
  f_status : option (list string);
  f_allDay : option bool;
  f_recurring : option bool;
  f_hasReminders : option bool;
  f_custom : option (event -> bool)
}.

Definition nonempty {A : Type} (l : option (list A)) : option (list A) :=
  match l with
  | Some ((_ :: _) as l') => Some l'
  | _ => None
  end.

Definition mem (x : string) (l : list string) : bool := existsb (String.eqb x) l.

(** [attendee.email || attendee] followed by [.toLowerCase()]; [None] is
    the [TypeError] on an attendee object without an email. *)
Definition attendee_email_lower (a : attendee_val) : option string :=
  match a with
  | AttStr s => Some (to_lower s)
  | AttObj EmptyString _ => None
  | AttObj em _ => Some (to_lower em)
  end.

Fixpoint filter_opt {A : Type} (p : A -> option bool) (l : list A) : option (list A) :=
  match l with
  | [] => Some []
  | x :: l' =>
      match p x, filter_opt p l' with
      | Some b, Some r => Some (if b then x :: r else r)
      | _, _ => None
      end
  end.

Fixpoint existsb_opt {A : Type} (p : A -> option bool) (l : list A) : option bool :=
  match l with
  | [] => Some false
  | x :: l' => match p x with
               | Some true => Some true
               | Some false => existsb_opt p l'
               | None => None
               end
  end.

(** [EventSearch.filter]; [None] stands for a thrown [TypeError].  The
    date-range test is the comparison of [ICSHandler.isInDateRange]
    ([null] compares as 0).  An event without [category] is tested by its
    [categories] array. *)
Definition filter_events (fl : filters) (events0 : list event) : option (list event) :=
  let events1 := match f_dateRange fl with
                 | Some r => filter (fun ev => isInDateRange ev r) events0
                 | None => events0
                 end in
  let events2 := match nonempty (f_categories fl) with
                 | Some cats => filter (fun ev => match category ev with
                                                   | EmptyString =>
                                                       existsb (fun cat => mem cat cats)
                                                         (categories_ ev)
                                                   | c => mem c cats
                                                   end) events1
                 | None => events1
                 end in
  let events3 := match nonempty (f_locations fl) with
                 | Some locs =>
                     let locationSet := map to_lower locs in
                     filter (fun ev => match location ev with
                                       | EmptyString => false
                                       | l => mem (to_lower l) locationSet
                                       end) events2
                 | None => events2
                 end in
  let events4 := match nonempty (f_attendees fl) with
                 | Some atts =>
                     let attendeeEmails := map to_lower atts in
                     filter_opt (fun ev =>
                       match attendees ev with
                       | [] => Some false
                       | l => existsb_opt (fun a => option_map (fun em => mem em attendeeEmails)
                                                      (attendee_email_lower a)) l
                       end) events3
                 | None => Some events3
                 end in
  match events4 with
  | None => None
  | Some events4 =>
  let events5 := match f_status fl with
                 | Some statusSet => filter (fun ev => mem (status ev) statusSet) events4
                 | None => events4
                 end in
  let events6 := match f_allDay fl with
                 | Some b => filter (fun ev => Bool.eqb (allDay ev) b) events5
                 | None => events5
                 end in
  let events7 := match f_recurring fl with
                 | Some b => filter (fun ev =>
                               let hasRecurrence := match recurrence ev with
                                                    | None | Some (RStr EmptyString) => false
                                                    | Some _ => true
                                                    end in
                               if b then hasRecurrence else negb hasRecurrence) events6
                 | None => events6
                 end in
  let events8 := match f_hasReminders fl with
                 | Some b => filter (fun ev =>
                               let hasRem := match reminders ev with [] => false | _ => true end in
                               if b then hasRem else negb hasRem) events7
                 | None => events7
                 end in
  let events9 := match f_custom fl with
                 | Some p => filter p events8
                 | None => events8
                 end in
  Some events9
  end.

(** ** Finite checks used by the proofs *)

(** [f a && f (a+1) && ... && f (a+n-1)] *)
Fixpoint all_in_range (f : Z -> bool) (a : Z) (n : nat) : bool :=
  match n with
  | O => true
  | S n' => f a && all_in_range f (a + 1) n'
  end.

(** The day-of-era facts behind [civil_from_days]: for a day [doe] of a
    400-year era, the year of the era, the day of the year, the shifted
    month and the day of the month are in range. *)
Definition doe_ok (doe : Z) : bool :=
  let yoe := (doe - doe / 1460 + doe / 36524 - doe / 146096) / 365 in
  let doy := doe - (365 * yoe + yoe / 4 - yoe / 100) in
  let mp := (5 * doy + 2) / 153 in
  let d := doy - (153 * mp + 2) / 5 + 1 in
  (0 <=? yoe) && (yoe <=? 399) && (0 <=? doy) && (doy <=? 365) &&
  (0 <=? mp) && (mp <=? 11) && (1 <=? d) && (d <=? 31).

(** Four-digit years print as four characters that [parseInt] and
    [ToNumber] read back, and that do not start with [T]. *)
Definition year_ok (y : Z) : bool :=
  let s := Z_to_radix 10 y in
  (String.length s =? 4)%nat &&
  match parseInt s with Some v => v =? y | None => false end &&
  match ToNumber s with Some v => v =? y | None => false end &&
  match s with String c _ => negb (Ascii.eqb c "T") | EmptyString => false end &&
  negb (blank s).

Definition two_digit_ok (k : Z) : bool :=
  let s := padStart2 (Z_to_radix 10 k) in
  (String.length s =? 2)%nat &&
  match parseInt s with Some v => v =? k | None => false end &&
  match ToNumber s with Some v => v =? k | None => false end &&
  negb (ends_with_char s "Z").

(** The text [escapeText s] after the first [k] of the four
    replacements of [unescapeText]: [esc_k 0 s] is [escapeText s], and
    the fourth replacement turns [esc_k 3 s] back into [s]. *)
Definition esc_char (k : nat) (x : ascii) : string :=
  if Ascii.eqb x BS then String BS (ch BS)
  else if Ascii.eqb x ";" then (if (k <? 3)%nat then String BS ";" else ch ";")
  else if Ascii.eqb x "," then (if (k <? 2)%nat then String BS "," else ch ",")
  else if Ascii.eqb x LF then (if (k <? 1)%nat then String BS "n" else ch LF)
  else ch x.

Fixpoint esc_k (k : nat) (s : string) : string :=
  match s with
  | EmptyString => EmptyString
  | String x s' => esc_char k x ++ esc_k k s'
  end.

(** Line predicates used by the proofs about [foldLines]/[unfoldLines]. *)

(** [s] contains no line feed. *)
Definition no_lf (s : string) : Prop := index_of_nat LF s = None.

(** [s] does not begin with a line feed. *)
Definition not_lf_start (s : string) : Prop := forall s', s <> String LF s'.

(** The continuation chunks of a folded line, each preceded by CRLF, followed by [T]. *)
Definition fold_tail (T : string) (l : list string) : string :=
  fold_right (fun c acc => CRLF ++ c ++ acc) T l.

(** A line that survives [foldLines] and [unfoldLines]: no line feed, and a first character that is not a space. *)
Definition line_ok (l : string) : Prop :=
  no_lf l /\ match l with String c _ => c <> " "%char | EmptyString => False end.

(** A property name that [parse] reads back: no [:], no [;], not blank. *)
Definition name_ok (P : string) : Prop :=
  index_of_nat ":" P = None /\ index_of_nat ";" P = None /\ blank P = false.

(** ** Auxiliary definitions for the statements *)

(** No instant before [t] shows the local time of [t]: [t] is not in the
    second pass of a local hour repeated when the offset decreases. *)
Definition first_shown (z : time_zone) (t : Z) : Prop :=
  forall t2, t2 < t -> LocalTime z t2 <> LocalTime z t.

(** The zone's offsets and transition instants are whole seconds. *)
Definition whole_seconds (z : time_zone) : Prop :=
  Forall (fun o => o mod 1000 = 0) (zone_offsets z) /\
  Forall (fun tr => fst tr mod 1000 = 0) (z_transitions z).

(** America/New_York with its 2024 transitions: UTC-5, UTC-4 from
    2024-03-10T07:00Z, UTC-5 again from 2024-11-03T06:00Z (the offsets of
    earlier and later years are not listed). *)
Definition new_york_2024 : time_zone :=
  mkZone (-18000000) [(1710054000000, -14400000); (1730613600000, -18000000)].

(** [options] with its [limit] replaced. *)
Definition with_limit (o : search_options) (l : option Z) : search_options :=
  mkSearchOptions (fields o) (fuzzy o) (caseSensitive o) l (sortBy o).

(** The scoring rule of the spec (§4.4), written from its words: the
    points one token earns against a field value, the sum over the tokens,
    and the scan of the fields in order, doubling the running total after
    the [title] field. *)
Definition spec_token_points (fz : bool) (value token : string) : Z :=
  let d := Z.of_nat (levenshteinDistance token value) in
  if includes value token then 10
  else if fz && (d <=? 2) then 5 - d
  else 0.

Definition spec_field_points (fz : bool) (value : string) (tokens : list string) : Z :=
  fold_right (fun token acc => spec_token_points fz value token + acc) 0 tokens.

Fixpoint spec_score (ev : event) (tokens fs : list string) (fz cs : bool) (running : Z)
  : option Z :=
  match fs with
  | [] => Some running
  | f :: fs' =>
      match field_value ev f with
      | FFalsy => spec_score ev tokens fs' fz cs running
      | FNonString => None
      | FStr v =>
          let running' := running + spec_field_points fz (if cs then v else to_lower v) tokens in
          spec_score ev tokens fs' fz cs
            (if String.eqb f "title" then 2 * running' else running')
      end
  end.

(** The line-splitting of one loop iteration of [ICSParser.parse]: the
    [property] and [value] a line is dispatched on, or [None] when the
    line is skipped. *)
Definition line_entry (line : string) : option (string * string) :=
  if blank line then None
  else
    let colonIndex := index_of ":" line in
    let semicolonIndex := index_of ";" line in
    let separatorIndex :=
      if (-1 <? semicolonIndex) && (semicolonIndex <? colonIndex)
      then semicolonIndex else colonIndex in
    if separatorIndex =? -1 then None
    else Some (js_substring line 0 separatorIndex, js_substring_from line (colonIndex + 1)).

(** A collaborator over a stored list that serves reads and refuses every
    write by throwing an [Error] (a read-only calendar). *)
Record readonly_store := ReadOnly { ro_events : store }.

#[export] Instance readonly_calendar : CalendarState readonly_store := {
  getEvent i s := (ROk (store_find i (ro_events s)), s);
  getEvents s := (ROk (ro_events s), s);
  addEvent e s := (RThrow (Error "read-only"), s);
  updateEvent i e s := (RThrow (Error "read-only"), s);
  removeEvent i s := (RThrow (Error "read-only"), s)
}.

(** Sample inputs: an ICS document given by its lines, an id generator,
    and a stored record with a given id. *)
Definition ics_doc (ls : list string) : string := join CRLF ls.

Definition sample_gen (n : nat) : string := "uid-" ++ Z_to_radix 10 (Z.of_nat n).

Definition stored_event (i : string) : event := set_id i createEmptyEvent.

Definition doc_uid1 : string :=
  ics_doc ["BEGIN:VCALENDAR"; "BEGIN:VEVENT"; "UID:1"; "SUMMARY:Standup"; "END:VEVENT";
           "END:VCALENDAR"].

Definition doc_no_uid : string :=
  ics_doc ["BEGIN:VCALENDAR"; "BEGIN:VEVENT"; "SUMMARY:Standup"; "END:VEVENT"; "END:VCALENDAR"].

Definition doc_nested_alarm : string :=
  ics_doc ["BEGIN:VEVENT"; "BEGIN:VALARM"; "BEGIN:VALARM"; "END:VALARM"; "SUMMARY:x";
           "END:VALARM"; "END:VEVENT"].

(** The store holds a record with id [i]. *)
Definition stored (i : string) (s : store) : Prop := store_find i s <> None.

(** ** Further operations of [EventSearch] and [ICSHandler] *)

(** The loop of [EventSearch.getSuggestions] over
    [eventStore.getAllEvents()]: the [Set] of suggestions is a list in
    insertion order.  [None] stands for the [TypeError] of
    [value.toLowerCase()] on a truthy value that is not a string. *)
Fixpoint suggestions_loop (normalizedPartial field : string) (lim : Z)
    (events : list event) (suggestions : list string) : option (list string) :=
  match events with
  | [] => Some suggestions
  | ev :: rest =>
      match field_value ev field with
      | FFalsy => suggestions_loop normalizedPartial field lim rest suggestions
      | FNonString => None
      | FStr value =>
          if includes (to_lower value) normalizedPartial then
            let suggestions' :=
              if mem value suggestions then suggestions else (suggestions ++ [value])%list in
            if lim <=? Z.of_nat (length suggestions') then Some suggestions'
            else suggestions_loop normalizedPartial field lim rest suggestions'
          else suggestions_loop normalizedPartial field lim rest suggestions
      end
  end.

Record suggestion_options := mkSuggestionOptions {
  s_field : string;
  s_limit : Z;
  s_minLength : Z
}.

Definition default_suggestion_options : suggestion_options :=
  mkSuggestionOptions "title" 10 2.

(** [EventSearch.getSuggestions] *)
Definition getSuggestions (partial : string) (o : suggestion_options) (events : list event)
  : option (list string) :=
  match partial with
  | EmptyString => Some []
  | _ =>
      if Z.of_nat (String.length partial) <? s_minLength o then Some []
      else suggestions_loop (to_lower partial) (s_field o) (s_limit o) events []
  end.

(** [EventSearch.advancedSearch] over the collection [events]; [o] are
    the search options with the defaults of [search] filled in, and the
    inner [search] runs with [limit: null]. *)
Definition advancedSearch `{lc : Collator} (query : string) (fl : filters) (o : search_options)
    (events : list event) : option (list event) :=
  match filter_events fl events with
  | None => None
  | Some filtered =>
      let searched :=
        if blank query then Some filtered
        else match search query (with_limit o None) events with
             | None => None
             | Some searchResults =>
                 let searchIds := map id searchResults in
                 Some (filter (fun e => mem (id e) searchIds) filtered)
             end in
      match searched with
      | None => None
      | Some evs =>
          Some (match limit o with
                | Some l => if l =? 0 then evs else slice0 evs l
                | None => evs
                end)
      end
  end.

(** The result object of [ICSHandler.validate]. *)
Record validation := mkValidation {
  valid : bool;
  v_errors : list string;
  v_warnings : list string
}.

(** The per-event checks of [ICSHandler.validate]; [i] is the index of
    the first event of [events]. *)
Fixpoint validate_events (i : nat) (events : list event) (r : validation) : validation :=
  match events with
  | [] => r
  | ev :: rest =>
      let label := "Event " ++ Z_to_radix 10 (Z.of_nat (S i)) in
      let r1 := match start ev with
                | None => mkValidation false ((v_errors r ++ [(label ++ ": Missing start date")%string])%list)
                                       (v_warnings r)
                | Some _ => r
                end in
      let r2 := match title ev, description ev with
                | EmptyString, EmptyString =>
                    mkValidation (valid r1) (v_errors r1)
                      ((v_warnings r1 ++ [(label ++ ": No title or description")%string])%list)
                | _, _ => r1
                end in
      validate_events (S i) rest r2
  end.

(** [ICSHandler.validate], with the parser's environment [tz], [gen] and
    the count [n] of generated ids (the [catch] is unreachable: [parse]
    does not throw on a string). *)
Definition validate (tz : time_zone) (gen : nat -> string) (n : nat) (icsString : string)
  : validation * nat :=
  let r0 := mkValidation true [] [] in
  let r1 := if includes icsString "BEGIN:VCALENDAR" then r0
            else mkValidation false ((v_errors r0 ++ ["Missing BEGIN:VCALENDAR"])%list) (v_warnings r0) in
  let r2 := if includes icsString "END:VCALENDAR" then r1
            else mkValidation false ((v_errors r1 ++ ["Missing END:VCALENDAR"])%list) (v_warnings r1) in
  let r3 := if includes icsString "VERSION:" then r2
            else mkValidation (valid r2) (v_errors r2) ((v_warnings r2 ++ ["Missing VERSION property"])%list) in
  let '(events, n') := parse tz gen n icsString in
  let r4 := match events with
            | [] => mkValidation (valid r3) (v_errors r3)
                      ((v_warnings r3 ++ ["No events found in calendar"])%list)
            | _ => r3
            end in
  (validate_events 0 events r4, n').

(** [s] with its white-space characters removed. *)
Fixpoint drop_spaces (s : string) : string :=
  match s with
  | EmptyString => EmptyString
  | String c s' => if is_js_space c then drop_spaces s' else String c (drop_spaces s')
  end.

(** The counts of the four lists of an import result. *)
Definition results_size (r : import_results) : nat :=
  length (imported r) + length (skipped r) + length (updated r) + length (errors r).

(** The events held by the four lists of an [import_results]. *)
Definition results_entries (r : import_results) : list event :=
  imported r ++ map fst (skipped r) ++ updated r ++ map fst (errors r).

(** ** Auxiliary definitions for the further properties *)

(** The bounds kept by the matrix of [levenshteinDistance]: the entry in
    row [i] and column [j] lies between [|i - j|] and [max i j]. *)
Definition lev_ok (i j v : nat) : Prop :=
  (i - j <= v)%nat /\ (j - i <= v)%nat /\ (v <= Nat.max i j)%nat.

Definition row_ok (i : nat) (row : list nat) : Prop :=
  forall j v, nth_error row j = Some v -> lev_ok i j v.

(** [a] comes before [b] in order of non-increasing score. *)
Definition score_ge (a b : hit) : Prop := hit_score b <= hit_score a.

(** A value [getSuggestions] may return: it contains the normalized
    partial [np] case-insensitively and is the [field] of an event of [E]. *)
Definition sugg_ok (np field : string) (E : list event) (v : string) : Prop :=
  includes (to_lower v) np = true /\ exists ev, In ev E /\ field_value ev field = FStr v.

(** The event has a [start] date. *)
Definition has_start (e : event) : bool :=
  match start e with Some _ => true | None => false end.

(** A collaborator that behaves as [store_calendar] on [getEvent],
    [addEvent] and [updateEvent], and throws from [getEvents] and
    [removeEvent]. *)
Definition store_without_removal : CalendarState store := {|
  getEvent i s := @getEvent store store_calendar i s;
  getEvents s := (RThrow (Error "getEvents"), s);
  addEvent e s := @addEvent store store_calendar e s;
  updateEvent i e s := @updateEvent store store_calendar i e s;
  removeEvent i s := (RThrow (Error "removeEvent"), s)
|}.

(** Filters with no criterion. *)
Definition no_filters : filters := mkFilters None None None None None None None None None.

(** Sample records: a dated meeting, a daily recurring meeting and an
    undated record. *)
Definition sample_events : list event :=
  [set_start (Some (DValid 1704085200000)) (set_title "Team Standup" (stored_event "1"));
   set_recurrence (Some (RStr "FREQ=DAILY"))
     (set_start (Some (DValid 1704171600000)) (set_title "Standup" (stored_event "2")));
   set_title "Lunch" (stored_event "3")].

(** Two events with categories: one through the [categories] array only, one through [category]. *)
Definition categorized_events : list event :=
  [set_categories ["work"; "team"] (stored_event "4");
   set_category "home" (stored_event "5")].

(** Two search hits whose titles differ in case. *)
Definition sample_hits : list hit :=
  [mkHit (set_title "apple standup" createEmptyEvent) 10;
   mkHit (set_title "Banana standup" createEmptyEvent) 10].

(** * Properties *)

Lemma all_in_range_spec (f : Z -> bool) (n : nat) :
  forall a, all_in_range f a n = true -> forall x, a <= x < a + Z.of_nat n -> f x = true.
Proof.
  induction n as [|n IH]; intros a Hall x Hx; simpl in *.
  - lia.
  - apply andb_true_iff in Hall as [Ha Hrest].
    destruct (Z.eq_dec x a) as [->|Hne]; [exact Ha|].
    apply (IH (a + 1)); [exact Hrest | lia].
Qed.

Lemma doe_ok_all : forall doe, 0 <= doe < 146097 -> doe_ok doe = true.
Proof.
  intros doe Hd. apply (all_in_range_spec doe_ok (Z.to_nat 146097) 0); [vm_compute; reflexivity | lia].
Qed.

Lemma civil_from_days_spec (z : Z) :
  let '(y, m, d) := civil_from_days z in
  1 <= m <= 12 /\ 1 <= d <= 31 /\ days_from_civil y m d = z.
Proof.
  unfold civil_from_days.
  set (era := (z + 719468) / 146097).
  set (doe := z + 719468 - era * 146097).
  assert (Hdoe : 0 <= doe < 146097) by (subst doe era; Z.div_mod_to_equations; lia).
  pose proof (doe_ok_all doe Hdoe) as Hok. unfold doe_ok in Hok.
  set (yoe := (doe - doe / 1460 + doe / 36524 - doe / 146096) / 365) in *.
  set (doy := doe - (365 * yoe + yoe / 4 - yoe / 100)) in *.
  set (mp := (5 * doy + 2) / 153) in *.
  set (d := doy - (153 * mp + 2) / 5 + 1) in *.
  repeat rewrite andb_true_iff in Hok. rewrite !Z.leb_le in Hok.
  destruct Hok as [[[[[[[H1 H2] H3] H4] H5] H6] H7] H8].
  set (m := if mp <? 10 then mp + 3 else mp - 9).
  assert (Hm : 1 <= m <= 12) by (subst m; destruct (Z.ltb_spec mp 10); lia).
  split; [exact Hm|]. split; [lia|].
  unfold days_from_civil.
  assert (Hy : (if m <=? 2 then (if m <=? 2 then yoe + era * 400 + 1 else yoe + era * 400) - 1
               else (if m <=? 2 then yoe + era * 400 + 1 else yoe + era * 400)) = yoe + era * 400)
    by (destruct (m <=? 2); lia).
  rewrite Hy; clear Hy.
  assert (Hera : (yoe + era * 400) / 400 = era) by (Z.div_mod_to_equations; lia).
  rewrite Hera.
  replace (yoe + era * 400 - era * 400) with yoe by lia.
  assert (Hmp : (if 2 <? m then m - 3 else m + 9) = mp)
    by (subst m; destruct (Z.ltb_spec mp 10); destruct (Z.ltb_spec 2 (mp + 3)); destruct (Z.ltb_spec 2 (mp - 9)); lia).
  rewrite Hmp.
  assert (Hdoy : (153 * mp + 2) / 5 + d - 1 = doy) by (subst d; lia).
  rewrite Hdoy. subst doy. lia.
Qed.

(** ** Strings *)

Lemma string_length_app (s1 s2 : string) :
  String.length (s1 ++ s2) = (String.length s1 + String.length s2)%nat.
Proof. induction s1; simpl; congruence. Qed.

Lemma substring_app_prefix (s1 s2 : string) :
  String.substring 0 (String.length s1) (s1 ++ s2) = s1.
Proof. induction s1; simpl; [destruct s2; reflexivity | congruence]. Qed.

Lemma substring_app_shift (s1 s2 : string) (k len : nat) :
  String.substring (String.length s1 + k) len (s1 ++ s2) = String.substring k len s2.
Proof. induction s1; simpl; auto. Qed.

Lemma get_app_shift (s1 s2 : string) (k : nat) :
  String.get (String.length s1 + k) (s1 ++ s2) = String.get k s2.
Proof. induction s1; simpl; auto. Qed.

Lemma ends_with_char_app (s1 s2 : string) (c : ascii) :
  s2 <> EmptyString -> ends_with_char (s1 ++ s2) c = ends_with_char s2 c.
Proof.
  intros Hne. unfold ends_with_char. rewrite string_length_app.
  destruct s2 as [|x s2']; [congruence|]. simpl String.length.
  replace (String.length s1 + S (String.length s2') - 1)%nat
    with (String.length s1 + (S (String.length s2') - 1))%nat by lia.
  rewrite get_app_shift.
  destruct (String.get (S (String.length s2') - 1) (String x s2')); [|reflexivity].
  rewrite !(proj2 (Nat.ltb_lt _ _)) by lia. reflexivity.
Qed.

Lemma ascii_eqb_sym (a b : ascii) : Ascii.eqb a b = Ascii.eqb b a.
Proof. destruct (Ascii.eqb_spec a b), (Ascii.eqb_spec b a); congruence. Qed.

(** ** Calendar arithmetic *)

Lemma days_from_civil_day (y m d : Z) :
  days_from_civil y m 1 + d - 1 = days_from_civil y m d.
Proof. unfold days_from_civil. lia. Qed.

Lemma year_ok_all : forall y, 1000 <= y <= 9999 -> year_ok y = true.
Proof.
  intros y Hy. apply (all_in_range_spec year_ok (Z.to_nat 9000) 1000); [vm_compute; reflexivity | lia].
Qed.

Lemma two_digit_ok_all : forall k, 0 <= k <= 99 -> two_digit_ok k = true.
Proof.
  intros k Hk. apply (all_in_range_spec two_digit_ok 100 0); [vm_compute; reflexivity | lia].
Qed.
Lemma substring_app_exact (s1 s2 : string) (n : nat) :
  String.length s1 = n -> String.substring 0 n (s1 ++ s2) = s1.
Proof. intros <-. apply substring_app_prefix. Qed.

Lemma substring_app_skip (s1 s2 : string) (k len : nat) :
  (String.length s1 <= k)%nat ->
  String.substring k len (s1 ++ s2) = String.substring (k - String.length s1) len s2.
Proof.
  intros Hk. replace k with (String.length s1 + (k - String.length s1))%nat at 1 by lia.
  apply substring_app_shift.
Qed.

Lemma year_facts (y : Z) : 1000 <= y <= 9999 ->
  String.length (Z_to_radix 10 y) = 4%nat /\ parseInt (Z_to_radix 10 y) = Some y /\
  ToNumber (Z_to_radix 10 y) = Some y /\
  (exists c s, Z_to_radix 10 y = String c s /\ Ascii.eqb c "T" = false) /\
  blank (Z_to_radix 10 y) = false.
Proof.
  intros Hy. pose proof (year_ok_all y Hy) as H. unfold year_ok in H.
  destruct (Z_to_radix 10 y) as [|c s] eqn:E; [discriminate|].
  repeat rewrite andb_true_iff in H. destruct H as [[[[H1 H2] H3] H4] H5].
  apply Nat.eqb_eq in H1. apply negb_true_iff in H4. apply negb_true_iff in H5.
  destruct (parseInt (String c s)) as [v|]; [|discriminate]. apply Z.eqb_eq in H2.
  destruct (ToNumber (String c s)) as [w|]; [|discriminate]. apply Z.eqb_eq in H3.
  subst. repeat split; auto. exists c, s. auto.
Qed.

Lemma two_digit_facts (k : Z) : 0 <= k <= 99 ->
  String.length (padStart2 (Z_to_radix 10 k)) = 2%nat /\
  parseInt (padStart2 (Z_to_radix 10 k)) = Some k /\
  ToNumber (padStart2 (Z_to_radix 10 k)) = Some k /\
  ends_with_char (padStart2 (Z_to_radix 10 k)) "Z" = false.
Proof.
  intros Hk. pose proof (two_digit_ok_all k Hk) as H. unfold two_digit_ok in H.
  repeat rewrite andb_true_iff in H. destruct H as [[[H1 H2] H3] H4].
  apply Nat.eqb_eq in H1. apply negb_true_iff in H4.
  destruct (parseInt (padStart2 (Z_to_radix 10 k))) as [v|]; [|discriminate]. apply Z.eqb_eq in H2.
  destruct (ToNumber (padStart2 (Z_to_radix 10 k))) as [w|]; [|discriminate]. apply Z.eqb_eq in H3.
  subst. auto.
Qed.

Lemma substring_full (s : string) : String.substring 0 (String.length s) s = s.
Proof. induction s; simpl; congruence. Qed.

Lemma nonempty_of_length (s : string) : String.length s <> 0%nat -> s <> EmptyString.
Proof. intros H E; subst; apply H; reflexivity. Qed.

(** ** Time zones *)

Lemma offset_from_in (o : Z) (trs : list (Z * Z)) (t : Z) :
  In (offset_from o trs t) (o :: map snd trs).
Proof.
  revert o. induction trs as [|[a o'] trs IH]; intros o; simpl; [left; reflexivity|].
  destruct (a <=? t); [|left; reflexivity].
  right. destruct (IH o') as [E|E]; [left; exact E|right; exact E].
Qed.

Lemma offset_at_in (z : time_zone) (t : Z) : In (offset_at z t) (zone_offsets z).
Proof. apply offset_from_in. Qed.

Lemma possible_offsets_spec (z : time_zone) (tl o : Z) :
  In o (possible_offsets z tl) <-> In o (zone_offsets z) /\ offset_at z (tl - o) = o.
Proof. unfold possible_offsets. rewrite filter_In, Z.eqb_eq. tauto. Qed.

Lemma fold_max_ge (l : list Z) : forall m, m <= fold_left Z.max l m /\ Forall (fun x => x <= fold_left Z.max l m) l.
Proof.
  induction l as [|x l IH]; intros m; simpl; [split; [lia|constructor]|].
  destruct (IH (Z.max m x)) as [H1 H2]. split; [lia|]. constructor; [lia|exact H2].
Qed.

Lemma fold_max_in (l : list Z) : forall m, fold_left Z.max l m = m \/ In (fold_left Z.max l m) l.
Proof.
  induction l as [|x l IH]; intros m; simpl; [left; reflexivity|].
  destruct (IH (Z.max m x)) as [E|E]; rewrite ?E.
  - destruct (Z.max_spec m x) as [[_ ->]|[_ ->]]; [right; left; reflexivity|left; reflexivity].
  - right; right; exact E.
Qed.

Lemma fold_min_in (l : list Z) : forall m, fold_left Z.min l m = m \/ In (fold_left Z.min l m) l.
Proof.
  induction l as [|x l IH]; intros m; simpl; [left; reflexivity|].
  destruct (IH (Z.min m x)) as [E|E]; rewrite ?E.
  - destruct (Z.min_spec m x) as [[_ ->]|[_ ->]]; [left; reflexivity|right; left; reflexivity].
  - right; right; exact E.
Qed.

Lemma UTC_first_shown (z : time_zone) (t : Z) :
  first_shown z t -> UTC z (LocalTime z t) = t.
Proof.
  intros Hf. unfold UTC.
  assert (Hin : In (offset_at z t) (possible_offsets z (LocalTime z t))).
  { apply possible_offsets_spec. split; [apply offset_at_in|]. unfold LocalTime.
    replace (t + offset_at z t - offset_at z t) with t by lia. reflexivity. }
  destruct (possible_offsets z (LocalTime z t)) as [|o os] eqn:E; [contradiction|].
  set (m := fold_left Z.max os o).
  assert (Hm : In m (o :: os)).
  { destruct (fold_max_in os o) as [Hx|Hx]; fold m in Hx; [rewrite Hx; left; reflexivity|right; exact Hx]. }
  assert (Hge : offset_at z t <= m).
  { destruct (fold_max_ge os o) as [H1 H2]. fold m in H1, H2.
    destruct Hin as [<-|Hin]; [exact H1|]. rewrite Forall_forall in H2. apply H2, Hin. }
  rewrite <- E in Hm. apply possible_offsets_spec in Hm as [_ Hm].
  destruct (Z.eq_dec m (offset_at z t)) as [->|Hne]; [unfold LocalTime; lia|].
  exfalso. apply (Hf (LocalTime z t - m)); [unfold LocalTime; lia|].
  unfold LocalTime at 1. rewrite Hm. lia.
Qed.

Lemma UTC_offset (z : time_zone) (tl : Z) : exists o, In o (zone_offsets z) /\ UTC z tl = tl - o.
Proof.
  unfold UTC.
  destruct (possible_offsets z tl) as [|o os] eqn:E.
  - destruct (possible_offsets z (latest_local_before z tl)) as [|o os] eqn:E2.
    + exists (z_initial z). split; [left; reflexivity|reflexivity].
    + exists (fold_left Z.min os o). split; [|reflexivity].
      assert (Hm : In (fold_left Z.min os o) (o :: os)).
      { destruct (fold_min_in os o) as [Hx|Hx]; [rewrite Hx; left; reflexivity|right; exact Hx]. }
      rewrite <- E2 in Hm. apply possible_offsets_spec in Hm. tauto.
  - exists (fold_left Z.max os o). split; [|reflexivity].
    assert (Hm : In (fold_left Z.max os o) (o :: os)).
    { destruct (fold_max_in os o) as [Hx|Hx]; [rewrite Hx; left; reflexivity|right; exact Hx]. }
    rewrite <- E in Hm. apply possible_offsets_spec in Hm. tauto.
Qed.

Lemma first_shown_of_offsets (z : time_zone) (t : Z) :
  forallb (fun o => o <=? offset_at z t) (possible_offsets z (LocalTime z t)) = true ->
  first_shown z t.
Proof.
  intros Hb t2 Hlt Heq. rewrite forallb_forall in Hb.
  assert (Hin : In (offset_at z t2) (possible_offsets z (LocalTime z t))).
  { apply possible_offsets_spec. split; [apply offset_at_in|].
    rewrite <- Heq. unfold LocalTime. replace (t2 + offset_at z t2 - offset_at z t2) with t2 by lia.
    reflexivity. }
  specialize (Hb _ Hin). apply Z.leb_le in Hb. unfold LocalTime in Heq. lia.
Qed.

Lemma offset_from_second (o : Z) (trs : list (Z * Z)) (t : Z) :
  Forall (fun tr => fst tr mod 1000 = 0) trs ->
  offset_from o trs (t - t mod 1000) = offset_from o trs t.
Proof.
  revert o. induction trs as [|[a o'] trs IH]; intros o Hw; simpl; [reflexivity|].
  inversion Hw as [|? ? Ha Hw']; subst. simpl in Ha.
  assert (E : (a <=? t - t mod 1000) = (a <=? t)).
  { pose proof (Z.mod_pos_bound t 1000).
    destruct (Z.leb_spec a (t - t mod 1000)), (Z.leb_spec a t); try reflexivity; [lia|].
    exfalso. Z.div_mod_to_equations. nia. }
  rewrite E. destruct (a <=? t); [apply IH; exact Hw'|reflexivity].
Qed.

Lemma offset_at_second (z : time_zone) (t : Z) :
  whole_seconds z -> offset_at z (t - t mod 1000) = offset_at z t.
Proof. intros [_ Hw]. apply offset_from_second, Hw. Qed.

Lemma offset_at_whole (z : time_zone) (t : Z) : whole_seconds z -> offset_at z t mod 1000 = 0.
Proof.
  intros [Ho _]. rewrite Forall_forall in Ho. apply Ho, offset_at_in.
Qed.

Lemma new_york_2024_whole_seconds : whole_seconds new_york_2024.
Proof. split; repeat constructor. Qed.

(** ** Dates written by [formatDate] and read back by [parseDate] *)

Section DateRoundTrip.

Variable tz : time_zone.

Lemma formatDate_fields (t : Z) :
  let l := LocalTime tz t in
  let '(y, m, d) := civil_from_days (l / msPerDay) in
  formatDate tz (DValid t) false =
    Z_to_radix 10 y ++ padStart2 (Z_to_radix 10 m) ++ padStart2 (Z_to_radix 10 d) ++ "T" ++
    padStart2 (Z_to_radix 10 ((l / 3600000) mod 24)) ++
    padStart2 (Z_to_radix 10 ((l / 60000) mod 60)) ++
    padStart2 (Z_to_radix 10 ((l / 1000) mod 60)).
Proof.
  intros l. destruct (civil_from_days (l / msPerDay)) as [[y m] d] eqn:Hc.
  unfold formatDate, getFullYear, getMonth, getDate, getHours, getMinutes, getSeconds, local_field.
  fold l. rewrite Hc. simpl option_map. unfold num_to_string. rewrite Z.sub_add. reflexivity.
Qed.

Lemma parseDate_formatDate_local (t y : Z) (property : string) :
  includes property "VALUE=DATE" = false ->
  getFullYear tz (DValid t) = Some y -> 1000 <= y <= 9999 ->
  parseDate tz (formatDate tz (DValid t) false) property =
    TimeClip (Some (UTC tz (LocalTime tz t - LocalTime tz t mod 1000))).
Proof.
  intros Hprop Hy Hyr.
  pose proof (formatDate_fields t) as Hf. cbv zeta in Hf.
  unfold getFullYear, local_field in Hy.
  pose proof (civil_from_days_spec (LocalTime tz t / msPerDay)) as Hc.
  destruct (civil_from_days (LocalTime tz t / msPerDay)) as [[y' m] d] eqn:Hcv.
  injection Hy as <-. destruct Hc as [Hm [Hd Hdays]].
  rewrite Hf. clear Hf.
  set (l := LocalTime tz t) in *.
  destruct (year_facts y' Hyr) as [HYl [HYp [_ [[c [s [HYs Hc]]] _]]]].
  assert (Hh : 0 <= (l / 3600000) mod 24 <= 99) by (pose proof (Z.mod_pos_bound (l / 3600000) 24); lia).
  assert (Hmi : 0 <= (l / 60000) mod 60 <= 99) by (pose proof (Z.mod_pos_bound (l / 60000) 60); lia).
  assert (Hse : 0 <= (l / 1000) mod 60 <= 99) by (pose proof (Z.mod_pos_bound (l / 1000) 60); lia).
  destruct (two_digit_facts m ltac:(lia)) as [HMl [HMp [_ _]]].
  destruct (two_digit_facts d ltac:(lia)) as [HDl [HDp [_ _]]].
  destruct (two_digit_facts _ Hh) as [HHl [HHp [_ _]]].
  destruct (two_digit_facts _ Hmi) as [HMil [HMip [_ _]]].
  destruct (two_digit_facts _ Hse) as [HSl [HSp [_ HSz]]].
  set (Ys := Z_to_radix 10 y') in *.
  set (Ms := padStart2 (Z_to_radix 10 m)) in *.
  set (Ds := padStart2 (Z_to_radix 10 d)) in *.
  set (Hs := padStart2 (Z_to_radix 10 ((l / 3600000) mod 24))) in *.
  set (Mis := padStart2 (Z_to_radix 10 ((l / 60000) mod 60))) in *.
  set (Ss := padStart2 (Z_to_radix 10 ((l / 1000) mod 60))) in *.
  set (str := Ys ++ Ms ++ Ds ++ "T" ++ Hs ++ Mis ++ Ss).
  assert (Hstrip : strip_tzid str = str).
  { unfold strip_tzid, str. rewrite HYs. cbn [String.append starts_with]. rewrite ascii_eqb_sym, Hc. reflexivity. }
  assert (Hlen : String.length str = 15%nat).
  { unfold str. rewrite !string_length_app. rewrite HYl, HMl, HDl, HHl, HMil, HSl. reflexivity. }
  assert (Hz : ends_with_char str "Z" = false).
  { unfold str. rewrite !ends_with_char_app; [exact HSz | ..];
    apply nonempty_of_length; rewrite ?string_length_app; simpl String.length; lia. }
  unfold parseDate. rewrite Hstrip, Hprop, Hlen. simpl orb. cbv iota.
  rewrite Hz. unfold js_substr, str.
  rewrite (substring_app_exact Ys _ 4 HYl).
  rewrite !(substring_app_skip Ys) by lia. rewrite HYl. simpl Nat.sub.
  rewrite (substring_app_exact Ms _ 2 HMl).
  rewrite !(substring_app_skip Ms) by lia. rewrite HMl. simpl Nat.sub.
  rewrite (substring_app_exact Ds _ 2 HDl).
  rewrite !(substring_app_skip Ds) by lia. rewrite HDl. simpl Nat.sub.
  rewrite !(substring_app_skip "T") by (simpl; lia). simpl Nat.sub.
  rewrite (substring_app_exact Hs _ 2 HHl).
  rewrite !(substring_app_skip Hs) by lia. rewrite HHl. simpl Nat.sub.
  rewrite (substring_app_exact Mis _ 2 HMil).
  rewrite !(substring_app_skip Mis) by lia. rewrite HMil. simpl Nat.sub.
  replace (String.substring 0 2 Ss) with Ss by (rewrite <- HSl; symmetry; apply substring_full).
  rewrite HYp, HMp, HDp, HHp, HMip, HSp.
  unfold new_Date, full_year, minus1, or0, option_map, MakeDay, MakeTime, MakeDate.
  rewrite (proj2 (Z.leb_gt y' 99)) by lia. rewrite andb_false_r.
  rewrite (Z.div_small (m - 1) 12) by lia. rewrite (Z.mod_small (m - 1) 12) by lia.
  rewrite Z.add_0_r, Z.sub_add, days_from_civil_day, Hdays.
  assert (Hval : l / msPerDay * msPerDay +
                 ((l / 3600000) mod 24 * 3600000 + (l / 60000) mod 60 * 60000 + (l / 1000) mod 60 * 1000 + 0)
                 = l - l mod 1000)
    by (unfold msPerDay; Z.div_mod_to_equations; lia).
  rewrite Hval. reflexivity.
Qed.

Lemma parseDate_formatDate (t y : Z) (property : string) :
  includes property "VALUE=DATE" = false ->
  whole_seconds tz -> first_shown tz (t - t mod 1000) ->
  Z.abs t <= 8640000000000000 ->
  getFullYear tz (DValid t) = Some y -> 1000 <= y <= 9999 ->
  parseDate tz (formatDate tz (DValid t) false) property = DValid (t - t mod 1000).
Proof.
  intros Hprop Hw Hf Ht Hy Hyr.
  rewrite (parseDate_formatDate_local t y property Hprop Hy Hyr).
  assert (E : LocalTime tz t - LocalTime tz t mod 1000 = LocalTime tz (t - t mod 1000)).
  { unfold LocalTime. rewrite (offset_at_second tz t Hw).
    pose proof (offset_at_whole tz t Hw) as Ho.
    rewrite Z.add_mod, Ho, Z.add_0_r, Z.mod_mod by lia. lia. }
  rewrite E, (UTC_first_shown tz _ Hf). unfold TimeClip.
  rewrite (proj2 (Z.leb_le _ _)); [reflexivity|].
  pose proof (Z.mod_pos_bound t 1000). Z.div_mod_to_equations. lia.
Qed.
End DateRoundTrip.

(** ** Escaping *)

Lemma ascii_eqb_false (a b : ascii) : a <> b -> Ascii.eqb a b = false.
Proof. intros H. destruct (Ascii.eqb_spec a b); congruence. Qed.

Lemma string_app_assoc (s1 s2 s3 : string) : (s1 ++ s2) ++ s3 = s1 ++ (s2 ++ s3).
Proof. induction s1; simpl; congruence. Qed.

Lemma replace1_app (c : ascii) (r s1 s2 : string) :
  replace1 c r (s1 ++ s2) = replace1 c r s1 ++ replace1 c r s2.
Proof.
  induction s1 as [|x s1 IH]; simpl; [reflexivity|].
  destruct (Ascii.eqb x c); rewrite IH; [symmetry; apply string_app_assoc|reflexivity].
Qed.

Lemma escapeText_esc (t : string) : escapeText t = esc_k 0 t.
Proof.
  destruct t as [|x0 t0]; [reflexivity|]. unfold escapeText.
  generalize (String x0 t0) as t. clear x0 t0.
  induction t as [|x t IH]; [reflexivity|].
  change (String x t) with (ch x ++ t). rewrite !replace1_app. rewrite IH. simpl esc_k.
  f_equal. unfold esc_char, ch.
  destruct (Ascii.eqb_spec x BS) as [->|n1]; [reflexivity|].
  destruct (Ascii.eqb_spec x ";"%char) as [->|n2]; [reflexivity|].
  destruct (Ascii.eqb_spec x ","%char) as [->|n3]; [reflexivity|].
  destruct (Ascii.eqb_spec x LF) as [->|n4]; [reflexivity|].
  cbn [replace1]. rewrite (ascii_eqb_false x BS n1).
  cbn [replace1]. rewrite (ascii_eqb_false x ";" n2).
  cbn [replace1]. rewrite (ascii_eqb_false x "," n3).
  cbn [replace1]. rewrite (ascii_eqb_false x LF n4). reflexivity.
Qed.

Lemma replace2_plain (a b x : ascii) (r s : string) :
  x <> a -> replace2 a b r (String x s) = String x (replace2 a b r s).
Proof.
  intros H. destruct s as [|y s]; [reflexivity|].
  cbn [replace2]. rewrite (ascii_eqb_false x a H). reflexivity.
Qed.

Lemma replace2_hit (a b : ascii) (r s : string) :
  replace2 a b r (String a (String b s)) = r ++ replace2 a b r s.
Proof. cbn [replace2]. rewrite !Ascii.eqb_refl. reflexivity. Qed.

Lemma replace2_miss (a b : ascii) (r s : string) :
  (forall c s', s = String c s' -> c <> b) ->
  replace2 a b r (String a s) = String a (replace2 a b r s).
Proof.
  intros H. destruct s as [|y s]; [reflexivity|].
  cbn [replace2]. rewrite Ascii.eqb_refl, (ascii_eqb_false y b (H _ _ eq_refl)). reflexivity.
Qed.

Lemma esc_first (k : nat) (c c0 : ascii) (s s0 : string) :
  esc_k k (String c s) = String c0 s0 ->
  c0 = BS \/ (c0 = c /\ (c = ";"%char -> 3 <= k)%nat /\ (c = ","%char -> 2 <= k)%nat /\
              (c = LF -> 1 <= k)%nat).
Proof.
  cbn [esc_k]. unfold esc_char.
  destruct (Ascii.eqb_spec c BS) as [->|n1]; [intros E; injection E; auto|].
  destruct (Ascii.eqb_spec c ";"%char) as [->|n2];
    [destruct (Nat.ltb_spec k 3); intros E; injection E as <- _; [left; reflexivity|right];
     repeat split; intros E; (discriminate E || lia) |].
  destruct (Ascii.eqb_spec c ","%char) as [->|n3];
    [destruct (Nat.ltb_spec k 2); intros E; injection E as <- _; [left; reflexivity|right];
     repeat split; intros E; (discriminate E || lia) |].
  destruct (Ascii.eqb_spec c LF) as [->|n4];
    [destruct (Nat.ltb_spec k 1); intros E; injection E as <- _; [left; reflexivity|right];
     repeat split; intros E; (discriminate E || lia) |].
  intros E; injection E as <- _. right. repeat split; intros; contradiction.
Qed.

Lemma includes_cons (x : ascii) (t p : string) :
  includes (String x t) p = starts_with p (String x t) || includes t p.
Proof. reflexivity. Qed.

Ltac esc_cases x :=
  unfold esc_char;
  destruct (Ascii.eqb_spec x BS) as [->|?];
  [| destruct (Ascii.eqb_spec x ";"%char) as [->|?];
  [| destruct (Ascii.eqb_spec x ","%char) as [->|?];
  [| destruct (Ascii.eqb_spec x LF) as [->|?]]]].

Lemma unescape_step1 (t : string) :
  includes t (String BS "n") = false ->
  replace2 BS "n" (ch LF) (esc_k 0 t) = esc_k 1 t.
Proof.
  induction t as [|x t IH]; intros Ht; [reflexivity|].
  rewrite includes_cons in Ht. apply orb_false_iff in Ht as [Hs Ht].
  specialize (IH Ht). cbn [esc_k].
  esc_cases x; cbn [append ch Nat.ltb Nat.leb].
  - rewrite replace2_miss by (intros c s' E; injection E as <- _; discriminate).
    rewrite replace2_miss; [rewrite IH; reflexivity|].
    destruct t as [|y t']; [intros c s' E; discriminate E|].
    intros c s' E. apply esc_first in E.
    assert (y <> "n"%char).
    { intros ->. discriminate Hs. }
    destruct E as [->|[-> _]]; [discriminate|assumption].
  - rewrite replace2_miss by (intros c s' E; injection E as <- _; discriminate).
    rewrite replace2_plain by discriminate. rewrite IH. reflexivity.
  - rewrite replace2_miss by (intros c s' E; injection E as <- _; discriminate).
    rewrite replace2_plain by discriminate. rewrite IH. reflexivity.
  - rewrite replace2_hit. rewrite IH. reflexivity.
  - rewrite replace2_plain by assumption. rewrite IH. reflexivity.
Qed.

Lemma unescape_step2 (t : string) :
  replace2 BS "," (ch ",") (esc_k 1 t) = esc_k 2 t.
Proof.
  induction t as [|x t IH]; [reflexivity|]. cbn [esc_k].
  esc_cases x; cbn [append ch Nat.ltb Nat.leb].
  - rewrite replace2_miss by (intros c s' E; injection E as <- _; discriminate).
    rewrite replace2_miss; [rewrite IH; reflexivity|].
    destruct t as [|y t']; [intros c s' E; discriminate E|].
    intros c s' E. apply esc_first in E.
    destruct E as [->|[-> [_ [H2 _]]]]; [discriminate|].
    intros E. specialize (H2 E). lia.
  - rewrite replace2_miss by (intros c s' E; injection E as <- _; discriminate).
    rewrite replace2_plain by discriminate. rewrite IH. reflexivity.
  - rewrite replace2_hit. rewrite IH. reflexivity.
  - rewrite replace2_plain by discriminate. rewrite IH. reflexivity.
  - rewrite replace2_plain by assumption. rewrite IH. reflexivity.
Qed.

Lemma unescape_step3 (t : string) :
  replace2 BS ";" (ch ";") (esc_k 2 t) = esc_k 3 t.
Proof.
  induction t as [|x t IH]; [reflexivity|]. cbn [esc_k].
  esc_cases x; cbn [append ch Nat.ltb Nat.leb].
  - rewrite replace2_miss by (intros c s' E; injection E as <- _; discriminate).
    rewrite replace2_miss; [rewrite IH; reflexivity|].
    destruct t as [|y t']; [intros c s' E; discriminate E|].
    intros c s' E. apply esc_first in E.
    destruct E as [->|[-> [H3 _]]]; [discriminate|].
    intros E. specialize (H3 E). lia.
  - rewrite replace2_hit. rewrite IH. reflexivity.
  - rewrite replace2_plain by discriminate. rewrite IH. reflexivity.
  - rewrite replace2_plain by discriminate. rewrite IH. reflexivity.
  - rewrite replace2_plain by assumption. rewrite IH. reflexivity.
Qed.

Lemma unescape_step4 (t : string) :
  replace2 BS BS (ch BS) (esc_k 3 t) = t.
Proof.
  induction t as [|x t IH]; [reflexivity|]. cbn [esc_k].
  esc_cases x; cbn [append ch Nat.ltb Nat.leb].
  - rewrite replace2_hit. rewrite IH. reflexivity.
  - rewrite replace2_plain by discriminate. rewrite IH. reflexivity.
  - rewrite replace2_plain by discriminate. rewrite IH. reflexivity.
  - rewrite replace2_plain by discriminate. rewrite IH. reflexivity.
  - rewrite replace2_plain by assumption. rewrite IH. reflexivity.
Qed.

Lemma unescapeText_escapeText (t : string) :
  includes t (String BS "n") = false -> unescapeText (escapeText t) = t.
Proof.
  intros Ht. rewrite escapeText_esc.
  destruct t as [|x t0]; [reflexivity|].
  assert (Hne : esc_k 0 (String x t0) <> EmptyString).
  { cbn [esc_k]. unfold esc_char.
    destruct (Ascii.eqb x BS), (Ascii.eqb x ";"), (Ascii.eqb x ","), (Ascii.eqb x LF),
      (0 <? 3)%nat, (0 <? 2)%nat, (0 <? 1)%nat; discriminate. }
  unfold unescapeText.
  destruct (esc_k 0 (String x t0)) as [|c r] eqn:E; [contradiction|].
  rewrite <- E.
  rewrite (unescape_step1 _ Ht), unescape_step2, unescape_step3, unescape_step4.
  reflexivity.
Qed.

(** ** Folding and unfolding *)

Lemma no_lf_cons (x : ascii) (s : string) : no_lf (String x s) -> x <> LF /\ no_lf s.
Proof.
  unfold no_lf; cbn [index_of_nat]. destruct (Ascii.eqb_spec x LF); [discriminate|].
  destruct (index_of_nat LF s); [discriminate|]. auto.
Qed.

Lemma no_lf_cons_intro (x : ascii) (s : string) : x <> LF -> no_lf s -> no_lf (String x s).
Proof.
  unfold no_lf; cbn [index_of_nat]. intros Hx Hs. rewrite (ascii_eqb_false x LF Hx), Hs. reflexivity.
Qed.

Lemma no_lf_app (s1 s2 : string) : no_lf (s1 ++ s2) <-> no_lf s1 /\ no_lf s2.
Proof.
  induction s1 as [|x s1 IH]; simpl.
  - split; [intros H; split; [reflexivity|exact H] | tauto].
  - split.
    + intros H. apply no_lf_cons in H as [Hx H]. apply IH in H as [H1 H2].
      split; [apply no_lf_cons_intro|]; auto.
    + intros [H1 H2]. apply no_lf_cons in H1 as [Hx H1].
      apply no_lf_cons_intro; [exact Hx|]. apply IH; auto.
Qed.

Lemma string_app_nil (s : string) : s ++ EmptyString = s.
Proof. induction s; simpl; congruence. Qed.

Lemma replace3_plain (a b c x : ascii) (r s : string) :
  x <> a -> replace3 a b c r (String x s) = String x (replace3 a b c r s).
Proof.
  intros H. destruct s as [|y [|z s]]; try reflexivity.
  cbn [replace3]. rewrite (ascii_eqb_false x a H). reflexivity.
Qed.

Lemma replace3_app (r s1 s2 : string) :
  no_lf s1 -> not_lf_start s2 ->
  replace3 CR LF " " r (s1 ++ s2) = s1 ++ replace3 CR LF " " r s2.
Proof.
  intros H1 H2. induction s1 as [|x s1 IH]; [reflexivity|].
  apply no_lf_cons in H1 as [Hx H1]. specialize (IH H1).
  cbn [append].
  assert (Hy : forall y t, s1 ++ s2 = String y t -> y <> LF).
  { intros y t E. destruct s1 as [|y' s1'].
    - simpl in E. subst s2. intros ->. apply (H2 t). reflexivity.
    - simpl in E. injection E as <- _. apply no_lf_cons in H1 as [Hy' _]. exact Hy'. }
  destruct (s1 ++ s2) as [|y [|z t]] eqn:E.
  - rewrite <- IH. reflexivity.
  - rewrite <- IH. reflexivity.
  - cbn [replace3]. rewrite (ascii_eqb_false y LF (Hy _ _ eq_refl)), andb_false_r, andb_false_l.
    rewrite <- IH. reflexivity.
Qed.

Lemma replace3_no_lf (r s : string) : no_lf s -> replace3 CR LF " " r s = s.
Proof.
  intros H. rewrite <- (string_app_nil s) at 1. rewrite replace3_app; auto.
  - apply string_app_nil.
  - intros s' E; discriminate E.
Qed.

Lemma replace3_hit (r s : string) :
  replace3 CR LF " " r (String CR (String LF (String " " s))) = r ++ replace3 CR LF " " r s.
Proof. reflexivity. Qed.

Lemma replace3_sep (r s : string) (x : ascii) : x <> " "%char ->
  replace3 CR LF " " r (String CR (String LF (String x s))) =
  String CR (String LF (replace3 CR LF " " r (String x s))).
Proof.
  intros Hx.
  change (replace3 CR LF " " r (String CR (String LF (String x s)))) with
    (if Ascii.eqb CR CR && Ascii.eqb LF LF && Ascii.eqb x " " then r ++ replace3 CR LF " " r s
     else String CR (replace3 CR LF " " r (String LF (String x s)))).
  rewrite (ascii_eqb_false x " " Hx), andb_false_r.
  rewrite (replace3_plain CR LF " " LF) by discriminate. reflexivity.
Qed.

Lemma substring_split (n : nat) (s : string) :
  let c := String.substring 0 n s in
  c ++ String.substring (String.length c) (String.length s - String.length c) s = s.
Proof.
  revert n. induction s as [|x s IH]; intros n; cbv zeta.
  - destruct n; reflexivity.
  - destruct n as [|n].
    + change (String.substring 0 (String.length (String x s) - 0) (String x s) = String x s).
      rewrite Nat.sub_0_r. apply substring_full.
    + cbn [String.substring String.length append]. f_equal.
      specialize (IH n). cbv zeta in IH. simpl Nat.sub. exact IH.
Qed.

Lemma substring_length (n : nat) (s : string) :
  String.length (String.substring 0 n s) = Nat.min n (String.length s).
Proof.
  revert n. induction s as [|x s IH]; intros n; destruct n; simpl; auto.
Qed.

Lemma substring_length_le (m n : nat) (s : string) :
  (String.length (String.substring m n s) <= n)%nat.
Proof.
  revert m n. induction s as [|x s IH]; intros m n; destruct m, n; simpl; auto; try lia.
  specialize (IH 0%nat n). lia.
Qed.

Lemma substring_no_lf (m n : nat) (s : string) : no_lf s -> no_lf (String.substring m n s).
Proof.
  revert m n. induction s as [|x s IH]; intros m n H.
  - destruct m, n; reflexivity.
  - apply no_lf_cons in H as [Hx H]. destruct m as [|m].
    + destruct n as [|n]; [reflexivity|]. simpl. apply no_lf_cons_intro; auto.
    + simpl. auto.
Qed.

Lemma join_fold_tail (x : string) (l : list string) (T : string) :
  join CRLF (x :: l) ++ T = x ++ fold_tail T l.
Proof.
  revert x. induction l as [|y l IH]; intros x; [reflexivity|].
  change (join CRLF (x :: y :: l)) with (x ++ CRLF ++ join CRLF (y :: l)).
  rewrite !string_app_assoc, IH. reflexivity.
Qed.

Lemma fold_tail_start (T : string) (l : list string) :
  not_lf_start T -> not_lf_start (fold_tail T l).
Proof. destruct l; simpl; [auto|]. intros _ s' E; discriminate E. Qed.

Lemma fold_chunks_unfold (f : nat) (rem T : string) :
  (String.length rem <= f)%nat -> no_lf rem -> not_lf_start T ->
  replace3 CR LF " " EmptyString (fold_tail T (fold_chunks f rem)) =
  rem ++ replace3 CR LF " " EmptyString T.
Proof.
  revert rem. induction f as [|f IH]; intros rem Hlen Hrem HT.
  - destruct rem; [reflexivity|simpl in Hlen; lia].
  - destruct rem as [|x r]; [reflexivity|].
    cbn [fold_chunks]. set (rem := String x r) in *.
    set (chunk := String.substring 0 (maxLineLength - 1) rem).
    set (next := String.substring (String.length chunk) (String.length rem - String.length chunk) rem).
    cbn [fold_tail fold_right]. unfold fold_tail in IH.
    change (CRLF ++ (" " ++ chunk) ++ fold_right (fun c acc => CRLF ++ c ++ acc) T (fold_chunks f next))
      with (String CR (String LF (String " " (chunk ++ fold_right (fun c acc => CRLF ++ c ++ acc) T (fold_chunks f next))))).
    rewrite replace3_hit. change (EmptyString ++ ?X) with X.
    assert (Hc : no_lf chunk) by (apply substring_no_lf; exact Hrem).
    rewrite replace3_app; [|exact Hc|apply fold_tail_start; exact HT].
    assert (Hcl : String.length chunk = Nat.min (maxLineLength - 1) (String.length rem))
      by apply substring_length.
    rewrite IH.
    + rewrite <- string_app_assoc. f_equal. apply substring_split.
    + eapply Nat.le_trans; [apply substring_length_le|]. rewrite Hcl.
      unfold maxLineLength, rem in *. simpl String.length in *. lia.
    + apply substring_no_lf. exact Hrem.
    + exact HT.
Qed.

Lemma fold_line_unfold (L T : string) :
  no_lf L -> not_lf_start T ->
  replace3 CR LF " " EmptyString (fold_line L ++ T) = L ++ replace3 CR LF " " EmptyString T.
Proof.
  intros HL HT. unfold fold_line.
  destruct (Nat.leb_spec (String.length L) maxLineLength) as [Hs|Hl].
  - apply replace3_app; auto.
  - rewrite join_fold_tail.
    set (first := String.substring 0 maxLineLength L).
    set (remaining := String.substring maxLineLength (String.length L - maxLineLength) L).
    rewrite replace3_app; [| apply substring_no_lf; exact HL | apply fold_tail_start; exact HT].
    rewrite fold_chunks_unfold; [| lia | apply substring_no_lf; exact HL | exact HT].
    rewrite <- string_app_assoc. f_equal.
    pose proof (substring_split maxLineLength L) as Hsp. cbv zeta in Hsp.
    rewrite substring_length in Hsp. rewrite Nat.min_l in Hsp by lia. exact Hsp.
Qed.

Lemma fold_line_first (c : ascii) (s : string) :
  exists s', fold_line (String c s) = String c s'.
Proof.
  unfold fold_line.
  destruct (String.length (String c s) <=? maxLineLength)%nat; [eauto|].
  destruct (fold_chunks _ _) as [|y l].
  - simpl. eauto.
  - change (join CRLF (?a :: ?b :: ?l)) with (a ++ CRLF ++ join CRLF (b :: l)). simpl. eauto.
Qed.

Lemma join_first (l : string) (ls : list string) (c : ascii) (s : string) :
  l = String c s -> exists s', join CRLF (map fold_line (l :: ls)) = String c s'.
Proof.
  intros ->. destruct (fold_line_first c s) as [s' E].
  destruct ls as [|l2 ls]; simpl map.
  - rewrite E. exists s'. reflexivity.
  - change (join CRLF (?a :: ?b :: ?l)) with (a ++ CRLF ++ join CRLF (b :: l)). rewrite E.
    eexists. reflexivity.
Qed.

Lemma replace3_join (ls : list string) (l : string) :
  Forall line_ok (l :: ls) ->
  replace3 CR LF " " EmptyString (join CRLF (map fold_line (l :: ls))) = join CRLF (l :: ls).
Proof.
  revert l. induction ls as [|l2 ls IH]; intros l Hall.
  - inversion Hall as [|? ? [Hl _] _]; subst. simpl map. cbn [join].
    rewrite <- (string_app_nil (fold_line l)). rewrite fold_line_unfold; auto.
    + apply string_app_nil.
    + intros s' E; discriminate E.
  - inversion Hall as [|? ? [Hl _] Hrest]; subst.
    simpl map. change (join CRLF (?a :: ?b :: ?l)) with (a ++ CRLF ++ join CRLF (b :: l)).
    rewrite fold_line_unfold; [| exact Hl | intros s' E; discriminate E].
    f_equal.
    inversion Hrest as [|? ? [_ Hc2] _]; subst.
    destruct l2 as [|c2 s2]; [contradiction|].
    destruct (join_first (String c2 s2) ls c2 s2 eq_refl) as [s' E].
    change (map fold_line (String c2 s2 :: ls)) with (fold_line (String c2 s2) :: map fold_line ls) in E.
    rewrite E. change (CRLF ++ String c2 s') with (String CR (String LF (String c2 s'))).
    rewrite replace3_sep by exact Hc2. rewrite <- E.
    change (fold_line (String c2 s2) :: map fold_line ls) with (map fold_line (String c2 s2 :: ls)).
    rewrite IH by exact Hrest. reflexivity.
Qed.

Lemma replace2_app_lf (r s1 s2 : string) :
  no_lf s1 -> replace2 LF " " r (s1 ++ s2) = s1 ++ replace2 LF " " r s2.
Proof.
  induction s1 as [|x s1 IH]; intros H; [reflexivity|].
  apply no_lf_cons in H as [Hx H]. cbn [append].
  rewrite replace2_plain by exact Hx. rewrite IH by exact H. reflexivity.
Qed.

Lemma replace2_join (ls : list string) (l : string) :
  Forall line_ok (l :: ls) -> replace2 LF " " EmptyString (join CRLF (l :: ls)) = join CRLF (l :: ls).
Proof.
  revert l. induction ls as [|l2 ls IH]; intros l Hall.
  - inversion Hall as [|? ? [Hl _] _]; subst. cbn [join].
    rewrite <- (string_app_nil l) at 1. rewrite replace2_app_lf by exact Hl.
    rewrite string_app_nil. reflexivity.
  - inversion Hall as [|? ? [Hl _] Hrest]; subst.
    change (join CRLF (?a :: ?b :: ?l)) with (a ++ CRLF ++ join CRLF (b :: l)).
    rewrite replace2_app_lf by exact Hl. f_equal.
    inversion Hrest as [|? ? [_ Hc2] _]; subst.
    destruct l2 as [|c2 s2]; [contradiction|].
    change (CRLF ++ join CRLF (String c2 s2 :: ls)) with
      (String CR (String LF (join CRLF (String c2 s2 :: ls)))).
    rewrite replace2_plain by discriminate.
    destruct ls as [|l3 ls].
    + cbn [join]. rewrite replace2_miss by (intros c s' E; injection E as <- _; exact Hc2).
      specialize (IH _ Hrest). cbn [join] in IH. rewrite IH. reflexivity.
    + change (join CRLF (?a :: ?b :: ?l)) with (a ++ CRLF ++ join CRLF (b :: l)).
      cbn [append]. rewrite replace2_miss by (intros c s' E; injection E as <- _; exact Hc2).
      specialize (IH _ Hrest).
      change (join CRLF (?a :: ?b :: ?l)) with (a ++ CRLF ++ join CRLF (b :: l)) in IH.
      cbn [append] in IH. rewrite IH. reflexivity.
Qed.

Lemma split_lines_acc_sep (cur l rest : string) :
  no_lf l -> split_lines_acc cur (l ++ CRLF ++ rest) = (cur ++ l) :: split_lines_acc EmptyString rest.
Proof.
  revert cur. induction l as [|x l IH]; intros cur H.
  - rewrite string_app_nil. reflexivity.
  - apply no_lf_cons in H as [Hx H].
    assert (Hd : forall d t, l ++ CRLF ++ rest = String d t -> d <> LF).
    { intros d t E. destruct l as [|y l'].
      - injection E as <- _. discriminate.
      - injection E as <- _. apply no_lf_cons in H as [Hy _]. exact Hy. }
    cbn [append]. cbn [split_lines_acc].
    destruct (l ++ CRLF ++ rest) as [|d t] eqn:E.
    + destruct l; discriminate E.
    + rewrite (ascii_eqb_false d LF (Hd _ _ eq_refl)), andb_false_r, (ascii_eqb_false x LF Hx).
      rewrite IH by exact H. rewrite string_app_assoc. reflexivity.
Qed.

Lemma split_lines_acc_last (cur l : string) :
  no_lf l -> split_lines_acc cur l = [cur ++ l].
Proof.
  revert cur. induction l as [|x l IH]; intros cur H.
  - rewrite string_app_nil. reflexivity.
  - apply no_lf_cons in H as [Hx H]. cbn [split_lines_acc].
    destruct l as [|d t].
    + rewrite (ascii_eqb_false x LF Hx). reflexivity.
    + apply no_lf_cons in H as [Hd H'].
      rewrite (ascii_eqb_false d LF Hd), andb_false_r, (ascii_eqb_false x LF Hx).
      rewrite IH by (apply no_lf_cons_intro; assumption). rewrite string_app_assoc. reflexivity.
Qed.

Lemma split_lines_join (ls : list string) (l : string) :
  Forall no_lf (l :: ls) -> split_lines (join CRLF (l :: ls)) = l :: ls.
Proof.
  unfold split_lines. revert l. induction ls as [|l2 ls IH]; intros l Hall.
  - inversion Hall; subst. cbn [join]. rewrite split_lines_acc_last by assumption. reflexivity.
  - inversion Hall as [|? ? Hl Hrest]; subst.
    change (join CRLF (?a :: ?b :: ?l)) with (a ++ CRLF ++ join CRLF (b :: l)).
    rewrite split_lines_acc_sep by exact Hl. rewrite IH by exact Hrest. reflexivity.
Qed.

Lemma unfoldLines_foldLines (ls : list string) (l : string) :
  Forall line_ok (l :: ls) ->
  unfoldLines (join CRLF (foldLines (l :: ls))) = l :: ls.
Proof.
  intros Hall. unfold unfoldLines, foldLines.
  rewrite replace3_join by exact Hall. rewrite replace2_join by exact Hall.
  apply split_lines_join. eapply Forall_impl; [|exact Hall]. intros x [H _]. exact H.
Qed.

(** ** Lines of the document *)

Lemma index_of_nat_app (c : ascii) (s1 s2 : string) :
  index_of_nat c s1 = None ->
  index_of_nat c (s1 ++ s2) = option_map (Nat.add (String.length s1)) (index_of_nat c s2).
Proof.
  induction s1 as [|x s1 IH]; intros H; simpl.
  - destruct (index_of_nat c s2); reflexivity.
  - simpl in H. destruct (Ascii.eqb x c); [discriminate|].
    destruct (index_of_nat c s1); [discriminate|]. rewrite IH by reflexivity.
    destruct (index_of_nat c s2); reflexivity.
Qed.

Lemma js_substring_spec (s : string) (a b : Z) :
  0 <= a <= b -> b <= Z.of_nat (String.length s) ->
  js_substring s a b = String.substring (Z.to_nat a) (Z.to_nat (b - a)) s.
Proof.
  intros H1 H2. unfold js_substring.
  rewrite (Z.min_l a) by lia. rewrite (Z.max_r 0 a) by lia.
  rewrite (Z.min_l b) by lia. rewrite (Z.max_r 0 b) by lia.
  rewrite (Z.min_l a b) by lia. rewrite (Z.max_r a b) by lia. reflexivity.
Qed.

Lemma js_substring_prefix (P R : string) :
  js_substring (P ++ R) 0 (Z.of_nat (String.length P)) = P.
Proof.
  rewrite js_substring_spec by (rewrite ?string_length_app; lia).
  rewrite Z.sub_0_r, Nat2Z.id. apply substring_app_prefix.
Qed.

Lemma js_substring_from_suffix (P V : string) :
  js_substring_from (P ++ String ":" V) (Z.of_nat (String.length P) + 1) = V.
Proof.
  unfold js_substring_from.
  rewrite js_substring_spec by (rewrite ?string_length_app; simpl String.length; lia).
  rewrite string_length_app. simpl String.length.
  replace (Z.to_nat (Z.of_nat (String.length P) + 1)) with (String.length P + 1)%nat by lia.
  replace (Z.to_nat (Z.of_nat (String.length P + S (String.length V)) - (Z.of_nat (String.length P) + 1)))
    with (String.length V) by lia.
  rewrite substring_app_shift. simpl. apply substring_full.
Qed.

Lemma blank_app (s1 s2 : string) : blank (s1 ++ s2) = blank s1 && blank s2.
Proof. induction s1 as [|x s1 IH]; simpl; [reflexivity|]. rewrite IH. apply andb_assoc. Qed.

Lemma index_colon (P V : string) :
  index_of_nat ":" P = None ->
  index_of ":" (P ++ String ":" V) = Z.of_nat (String.length P).
Proof.
  intros Hc. unfold index_of. rewrite (index_of_nat_app _ _ _ Hc).
  cbn [index_of_nat]. rewrite Ascii.eqb_refl. simpl option_map. rewrite Nat.add_0_r. reflexivity.
Qed.

Lemma index_semicolon_after (P V : string) :
  index_of_nat ";" P = None ->
  index_of ";" (P ++ String ":" V) = -1 \/
  Z.of_nat (String.length P) < index_of ";" (P ++ String ":" V).
Proof.
  intros Hs. unfold index_of. rewrite (index_of_nat_app _ _ _ Hs).
  cbn [index_of_nat]. change (Ascii.eqb ":" ";") with false.
  destruct (index_of_nat ";" V); simpl option_map; [right; lia | left; reflexivity].
Qed.

Section Lines.
Variable tz : time_zone.
Variable gen : nat -> string.

Lemma parse_line_simple (st : pstate) (P V : string) :
  name_ok P -> parse_line tz gen st (P ++ String ":" V) = parse_entry tz gen st P V.
Proof.
  intros [Hc [Hs Hb]]. unfold parse_line.
  rewrite blank_app, Hb. cbv iota beta. rewrite andb_false_l.
  rewrite (index_colon P V Hc).
  destruct (index_semicolon_after P V Hs) as [HS|HS]; [rewrite HS|].
  - change ((-1 <? -1) && (-1 <? Z.of_nat (String.length P))) with false. cbv iota.
    replace (Z.of_nat (String.length P) =? -1) with false by (symmetry; apply Z.eqb_neq; lia).
    rewrite js_substring_prefix, js_substring_from_suffix. reflexivity.
  - replace ((-1 <? index_of ";" (P ++ String ":" V)) && (index_of ";" (P ++ String ":" V) <? Z.of_nat (String.length P)))
      with false by (symmetry; apply andb_false_iff; right; apply Z.ltb_ge; lia).
    replace (Z.of_nat (String.length P) =? -1) with false by (symmetry; apply Z.eqb_neq; lia).
    rewrite js_substring_prefix, js_substring_from_suffix. reflexivity.
Qed.

Lemma parse_line_param (st : pstate) (P Q V : string) :
  name_ok P -> index_of_nat ":" Q = None ->
  parse_line tz gen st (P ++ String ";" (Q ++ String ":" V)) = parse_entry tz gen st P V.
Proof.
  intros [Hc [Hs Hb]] HQ. unfold parse_line.
  rewrite blank_app, Hb. cbv iota beta. rewrite andb_false_l.
  assert (EL : P ++ String ";" (Q ++ String ":" V) = (P ++ String ";" Q) ++ String ":" V)
    by (rewrite string_app_assoc; reflexivity).
  assert (Hc' : index_of_nat ":" (P ++ String ";" Q) = None).
  { rewrite (index_of_nat_app _ _ _ Hc). cbn [index_of_nat]. change (Ascii.eqb ";" ":") with false.
    rewrite HQ. reflexivity. }
  rewrite EL, (index_colon _ V Hc').
  assert (HS : index_of ";" ((P ++ String ";" Q) ++ String ":" V) = Z.of_nat (String.length P)).
  { rewrite <- EL. unfold index_of. rewrite (index_of_nat_app _ _ _ Hs).
    cbn [index_of_nat]. rewrite Ascii.eqb_refl. simpl option_map. rewrite Nat.add_0_r. reflexivity. }
  rewrite HS.
  assert (Hlen : String.length (P ++ String ";" Q) = (String.length P + S (String.length Q))%nat)
    by (rewrite string_length_app; reflexivity).
  replace ((-1 <? Z.of_nat (String.length P)) && (Z.of_nat (String.length P) <? Z.of_nat (String.length (P ++ String ";" Q))))
    with true by (symmetry; apply andb_true_iff; split; apply Z.ltb_lt; rewrite ?Hlen; lia).
  replace (Z.of_nat (String.length P) =? -1) with false by (symmetry; apply Z.eqb_neq; lia).
  rewrite js_substring_from_suffix. rewrite <- EL, js_substring_prefix. reflexivity.
Qed.
End Lines.

(** ** Printed numbers and text contain no line feed *)

Lemma digit_char_no_lf (d : Z) : 0 <= d < 10 -> digit_char d <> LF.
Proof.
  intros Hd.
  assert (d = 0 \/ d = 1 \/ d = 2 \/ d = 3 \/ d = 4 \/ d = 5 \/ d = 6 \/ d = 7 \/ d = 8 \/ d = 9) by lia.
  repeat match goal with H : _ \/ _ |- _ => destruct H end; subst; discriminate.
Qed.

Lemma digits_rev_no_lf (fuel : nat) (z : Z) (acc : string) :
  no_lf acc -> no_lf (digits_rev fuel 10 z acc).
Proof.
  revert z acc. induction fuel as [|f IH]; intros z acc H; [exact H|].
  cbn [digits_rev].
  assert (Hs : no_lf (String (digit_char (z mod 10)) acc)).
  { apply no_lf_cons_intro; [apply digit_char_no_lf; apply Z.mod_pos_bound; lia | exact H]. }
  destruct (z <? 10); [exact Hs | apply IH; exact Hs].
Qed.

Lemma Z_to_radix_no_lf (z : Z) : no_lf (Z_to_radix 10 z).
Proof.
  unfold Z_to_radix. destruct (z <? 0).
  - apply no_lf_app. split; [reflexivity|]. apply digits_rev_no_lf. reflexivity.
  - apply digits_rev_no_lf. reflexivity.
Qed.

Lemma padStart2_no_lf (s : string) : no_lf s -> no_lf (padStart2 s).
Proof.
  intros H. unfold padStart2. destruct (String.length s) as [|[|k]]; auto.
  - reflexivity.
  - apply no_lf_app. split; [reflexivity|exact H].
Qed.

Lemma num_to_string_no_lf (v : option Z) : no_lf (num_to_string v).
Proof. destruct v; [apply Z_to_radix_no_lf | reflexivity]. Qed.

Lemma formatDate_no_lf (tz : time_zone) (d : jsdate) (b : bool) : no_lf (formatDate tz d b).
Proof.
  unfold formatDate.
  destruct b; repeat (apply no_lf_app; split);
    first [apply num_to_string_no_lf | apply padStart2_no_lf, num_to_string_no_lf | reflexivity].
Qed.

Lemma escapeText_no_lf (t : string) : no_lf (escapeText t).
Proof.
  rewrite escapeText_esc. induction t as [|x t IH]; [reflexivity|].
  cbn [esc_k]. apply no_lf_app. split; [|exact IH].
  esc_cases x; try reflexivity. apply no_lf_cons_intro; [assumption|reflexivity].
Qed.

Lemma index_of_none (c : ascii) (s : string) : index_of c s = -1 -> index_of_nat c s = None.
Proof. unfold index_of. destruct (index_of_nat c s); [lia|auto]. Qed.

(** ** Round trip through [export] and [parse] *)

(** C2: the round trip of an event with an id, a title, a date-time
    start and an end, and no other field, holds under these conditions: the
    id is non-empty and has no line feed, the title is non-empty and has no
    backslash followed by [n], the calendar name and the time-zone name have
    no line feed (and the zone name no [:]), the host zone's offsets and
    transitions are whole seconds, and both instants are valid, with a
    local year from 1000 to 9999 and a local time (to the second) that no
    earlier instant shows.  [parse] then yields one record with the same id
    and title, the same start and end up to the second, and
    [allDay = false]. *)
Theorem export_parse_roundtrip (tz : time_zone) (tzname : string) (gen : nat -> string) (n : nat) (now : Z)
  (name i ttl : string) (t1 t2 y1 y2 : Z) :
  i <> EmptyString -> index_of LF i = -1 ->
  ttl <> EmptyString -> includes ttl (String BS "n") = false ->
  index_of LF name = -1 ->
  index_of LF tzname = -1 -> index_of ":" tzname = -1 ->
  whole_seconds tz ->
  Z.abs t1 <= 8640000000000000 -> first_shown tz (t1 - t1 mod 1000) ->
  getFullYear tz (DValid t1) = Some y1 -> 1000 <= y1 <= 9999 ->
  Z.abs t2 <= 8640000000000000 -> first_shown tz (t2 - t2 mod 1000) ->
  getFullYear tz (DValid t2) = Some y2 -> 1000 <= y2 <= 9999 ->
  exists out n' e',
    export tz tzname gen n now
      [mkEvent i ttl "" "" "" (Some (DValid t1)) (Some (DValid t2)) false "" "" None [] [] None "" []]
      name = (Some out, n') /\
    parse tz gen n' out = ([e'], n') /\
    id e' = i /\ title e' = ttl /\
    start e' = Some (DValid (t1 - t1 mod 1000)) /\ end_ e' = Some (DValid (t2 - t2 mod 1000)) /\
    allDay e' = false.
Proof.
  intros Hi HiLF Ht Htn HnLF HzLF HzC Hws Ht1 Hf1 Hy1 Hy1r Ht2 Hf2 Hy2 Hy2r.
  apply index_of_none in HiLF, HnLF, HzLF, HzC.
  destruct i as [|ci i']; [contradiction|]. destruct ttl as [|ct ttl']; [contradiction|].
  set (i := String ci i') in *. set (ttl := String ct ttl') in *.
  set (fs := formatDate tz (DValid t1) false).
  set (fe := formatDate tz (DValid t2) false).
  set (stamp := formatDate tz (DValid now) false).
  set (lines := ["BEGIN:VCALENDAR"; "VERSION:2.0"; "PRODID:-//Force Calendar Core//EN";
                 "X-WR-CALNAME" ++ String ":" name; "METHOD:PUBLISH";
                 "BEGIN:VEVENT"; "UID" ++ String ":" i; "DTSTAMP" ++ String ":" stamp;
                 "DTSTART" ++ String ";" (("TZID=" ++ tzname) ++ String ":" fs);
                 "DTEND" ++ String ";" (("TZID=" ++ tzname) ++ String ":" fe);
                 "SUMMARY" ++ String ":" (escapeText ttl); "END:VEVENT"; "END:VCALENDAR"]).
  assert (Hexp : export tz tzname gen n now
      [mkEvent i ttl "" "" "" (Some (DValid t1)) (Some (DValid t2)) false "" "" None [] [] None "" []]
      name = (Some (join CRLF (foldLines lines)), n)).
  { unfold export. simpl events_to_ics. reflexivity. }
  assert (Hall : Forall line_ok lines).
  { unfold lines. repeat constructor;
      repeat first [ assumption | reflexivity | apply formatDate_no_lf | apply escapeText_no_lf
                   | apply no_lf_app; split | apply no_lf_cons_intro; [discriminate|]
                   | cbn; discriminate ]. }
  assert (Hnm : forall P, index_of_nat ":" P = None -> index_of_nat ";" P = None -> blank P = false -> name_ok P)
    by (intros P A B C; split; [|split]; assumption).
  set (e1 := set_id i createEmptyEvent).
  set (e2 := set_start (Some (DValid (t1 - t1 mod 1000))) e1).
  set (e3 := set_end (Some (DValid (t2 - t2 mod 1000))) e2).
  set (e4 := set_title ttl e3).
  set (st0 := mkP [] None false false n).
  set (st1 := mkP [] (Some createEmptyEvent) true false n).
  assert (H6 : parse_line tz gen st0 "BEGIN:VEVENT" = st1) by reflexivity.
  assert (H7 : parse_line tz gen st1 ("UID" ++ String ":" i) = mkP [] (Some e1) true false n)
    by (rewrite parse_line_simple by (apply Hnm; reflexivity); reflexivity).
  assert (H8 : parse_line tz gen (mkP [] (Some e1) true false n) ("DTSTAMP" ++ String ":" stamp) =
               mkP [] (Some e1) true false n)
    by (rewrite parse_line_simple by (apply Hnm; reflexivity); reflexivity).
  assert (HQ : index_of_nat ":" ("TZID=" ++ tzname) = None)
    by (rewrite index_of_nat_app by reflexivity; rewrite HzC; reflexivity).
  assert (H9 : parse_line tz gen (mkP [] (Some e1) true false n)
                 ("DTSTART" ++ String ";" (("TZID=" ++ tzname) ++ String ":" fs)) =
               mkP [] (Some e2) true false n).
  { erewrite parse_line_param; [| apply Hnm; reflexivity | exact HQ].
    transitivity (mkP [] (Some (set_start (Some (parseDate tz fs "DTSTART")) e1)) true false n);
      [reflexivity|].
    unfold fs. rewrite (parseDate_formatDate tz t1 y1) by (first [reflexivity | assumption]). reflexivity. }
  assert (H10 : parse_line tz gen (mkP [] (Some e2) true false n)
                 ("DTEND" ++ String ";" (("TZID=" ++ tzname) ++ String ":" fe)) =
               mkP [] (Some e3) true false n).
  { erewrite parse_line_param; [| apply Hnm; reflexivity | exact HQ].
    transitivity (mkP [] (Some (set_end (Some (parseDate tz fe "DTEND")) e2)) true false n);
      [reflexivity|].
    unfold fe. rewrite (parseDate_formatDate tz t2 y2) by (first [reflexivity | assumption]). reflexivity. }
  assert (H11 : parse_line tz gen (mkP [] (Some e3) true false n) ("SUMMARY" ++ String ":" (escapeText ttl)) =
               mkP [] (Some e4) true false n).
  { rewrite parse_line_simple by (apply Hnm; reflexivity).
    transitivity (mkP [] (Some (set_title (unescapeText (escapeText ttl)) e3)) true false n);
      [reflexivity|].
    rewrite unescapeText_escapeText by exact Htn. reflexivity. }
  assert (H12 : parse_line tz gen (mkP [] (Some e4) true false n) "END:VEVENT" = mkP [e4] None false false n)
    by reflexivity.
  exists (join CRLF (foldLines lines)), n, e4.
  split; [exact Hexp|]. split; [|repeat split; reflexivity].
  unfold parse. unfold lines. rewrite unfoldLines_foldLines by exact Hall.
  unfold parse_lines. cbn [fold_left].
  change (parse_line tz gen (mkP [] None false false n) "BEGIN:VCALENDAR") with st0.
  change (parse_line tz gen st0 "VERSION:2.0") with st0.
  change (parse_line tz gen st0 "PRODID:-//Force Calendar Core//EN") with st0.
  rewrite (parse_line_simple tz gen st0 "X-WR-CALNAME" name) by (apply Hnm; reflexivity).
  change (parse_entry tz gen st0 "X-WR-CALNAME" name) with st0.
  change (parse_line tz gen st0 "METHOD:PUBLISH") with st0.
  rewrite H6, H7, H8, H9, H10, H11, H12. reflexivity.
Qed.

(** ** Scoring *)

Lemma term_score_spec (fz : bool) (v t : string) :
  term_score fz v t = spec_token_points fz v t.
Proof. unfold term_score, spec_token_points. destruct (includes v t); [reflexivity|]. destruct fz; reflexivity. Qed.

Lemma fold_term_score (fz : bool) (v : string) (tokens : list string) (acc : Z) :
  fold_left (fun acc term => acc + term_score fz v term) tokens acc =
  acc + spec_field_points fz v tokens.
Proof.
  revert acc; induction tokens as [|t ts IH]; intros acc; simpl.
  - lia.
  - rewrite IH, term_score_spec. lia.
Qed.

Lemma calculateMatchScore_from_spec (ev : event) (tokens fs : list string) (fz cs : bool) (t : Z) :
  calculateMatchScore_from ev tokens fs fz cs t = spec_score ev tokens fs fz cs t.
Proof.
  revert t; induction fs as [|f fs IH]; intros t;
    cbn [calculateMatchScore_from spec_score]; [reflexivity|].
  destruct (field_value ev f); try reflexivity; [|apply IH].
  cbv zeta. rewrite fold_term_score, IH. f_equal.
  destruct (String.eqb f "title"); lia.
Qed.

(** ** Search *)

Lemma firstn_map_comm {A B : Type} (f : A -> B) (k : nat) (l : list A) :
  map f (firstn k l) = firstn k (map f l).
Proof. revert l; induction k; intros [|x l]; simpl; f_equal; auto. Qed.

Lemma in_firstn_in {A : Type} (k : nat) (x : A) (l : list A) : In x (firstn k l) -> In x l.
Proof. intros H. rewrite <- (firstn_skipn k l). apply in_or_app. left. exact H. Qed.

Lemma slice0_firstn {A : Type} (l : list A) (lim : Z) : exists k, slice0 l lim = firstn k l.
Proof. unfold slice0. eexists. reflexivity. Qed.

Lemma in_insert_by {A : Type} (cmp : A -> A -> Z) (a x : A) (l : list A) :
  In x (insert_by cmp a l) -> a = x \/ In x l.
Proof.
  induction l as [|y l IH]; simpl; [tauto|].
  destruct (cmp a y <=? 0); simpl; [tauto|].
  intros [H|H]; [tauto|]. destruct (IH H); tauto.
Qed.

Lemma in_sort_by {A : Type} (cmp : A -> A -> Z) (x : A) (l : list A) :
  In x (sort_by cmp l) -> In x l.
Proof.
  induction l as [|y l IH]; simpl; [tauto|].
  intros H. destruct (in_insert_by cmp y x _ H); [left; assumption | right; auto].
Qed.

Lemma in_sortResults `{lc : Collator} (h : hit) (l : list hit) (sb : string) :
  In h (sortResults l sb) -> In h l.
Proof. unfold sortResults. destruct (sort_comparator sb); [apply in_sort_by | auto]. Qed.

Lemma score_events_in (q : list string) (o : search_options) (evs : list event) (hs : list hit) :
  score_events q o evs = Some hs -> forall h, In h hs -> In (hit_event h) evs.
Proof.
  revert hs; induction evs as [|e evs IH]; simpl; intros hs H h Hh.
  - inversion H; subst; contradiction.
  - destruct (calculateMatchScore e q (fields o) (fuzzy o) (caseSensitive o)); [|discriminate].
    destruct (score_events q o evs) as [hs'|]; [|discriminate].
    inversion H; subst hs.
    destruct (0 <? z).
    + destruct Hh as [Hh|Hh]; [subst h; left; reflexivity|right; eapply IH; eauto].
    + right; eapply IH; eauto.
Qed.

Lemma score_events_with_limit (q : list string) (o : search_options) (l : option Z)
    (evs : list event) :
  score_events q (with_limit o l) evs = score_events q o evs.
Proof. induction evs as [|e evs IH]; simpl; [reflexivity|]. rewrite IH. reflexivity. Qed.

(** ** Filtering *)

Lemma incl_filter_trans {A : Type} (f : A -> bool) (l m : list A) :
  incl l m -> incl (filter f l) m.
Proof. intros H x Hx. apply filter_In in Hx. apply H; tauto. Qed.

Lemma filter_opt_incl {A : Type} (p : A -> option bool) (l r : list A) :
  filter_opt p l = Some r -> incl r l.
Proof.
  revert r; induction l as [|x l IH]; simpl; intros r H.
  - inversion H; subst; apply incl_refl.
  - destruct (p x) as [b|]; [|discriminate].
    destruct (filter_opt p l) as [r'|] eqn:E; [|discriminate].
    inversion H; subst r. specialize (IH r' eq_refl).
    destruct b; [apply incl_cons; [left; reflexivity| intros y Hy; right; auto] | intros y Hy; right; auto].
Qed.

(** ** Import *)

Section ImportFacts.

Context {S : Type} `{CalendarState S}.

Lemma import_step_record (o : import_options) (now : Z) (ev : event) (s : S)
    (out : res (import_results -> import_results)) (ev' : event) (s1 : S) :
  import_step o now ev s = (out, ev', s1) ->
  ev' = ev \/ (updateExisting o = false /\ skipDuplicates o = false /\
               ev' = set_id (generateNewId now (id ev)) ev).
Proof.
  unfold import_step. intros E.
  destruct (negb _); [inversion E; auto|].
  destruct (negb _); [inversion E; auto|].
  destruct (getEvent (id ev) s) as [[[x|]|x] s0].
  - destruct (updateExisting o) eqn:U.
    + destruct (updateEvent _ _ _) as [[]]; inversion E; auto.
    + destruct (skipDuplicates o) eqn:D; [inversion E; auto|].
      destruct (addEvent _ _) as [[]]; inversion E; auto.
  - destruct (addEvent _ _) as [[]]; inversion E; auto.
  - inversion E; auto.
Qed.

Lemma import_loop_records (o : import_options) (now : Z) (evs : list event)
    (r : import_results) (s : S) (r' : import_results) (evs' : list event) (s' : S) :
  import_loop o now evs r s = (ROk (r', evs'), s') ->
  Forall2 (fun e e' => e' = e \/ (updateExisting o = false /\ skipDuplicates o = false /\
                                 e' = set_id (generateNewId now (id e)) e)) evs evs'.
Proof.
  revert r s evs'; induction evs as [|ev rest IH]; intros r s evs' E; simpl in E.
  - inversion E; constructor.
  - destruct (import_step o now ev s) as [[out ev1] s1] eqn:St.
    apply import_step_record in St.
    destruct (match out with ROk f => ROk (f r) | RThrow (ExnObj msg) => ROk (add_error ev1 msg r)
              | RThrow ExnNullish => RThrow TypeError end) as [r1|x]; [|discriminate].
    destruct (import_loop o now rest r1 s1) as [[[r2 rest']|x] s2] eqn:E2; [|discriminate].
    inversion E; subst. constructor; [exact St | eapply IH; exact E2].
Qed.


Section NonNullish.

Hypothesis HgE : forall i s, fst (getEvent i s) <> RThrow ExnNullish.
Hypothesis HaE : forall e s, fst (addEvent e s) <> RThrow ExnNullish.
Hypothesis HuE : forall i e s, fst (updateEvent i e s) <> RThrow ExnNullish.



End NonNullish.



End ImportFacts.

(** ** The collaborator of the spec *)

Lemma store_find_add (i : string) (e : event) (s : store) :
  store_find i (app (store_remove (id e) s) [e]) =
  if String.eqb (id e) i then Some e else store_find i s.
Proof.
  induction s as [|x s IH]; unfold store_find, store_remove in *; simpl.
  - rewrite String.eqb_sym. destruct (String.eqb (id e) i); reflexivity.
  - destruct (String.eqb (id x) (id e)) eqn:Ex; simpl.
    + destruct (String.eqb (id e) i) eqn:Ei.
      * exact IH.
      * apply String.eqb_eq in Ex. rewrite Ex, Ei. exact IH.
    + destruct (String.eqb (id x) i) eqn:Xi.
      * destruct (String.eqb (id e) i) eqn:Ei; [|reflexivity].
        apply String.eqb_eq in Xi, Ei. rewrite Xi, <- Ei, String.eqb_refl in Ex. discriminate.
      * exact IH.
Qed.

Lemma default_loop_first (now : Z) (evs : list event) (r : import_results) (s : store) :
  exists r' s', import_loop default_import_options now evs r s = (ROk (r', evs), s') /\
    (forall e, In e evs -> stored (id e) s') /\
    (forall i, stored i s -> stored i s').
Proof.
  revert r s; induction evs as [|ev rest IH]; intros r s.
  - exists r, s; simpl; repeat split; auto; intros e [].
  - simpl import_loop. unfold import_step; simpl.
    destruct (store_find (id ev) s) eqn:F; simpl.
    + destruct (IH (add_skipped ev "duplicate" r) s) as (r' & s' & -> & H1 & H2).
      exists r', s'; repeat split; auto.
      intros e0 [<-|He]; auto. apply H2. unfold stored; rewrite F; discriminate.
    + destruct (IH (add_imported ev r) (app (store_remove (id ev) s) [ev])) as (r' & s' & -> & H1 & H2).
      exists r', s'; repeat split; auto.
      * intros e0 [<-|He]; auto. apply H2. unfold stored; rewrite store_find_add, String.eqb_refl.
        discriminate.
      * intros i Hi. apply H2. unfold stored in *. rewrite store_find_add.
        destruct (String.eqb (id ev) i); [discriminate|exact Hi].
Qed.

Lemma default_loop_second (now : Z) (evs : list event) (r : import_results) (s : store) :
  (forall e, In e evs -> stored (id e) s) ->
  import_loop default_import_options now evs r s =
    (ROk (mkResults (imported r) (skipped r ++ map (fun e => (e, "duplicate")) evs)
                    (updated r) (errors r), evs), s).
Proof.
  revert r; induction evs as [|ev rest IH]; intros r Hs.
  - simpl. rewrite app_nil_r. destruct r; reflexivity.
  - simpl import_loop. unfold import_step; simpl.
    destruct (store_find (id ev) s) eqn:F.
    + simpl. rewrite IH by (intros e0 He; apply Hs; right; exact He).
      unfold add_skipped; simpl. rewrite <- app_assoc. reflexivity.
    + exfalso. apply (Hs ev); [left; reflexivity | exact F].
Qed.

(** ** The parser's loop *)

Lemma index_of_ge (c : ascii) (s : string) : -1 <= index_of c s.
Proof. unfold index_of. destruct (index_of_nat c s); lia. Qed.

Lemma parse_line_entry (tz : time_zone) (gen : nat -> string) (st : pstate) (line : string) :
  parse_line tz gen st line =
  match line_entry line with
  | None => st
  | Some (P, V) => parse_entry tz gen st P V
  end.
Proof.
  unfold parse_line, line_entry. destruct (blank line); [reflexivity|].
  cbv zeta. destruct (_ =? -1); reflexivity.
Qed.

Lemma parse_entry_events (tz : time_zone) (gen : nat -> string) (st : pstate) (P V : string) :
  p_events (parse_entry tz gen st P V) = p_events st \/
  (P = "END" /\ V = "VEVENT" /\ exists e, p_events (parse_entry tz gen st P V) = (p_events st ++ [e])%list).
Proof.
  unfold parse_entry.
  destruct (String.eqb P "BEGIN").
  { destruct (String.eqb V "VEVENT"); [left; reflexivity|].
    destruct (String.eqb V "VALARM"); left; reflexivity. }
  destruct (String.eqb P "END") eqn:EP.
  { destruct (String.eqb V "VEVENT") eqn:EV, (p_cur st) as [cur|].
    - right. apply String.eqb_eq in EP, EV. split; [exact EP|split; [exact EV|]].
      destruct (normalizeEvent gen (p_uid st) cur) as [e n]. exists e; reflexivity.
    - destruct (String.eqb V "VALARM"); left; reflexivity.
    - destruct (String.eqb V "VALARM"); left; reflexivity.
    - destruct (String.eqb V "VALARM"); left; reflexivity. }
  destruct (p_inEvent st && negb (p_inAlarm st)); [|left; reflexivity].
  destruct (p_cur st); left; reflexivity.
Qed.

Lemma parse_line_events (tz : time_zone) (gen : nat -> string) (st : pstate) (line : string) :
  p_events (parse_line tz gen st line) = p_events st \/
  (line_entry line = Some ("END", "VEVENT") /\
   exists e, p_events (parse_line tz gen st line) = (p_events st ++ [e])%list).
Proof.
  rewrite parse_line_entry. destruct (line_entry line) as [[P V]|]; [|left; reflexivity].
  destruct (parse_entry_events tz gen st P V) as [H|(-> & -> & H)]; [left; exact H|right; auto].
Qed.

(** * Claims *)

(** C1: the all-day round trip fails.  Exporting an all-day event of
    2024-01-01 (at UTC-5) writes [DTSTART;VALUE=DATE:20240101], and parsing
    the output gives back the same start but [allDay = false]: the parser
    hands [parseProperty] only the name before the [;], so the [VALUE=DATE]
    parameter is never seen. *)
Theorem allDay_roundtrip_loses_allDay :
  exists out,
    export new_york_2024 "America/New_York" sample_gen 0 1705000000000
      [mkEvent "1" "Holiday" "" "" "" (Some (DValid 1704085200000))
         (Some (DValid 1704171600000)) true "" "" None [] [] None "" []] "Work"
    = (Some out, 0%nat) /\
    includes out "DTSTART;VALUE=DATE:20240101" = true /\
    map (fun e => (start e, allDay e)) (fst (parse new_york_2024 sample_gen 0 out)) =
      [(Some (DValid 1704085200000), false)].
Proof.
  eexists. split; [reflexivity|]. split; vm_compute; reflexivity.
Qed.

(** C2 (counterexample): two events whose round trip fails.  An id
    containing a line feed is reparsed as the text before the line feed.
    In New York, a start of 2024-11-03T06:30Z (01:30 EST, in the hour
    repeated when daylight saving time ends) is written as [T013000] and
    read back as 01:30 EDT, 2024-11-03T05:30Z, an hour earlier. *)
Lemma roundtrip_counterexamples :
  (exists out,
    export new_york_2024 "America/New_York" sample_gen 0 1705000000000
      [mkEvent ("a" ++ ch LF ++ "b") "Standup" "" "" "" (Some (DValid 1705327200000))
         (Some (DValid 1705329000000)) false "" "" None [] [] None "" []] "Work"
    = (Some out, 0%nat) /\
    map id (fst (parse new_york_2024 sample_gen 0 out)) = ["a"]) /\
  (exists out,
    export new_york_2024 "America/New_York" sample_gen 0 1705000000000
      [mkEvent "1" "Standup" "" "" "" (Some (DValid 1730615400000))
         (Some (DValid 1730619000000)) false "" "" None [] [] None "" []] "Work"
    = (Some out, 0%nat) /\
    includes out "DTSTART;TZID=America/New_York:20241103T013000" = true /\
    map start (fst (parse new_york_2024 sample_gen 0 out)) = [Some (DValid 1730611800000)]).
Proof.
  split; eexists; (split; [reflexivity|]); vm_compute; [reflexivity|split; reflexivity].
Qed.

Lemma export_parse_roundtrip_witness :
  exists out n' e',
    export new_york_2024 "America/New_York" sample_gen 0 1705000000000
      [mkEvent "1" "Standup" "" "" "" (Some (DValid 1705327200000))
         (Some (DValid 1705329000000)) false "" "" None [] [] None "" []] "Work"
    = (Some out, n') /\
    parse new_york_2024 sample_gen n' out = ([e'], n') /\
    id e' = "1" /\ title e' = "Standup" /\
    start e' = Some (DValid (1705327200000 - 1705327200000 mod 1000)) /\
    end_ e' = Some (DValid (1705329000000 - 1705329000000 mod 1000)) /\
    allDay e' = false.
Proof.
  apply (export_parse_roundtrip new_york_2024 "America/New_York" sample_gen 0 1705000000000
           "Work" "1" "Standup" 1705327200000 1705329000000 2024 2024);
    first [discriminate | lia | exact new_york_2024_whole_seconds
          | apply first_shown_of_offsets; vm_compute; reflexivity | vm_compute; reflexivity].
Defined.

(** C3: the score of [calculateMatchScore] is the spec's: fields scanned
    in order, 10 points per token found in the field value, otherwise (with
    [fuzzy]) [5 - d] points when the edit distance [d] between the token
    and the whole value is at most 2, and the running total over all
    fields scanned so far doubled after the [title] field. *)
Theorem calculateMatchScore_is_spec_score (ev : event) (tokens fs : list string) (fz cs : bool) :
  calculateMatchScore ev tokens fs fz cs = spec_score ev tokens fs fz cs 0.
Proof. apply calculateMatchScore_from_spec. Qed.




(** C5: the escaping law fails for the title made of a backslash, the
    letter [n], a comma, a semicolon and a line feed: the escaped
    backslash followed by [n] is read back as a line feed. *)
Theorem unescape_escape_backslash_n :
  let t := String BS (String "n" (",;" ++ ch LF)) in
  unescapeText (escapeText t) = String BS (String LF (",;" ++ ch LF)) /\
  unescapeText (escapeText t) <> t.
Proof. split; vm_compute; [reflexivity | discriminate]. Qed.

(** C6: with [merge = false] and neither [updateExisting] nor
    [skipDuplicates], importing a document with [UID:1] into a store
    holding the record ["1"] removes that record although ["1"] is the
    parsed id: the clone branch reassigns the parsed record's id in place,
    and the removal step reads the reassigned ids. *)
Theorem import_removes_record_with_parsed_id :
  map id (fst (parse new_york_2024 sample_gen 0 doc_uid1)) = ["1"] /\
  match import (S := store) new_york_2024 sample_gen 0 1705000000000 (InString doc_uid1)
          (mkImportOptions false false false None None) [stored_event "1"] with
  | (ROk _, _, s) => map id s = [generateNewId 1705000000000 "1"]
  | _ => False
  end.
Proof. split; vm_compute; reflexivity. Qed.

(** C7 (counterexample): a document whose event has no [UID] gets a new
    generated id on each parse, so the second default import adds the
    event again instead of skipping it. *)
Lemma import_twice_without_uid :
  match import (S := store) new_york_2024 sample_gen 0 1705000000000 (InString doc_no_uid)
          default_import_options [] with
  | (_, n1, s1) =>
      match import (S := store) new_york_2024 sample_gen n1 1705000000000 (InString doc_no_uid)
              default_import_options s1 with
      | (ROk r, _, s2) => skipped r = [] /\ map id (imported r) = ["uid-1"] /\
                          map id s2 = ["uid-0"; "uid-1"]
      | _ => False
      end
  end.
Proof. vm_compute. split; [reflexivity | split; reflexivity]. Qed.

(** C7: when every event of the document carries its id (parsing
    generates none), a second import with the default options skips every
    reparsed event as a duplicate, imports and updates nothing, records no
    error, and leaves the store as the first import left it. *)
Theorem import_twice_skips_duplicates (tz : time_zone) (gen : nat -> string) (n : nat) (now1 now2 : Z)
    (doc : string) (s : store) (evs : list event)
    (r1 : res import_results) (n1 : nat) (s1 : store) :
  parse tz gen n doc = (evs, n) ->
  import tz gen n now1 (InString doc) default_import_options s = (r1, n1, s1) ->
  import tz gen n1 now2 (InString doc) default_import_options s1 =
    (ROk (mkResults [] (map (fun e => (e, "duplicate")) evs) [] []), n1, s1).
Proof.
  intros Hp Hi.
  unfold import in Hi. cbn [getICSString] in Hi. rewrite Hp in Hi.
  destruct (default_loop_first now1 evs empty_results s) as (r' & s' & Hl & Hin & _).
  rewrite Hl in Hi. simpl in Hi. inversion Hi; subst n1 s1.
  unfold import. cbn [getICSString]. rewrite Hp.
  rewrite (default_loop_second now2 evs empty_results s' Hin). reflexivity.
Qed.

Lemma import_twice_skips_duplicates_witness :
  import (S := store) new_york_2024 sample_gen 0 1705000000000 (InString doc_uid1) default_import_options
    (snd (import (S := store) new_york_2024 sample_gen 0 1705000000000 (InString doc_uid1)
            default_import_options []))
  = (ROk (mkResults [] (map (fun e => (e, "duplicate")) (fst (parse new_york_2024 sample_gen 0 doc_uid1)))
            [] []), 0%nat,
     snd (import (S := store) new_york_2024 sample_gen 0 1705000000000 (InString doc_uid1)
            default_import_options [])).
Proof.
  apply (import_twice_skips_duplicates new_york_2024 sample_gen 0 1705000000000 1705000000000 doc_uid1 []
           (fst (parse new_york_2024 sample_gen 0 doc_uid1))
           (fst (fst (import (S := store) new_york_2024 sample_gen 0 1705000000000 (InString doc_uid1)
                        default_import_options [])))
           0%nat
           (snd (import (S := store) new_york_2024 sample_gen 0 1705000000000 (InString doc_uid1)
                   default_import_options []))); vm_compute; reflexivity.
Defined.

(** C8: a limit only truncates the ranking: for every query, options,
    limit and collection, the result with the limit is an initial segment
    of the result without it. *)
Theorem search_limit_prefix `{lc : Collator} (q : string) (o : search_options) (l : Z) (evs : list event) :
  exists k, search q (with_limit o (Some l)) evs =
            option_map (firstn k) (search q (with_limit o None) evs).
Proof.
  unfold search. rewrite !score_events_with_limit.
  unfold with_limit; simpl.
  destruct (blank q); [exists 0%nat; reflexivity|].
  destruct (score_events _ _ evs) as [hs|]; [|exists 0%nat; reflexivity].
  simpl. destruct (l =? 0).
  - exists (length (map hit_event (sortResults hs (sortBy o)))). rewrite firstn_all. reflexivity.
  - destruct (slice0_firstn (sortResults hs (sortBy o)) l) as [k ->].
    exists k. rewrite firstn_map_comm. reflexivity.
Qed.

(** C9 (counterexample): a property line inside an outer [VALARM] counts
    once a nested [VALARM] has ended: [END:VALARM] clears the single
    [inAlarm] flag. *)
Lemma parse_nested_alarm_summary :
  map title (fst (parse new_york_2024 sample_gen 0 doc_nested_alarm)) = ["x"].
Proof. vm_compute. reflexivity. Qed.

(** C9: the parser's loop is lossy only in these ways: a line with no
    [:] leaves the state unchanged; a property line while no event is open
    or while the [inAlarm] flag is set leaves the state unchanged; records
    are only appended, in document order; and lines none of which is an
    [END:VEVENT] line add no record (so a [VEVENT] left open at the end of
    the input yields none).  [parse] is a total function. *)
Theorem parse_loop_lossy_only (tz : time_zone) (gen : nat -> string) :
  (forall st line, index_of ":" line = -1 -> parse_line tz gen st line = st) /\
  (forall st P V, P <> "BEGIN" -> P <> "END" ->
     p_inEvent st = false \/ p_inAlarm st = true -> parse_entry tz gen st P V = st) /\
  (forall st lines, exists new,
     p_events (parse_lines tz gen st lines) = (p_events st ++ new)%list) /\
  (forall st lines, (forall l, In l lines -> line_entry l <> Some ("END", "VEVENT")) ->
     p_events (parse_lines tz gen st lines) = p_events st).
Proof.
  split; [|split; [|split]].
  - intros st line Hc. unfold parse_line. destruct (blank line); [reflexivity|].
    rewrite Hc. cbv zeta.
    assert (Hs : (index_of ";" line <? -1) = false)
      by (apply Z.ltb_ge; apply index_of_ge).
    rewrite Hs, andb_false_r. reflexivity.
  - intros st P V HB HE Hst. unfold parse_entry.
    apply String.eqb_neq in HB, HE. rewrite HB, HE.
    destruct Hst as [-> | ->]; [reflexivity|].
    rewrite andb_false_r. reflexivity.
  - intros st lines. unfold parse_lines. revert st.
    induction lines as [|l ls IH]; intros st; simpl.
    + exists []. rewrite app_nil_r. reflexivity.
    + destruct (IH (parse_line tz gen st l)) as [new Hn]. rewrite Hn.
      destruct (parse_line_events tz gen st l) as [E|(_ & e & E)]; rewrite E.
      * exists new. reflexivity.
      * exists (e :: new). rewrite <- app_assoc. reflexivity.
  - intros st lines. unfold parse_lines. revert st.
    induction lines as [|l ls IH]; intros st Hl; simpl; [reflexivity|].
    rewrite IH by (intros l' H'; apply Hl; right; exact H').
    destruct (parse_line_events tz gen st l) as [E|(Ee & _)]; [exact E|].
    exfalso. apply (Hl l); [left; reflexivity | exact Ee].
Qed.

(** C10: [import] mutates a record in place.  Importing a document with
    [UID:1] into a store holding a record ["1"], with [updateExisting] and
    [skipDuplicates] false, takes the clone branch, which assigns
    [eventData.id = generateNewId(id)] on the record that [parse]
    produced: after the loop, the parsed record's id is
    ["1-copy-" ++ Date.now() in base 36], not ["1"]. *)
Lemma import_loop_changes_parsed_id :
  map id (fst (parse new_york_2024 sample_gen 0 doc_uid1)) = ["1"] /\
  match import_loop (S := store) (mkImportOptions true false false None None) 1705000000000
          (fst (parse new_york_2024 sample_gen 0 doc_uid1)) empty_results [stored_event "1"] with
  | (ROk (_, evs'), _) => map id evs' = [generateNewId 1705000000000 "1"]
  | _ => False
  end.
Proof. split; vm_compute; reflexivity. Qed.

(** * Further properties *)

Lemma lev_row_ok (bi : ascii) (a : string) : forall ups diag left i k,
  lev_ok i k diag -> lev_ok (S i) k left ->
  (forall m v, nth_error ups m = Some v -> lev_ok i (S k + m) v) ->
  forall m v, nth_error (lev_row bi a diag ups left) m = Some v -> lev_ok (S i) (S k + m) v.
Proof.
  induction a as [|aj a IH]; intros ups diag left i k Hd Hl Hu m v Hm.
  - destruct m; discriminate.
  - destruct ups as [|up ups]; [destruct m; discriminate|].
    cbn [lev_row] in Hm.
    assert (Hup : lev_ok i (S k) up) by (specialize (Hu 0%nat up); rewrite Nat.add_0_r in Hu; apply Hu; reflexivity).
    set (v0 := if Ascii.eqb bi aj then diag
               else Nat.min (Nat.min (diag + 1) (left + 1)) (up + 1)) in Hm.
    assert (Hv0 : lev_ok (S i) (S k) v0).
    { unfold v0, lev_ok in *. destruct (Ascii.eqb bi aj); lia. }
    destruct m as [|m].
    + simpl in Hm. injection Hm as <-. rewrite Nat.add_0_r. exact Hv0.
    + simpl in Hm. replace (S k + S m)%nat with (S (S k) + m)%nat by lia.
      apply (IH ups up v0 i (S k)); auto.
      intros m' v' Hm'. replace (S (S k) + m')%nat with (S k + S m')%nat by lia.
      apply Hu. exact Hm'.
Qed.

Lemma lev_row_length (bi : ascii) (a : string) : forall ups diag left,
  length (lev_row bi a diag ups left) = Nat.min (String.length a) (length ups).
Proof.
  induction a as [|aj a IH]; intros [|up ups] diag left; simpl; auto.
Qed.

Lemma lev_rows_ok (a : string) : forall b i prev,
  row_ok i prev -> length prev = S (String.length a) ->
  row_ok (i + String.length b) (lev_rows a b (S i) prev) /\
  length (lev_rows a b (S i) prev) = S (String.length a).
Proof.
  induction b as [|bi b IH]; intros i prev Hp Hlen.
  - simpl. rewrite Nat.add_0_r. auto.
  - cbn [lev_rows]. replace (i + String.length (String bi b))%nat with (S i + String.length b)%nat
      by (simpl; lia).
    destruct prev as [|p0 prev]; [discriminate|]. cbn [hd tl].
    apply IH.
    + intros j v Hj. destruct j as [|j].
      * simpl in Hj. injection Hj as <-. unfold lev_ok. lia.
      * simpl in Hj. change (S j) with (S 0 + j)%nat.
        apply (lev_row_ok bi a prev p0 (S i) i 0%nat); [| |  |exact Hj].
        -- apply (Hp 0%nat). reflexivity.
        -- unfold lev_ok; lia.
        -- intros m v' Hm. apply (Hp (S m)). exact Hm.
    + simpl. rewrite lev_row_length. simpl in Hlen. lia.
Qed.

Lemma nth_error_last {A : Type} (l : list A) (d : A) :
  l <> [] -> nth_error l (length l - 1) = Some (last l d).
Proof.
  induction l as [|x l IH]; intros H; [congruence|].
  destruct l as [|y l]; [reflexivity|].
  specialize (IH ltac:(discriminate)). simpl in IH |- *. rewrite Nat.sub_0_r in *. exact IH.
Qed.

Lemma lev_bounds (a b : string) :
  (String.length a - String.length b <= levenshteinDistance a b)%nat /\
  (String.length b - String.length a <= levenshteinDistance a b)%nat /\
  (levenshteinDistance a b <= Nat.max (String.length a) (String.length b))%nat.
Proof.
  destruct a as [|x a']; [simpl; lia|].
  destruct b as [|y b']; [simpl; lia|].
  set (a := String x a'). set (b := String y b').
  change (levenshteinDistance a b) with (last (lev_rows a b 1 (seq 0 (S (String.length a)))) 0%nat).
  destruct (lev_rows_ok a b 0 (seq 0 (S (String.length a)))) as [Hr Hl].
  - intros j v Hj. apply nth_error_In in Hj as Hin. apply in_seq in Hin.
    rewrite nth_error_seq in Hj. destruct (Nat.ltb_spec j (S (String.length a))); [|discriminate].
    injection Hj as <-. unfold lev_ok. lia.
    - apply length_seq.
  - set (r := lev_rows a b 1 _) in *.
    assert (Hn : r <> []) by (intros E; rewrite E in Hl; discriminate).
    pose proof (nth_error_last r 0%nat Hn) as E. rewrite Hl in E.
    replace (S (String.length a) - 1)%nat with (String.length a) in E by lia.
    apply Hr in E. unfold lev_ok in E. unfold a, b in *. simpl in E |- *. lia.
Qed.

Lemma drop_spaces_app (s1 s2 : string) : drop_spaces (s1 ++ s2) = drop_spaces s1 ++ drop_spaces s2.
Proof.
  induction s1 as [|c s1 IH]; simpl; [reflexivity|].
  destruct (is_js_space c); simpl; rewrite IH; reflexivity.
Qed.

Lemma tokenize_acc_spec (s : string) : forall cur,
  drop_spaces cur = cur ->
  Forall (fun t => t <> EmptyString /\ drop_spaces t = t) (tokenize_acc cur s) /\
  fold_right String.append EmptyString (tokenize_acc cur s) = cur ++ drop_spaces s.
Proof.
  induction s as [|c s IH]; intros cur Hc.
  - destruct cur as [|x cur]; simpl.
    + auto.
    + split; [constructor; [split; [discriminate|exact Hc]|constructor]|].
      rewrite string_app_nil. reflexivity.
  - cbn [tokenize_acc drop_spaces]. destruct (is_js_space c) eqn:Hs.
    + destruct (IH EmptyString eq_refl) as [IH1 IH2].
      destruct cur as [|x cur].
      * auto.
      * split; [constructor; [split; [discriminate|exact Hc]|exact IH1]|].
        cbn [fold_right]. rewrite IH2. reflexivity.
    + destruct (IH (cur ++ ch c)) as [IH1 IH2].
      * rewrite drop_spaces_app, Hc. simpl. rewrite Hs. reflexivity.
      * split; [exact IH1|]. rewrite IH2, string_app_assoc. reflexivity.
Qed.

Lemma insert_by_perm {A : Type} (cmp : A -> A -> Z) (x : A) (l : list A) :
  Permutation (insert_by cmp x l) (x :: l).
Proof.
  induction l as [|y l IH]; simpl; [auto|].
  destruct (cmp x y <=? 0); [auto|].
  eapply perm_trans; [apply perm_skip; exact IH|]. apply perm_swap.
Qed.

Lemma sort_by_perm {A : Type} (cmp : A -> A -> Z) (l : list A) :
  Permutation (sort_by cmp l) l.
Proof.
  induction l as [|x l IH]; simpl; [auto|].
  eapply perm_trans; [apply insert_by_perm|]. auto.
Qed.

Lemma insert_by_sorted (x : hit) (l : list hit) :
  Sorted score_ge l ->
  Sorted score_ge (insert_by (fun a b => hit_score b - hit_score a) x l).
Proof.
  induction l as [|y l IH]; intros Hs; simpl; [auto|].
  destruct (Z.leb_spec (hit_score y - hit_score x) 0) as [Hle|Hgt].
  - constructor; [exact Hs|]. constructor. unfold score_ge. lia.
  - apply Sorted_inv in Hs as [Hs Hh]. constructor; [apply IH; exact Hs|].
    destruct l as [|z l]; simpl.
    + constructor. unfold score_ge. lia.
    + destruct (hit_score z - hit_score x <=? 0); constructor.
      * unfold score_ge. lia.
      * inversion Hh; assumption.
Qed.

Lemma sort_by_sorted (l : list hit) :
  Sorted score_ge (sort_by (fun a b => hit_score b - hit_score a) l).
Proof.
  induction l as [|x l IH]; simpl; [auto|]. apply insert_by_sorted. exact IH.
Qed.

Lemma sortResults_perm `{lc : Collator} (l : list hit) (sb : string) : Permutation (sortResults l sb) l.
Proof.
  unfold sortResults. destruct (sort_comparator sb); [apply sort_by_perm|auto].
Qed.

Lemma sortResults_relevance `{lc : Collator} (l : list hit) :
  sortResults l "relevance" = sort_by (fun a b => hit_score b - hit_score a) l.
Proof. reflexivity. Qed.

Lemma Sorted_firstn {A : Type} (R : A -> A -> Prop) (k : nat) (l : list A) :
  Sorted R l -> Sorted R (firstn k l).
Proof.
  revert l. induction k as [|k IH]; intros l Hs; [constructor|].
  destruct l as [|x l]; [constructor|]. simpl.
  apply Sorted_inv in Hs as [Hs Hh]. constructor; [apply IH; exact Hs|].
  destruct k; [constructor|]. destruct l as [|y l]; simpl; [constructor|].
  constructor. inversion Hh; assumption.
Qed.

Lemma score_events_forall (q : list string) (o : search_options) (evs : list event) (hs : list hit) :
  score_events q o evs = Some hs ->
  Forall (fun h => calculateMatchScore (hit_event h) q (fields o) (fuzzy o) (caseSensitive o)
                   = Some (hit_score h) /\ 0 < hit_score h /\ In (hit_event h) evs) hs.
Proof.
  revert hs. induction evs as [|ev evs IH]; intros hs H; simpl in H.
  - injection H as <-. constructor.
  - destruct (calculateMatchScore ev q (fields o) (fuzzy o) (caseSensitive o)) as [sc|] eqn:Hc;
      [|discriminate].
    destruct (score_events q o evs) as [hs'|]; [|discriminate].
    injection H as <-. specialize (IH hs' eq_refl).
    assert (IH' : Forall (fun h => calculateMatchScore (hit_event h) q (fields o) (fuzzy o) (caseSensitive o)
                   = Some (hit_score h) /\ 0 < hit_score h /\ In (hit_event h) (ev :: evs)) hs').
    { eapply Forall_impl; [|exact IH]. intros h (H1 & H2 & H3). simpl; auto. }
    destruct (Z.ltb_spec 0 sc); [|exact IH'].
    constructor; [|exact IH']. simpl. auto.
Qed.

(** [search] returns the events of a list of hits, each an event of the input with a positive score equal to [calculateMatchScore] on the query's tokens; sorted by relevance, the scores are non-increasing. *)
Theorem search_hits_scored `{lc : Collator} (q : string) (o : search_options) (evs res : list event) :
  search q o evs = Some res ->
  exists hs, res = map hit_event hs /\
    Forall (fun h => In (hit_event h) evs /\ 0 < hit_score h /\
              calculateMatchScore (hit_event h) (tokenize (if caseSensitive o then q else to_lower q))
                (fields o) (fuzzy o) (caseSensitive o) = Some (hit_score h)) hs /\
    (sortBy o = "relevance" -> Sorted score_ge hs).
Proof.
  unfold search. intros H. destruct (blank q).
  - injection H as <-. exists []. simpl. auto.
  - set (terms := tokenize (if caseSensitive o then q else to_lower q)) in *.
    destruct (score_events terms o evs) as [hs|] eqn:Hse; [|discriminate].
    injection H as <-.
    apply score_events_forall in Hse.
    set (sorted := sortResults hs (sortBy o)).
    assert (Hf : Forall (fun h => In (hit_event h) evs /\ 0 < hit_score h /\
              calculateMatchScore (hit_event h) terms (fields o) (fuzzy o) (caseSensitive o)
                = Some (hit_score h)) sorted).
    { eapply Permutation_Forall; [apply Permutation_sym, sortResults_perm|].
      eapply Forall_impl; [|exact Hse]. intros h (H1 & H2 & H3). auto. }
    assert (Hso : sortBy o = "relevance" -> Sorted score_ge sorted).
    { intros E. unfold sorted. rewrite E. apply sort_by_sorted. }
    destruct (limit o) as [l|].
    + destruct (l =? 0).
      * exists sorted. auto.
      * exists (slice0 sorted l). split; [reflexivity|]. unfold slice0. split.
        -- apply Forall_forall. intros h Hh. apply in_firstn_in in Hh. exact (proj1 (Forall_forall _ _) Hf h Hh).
        -- intros E. apply Sorted_firstn. auto.
    + exists sorted. auto.
Qed.

Lemma insert_by_sorted_gen {A : Type} (cmp : A -> A -> Z)
    (Hanti : forall a b, 0 < cmp a b -> cmp b a <= 0) (x : A) (l : list A) :
  Sorted (fun a b => cmp a b <= 0) l -> Sorted (fun a b => cmp a b <= 0) (insert_by cmp x l).
Proof.
  induction l as [|y l IH]; intros Hs; simpl; [auto|].
  destruct (Z.leb_spec (cmp x y) 0) as [Hle|Hgt].
  - constructor; [exact Hs|]. constructor. exact Hle.
  - apply Sorted_inv in Hs as [Hs Hh]. constructor; [apply IH; exact Hs|].
    destruct l as [|z l]; simpl.
    + constructor. apply Hanti. exact Hgt.
    + destruct (cmp x z <=? 0); constructor.
      * apply Hanti. exact Hgt.
      * inversion Hh; assumption.
Qed.

Lemma sort_by_sorted_gen {A : Type} (cmp : A -> A -> Z)
    (Hanti : forall a b, 0 < cmp a b -> cmp b a <= 0) (l : list A) :
  Sorted (fun a b => cmp a b <= 0) (sort_by cmp l).
Proof.
  induction l as [|x l IH]; simpl; [auto|]. apply insert_by_sorted_gen; assumption.
Qed.

Lemma string_compare_anti (a b : string) : string_compare b a = - string_compare a b.
Proof.
  revert b. induction a as [|x a IH]; intros [|y b]; simpl; try reflexivity.
  destruct (Z.ltb_spec (Z.of_nat (nat_of_ascii x)) (Z.of_nat (nat_of_ascii y)));
  destruct (Z.ltb_spec (Z.of_nat (nat_of_ascii y)) (Z.of_nat (nat_of_ascii x))); try lia.
  apply IH.
Qed.

Lemma sort_comparator_anti `{lc : Collator} (sb : string) (cmp : hit -> hit -> Z) :
  (forall a b, Z.sgn (localeCompare b a) = - Z.sgn (localeCompare a b)) ->
  sort_comparator sb = Some cmp -> forall a b, 0 < cmp a b -> cmp b a <= 0.
Proof.
  unfold sort_comparator. intros Hlc E a b.
  destruct (String.eqb sb "relevance"); [injection E as <-; lia|].
  destruct (String.eqb sb "date").
  - injection E as <-.
    destruct (start_num (hit_event a)), (start_num (hit_event b)); lia.
  - destruct (String.eqb sb "title"); [|discriminate].
    injection E as <-. intros Hp.
    specialize (Hlc (title (hit_event a)) (title (hit_event b))).
    apply Z.sgn_pos_iff in Hp. rewrite Hp in Hlc.
    destruct (Z.sgn_spec (localeCompare (title (hit_event b)) (title (hit_event a))))
      as [[_ E]|[[_ E]|[_ E]]]; lia.
Qed.

(** [sortResults] permutes its input; with a known sort key its output is ordered by that key's comparator (for ['title'], [localeCompare] on the titles, when it is a consistent comparator: swapping its arguments flips its sign), and with an unknown key the input is returned unchanged. *)
Theorem sortResults_ordered `{lc : Collator} (l : list hit) (sb : string) :
  (forall a b, Z.sgn (localeCompare b a) = - Z.sgn (localeCompare a b)) ->
  Permutation (sortResults l sb) l /\
  (forall cmp, sort_comparator sb = Some cmp -> Sorted (fun a b => cmp a b <= 0) (sortResults l sb)) /\
  (sort_comparator sb = None -> sortResults l sb = l).
Proof.
  intros Hlc. split; [|split].
  - unfold sortResults. destruct (sort_comparator sb); [apply sort_by_perm|auto].
  - intros cmp E. unfold sortResults. rewrite E. apply sort_by_sorted_gen.
    apply sort_comparator_anti with sb; [exact Hlc | exact E].
  - intros E. unfold sortResults. rewrite E. reflexivity.
Qed.

(** The score of one term against one field value lies in 0..10; a positive score means the value contains the term, or, with fuzzy matching, a score of 3..5 for a term whose length differs from the value's by at most 2. *)
Theorem term_score_range (fz : bool) (v t : string) :
  0 <= term_score fz v t <= 10 /\
  (0 < term_score fz v t ->
   includes v t = true \/
   (fz = true /\ 3 <= term_score fz v t <= 5 /\
    (String.length t - String.length v <= 2)%nat /\ (String.length v - String.length t <= 2)%nat)).
Proof.
  pose proof (lev_bounds t v) as (H1 & H2 & _).
  unfold term_score. destruct (includes v t); [lia|].
  destruct fz; [|lia].
  destruct (Z.leb_spec (Z.of_nat (levenshteinDistance t v)) 2); [|lia].
  split; [lia|]. intros _. right. lia.
Qed.


Lemma mem_false_not_in (x : string) (l : list string) : mem x l = false -> ~ In x l.
Proof.
  unfold mem. intros H Hin. assert (existsb (String.eqb x) l = true).
  { apply existsb_exists. exists x. split; [exact Hin|apply String.eqb_refl]. }
  congruence.
Qed.

Lemma mem_true_in (x : string) (l : list string) : mem x l = true -> In x l.
Proof.
  unfold mem. intros H. apply existsb_exists in H as (y & Hy & E).
  apply String.eqb_eq in E. subst. exact Hy.
Qed.

Lemma NoDup_snoc {A : Type} (l : list A) (x : A) : NoDup l -> ~ In x l -> NoDup (l ++ [x]).
Proof.
  intros H Hx. apply (Permutation_NoDup (l := x :: l)).
  - apply Permutation_cons_append.
  - constructor; assumption.
Qed.

Section Suggestions.
Variables (np field : string) (lim : Z) (E : list event).

Lemma suggestions_loop_spec (evs : list event) : forall acc res,
  incl evs E -> NoDup acc -> Forall (sugg_ok np field E) acc ->
  Z.of_nat (length acc) <= Z.max 0 (lim - 1) ->
  suggestions_loop np field lim evs acc = Some res ->
  NoDup res /\ Forall (sugg_ok np field E) res /\ Z.of_nat (length res) <= Z.max 1 lim.
Proof.
  induction evs as [|ev evs IH]; intros acc res Hi Hn Hf Hl H; cbn [suggestions_loop] in H.
  - injection H as <-. repeat split; auto. lia.
  - assert (Hi' : incl evs E) by (intros x Hx; apply Hi; right; exact Hx).
    destruct (field_value ev field) as [value| |] eqn:Hv; [| eauto | discriminate].
    destruct (includes (to_lower value) np) eqn:Hinc; [|eauto].
    set (acc' := if mem value acc then acc else (acc ++ [value])%list) in H.
    assert (Hn' : NoDup acc').
    { unfold acc'. destruct (mem value acc) eqn:Hm; [exact Hn|].
      apply NoDup_snoc; [exact Hn|apply mem_false_not_in; exact Hm]. }
    assert (Hf' : Forall (sugg_ok np field E) acc').
    { unfold acc'. destruct (mem value acc); [exact Hf|].
      apply Forall_app. split; [exact Hf|]. constructor; [|constructor].
      split; [exact Hinc|]. exists ev. split; [apply Hi; left; reflexivity|exact Hv]. }
    assert (Hl' : Z.of_nat (length acc') <= Z.of_nat (length acc) + 1).
    { unfold acc'. destruct (mem value acc); [lia|]. rewrite length_app. simpl. lia. }
    destruct (Z.leb_spec lim (Z.of_nat (length acc'))) as [Hge|Hlt].
    + injection H as <-. repeat split; auto. lia.
    + eapply IH; [exact Hi'|exact Hn'|exact Hf'| lia | exact H].
Qed.
End Suggestions.

(** [getSuggestions] returns distinct values, at most max(1, limit) of them, each containing the partial text case-insensitively and each the value of the chosen field of some input event. *)
Theorem getSuggestions_spec (partial : string) (o : suggestion_options) (evs : list event)
    (l : list string) :
  getSuggestions partial o evs = Some l ->
  NoDup l /\ Z.of_nat (length l) <= Z.max 1 (s_limit o) /\
  Forall (fun v => includes (to_lower v) (to_lower partial) = true /\
                   exists ev, In ev evs /\ field_value ev (s_field o) = FStr v) l.
Proof.
  unfold getSuggestions. intros H. destruct partial as [|c p].
  - injection H as <-. repeat split; auto; [constructor|simpl; lia].
  - destruct (Z.of_nat (String.length (String c p)) <? s_minLength o).
    + injection H as <-. repeat split; auto; [constructor|simpl; lia].
    + apply suggestions_loop_spec with (E := evs) in H as (H1 & H2 & H3);
        [| apply incl_refl | constructor | constructor | simpl; lia].
      auto.
Qed.

Lemma filter_events_incl (fl : filters) (evs l : list event) :
  filter_events fl evs = Some l -> incl l evs.
Proof.
  intros Hf. unfold filter_events in Hf. cbv zeta in Hf.
  destruct (nonempty (f_attendees fl)) as [atts|].
  - match type of Hf with
    | match ?x with None => None | Some _ => _ end = _ => destruct x as [e4|] eqn:E4
    end; [|discriminate].
    inversion Hf; subst l. apply filter_opt_incl in E4.
    apply incl_tran with e4; [|apply incl_tran with (1 := E4)];
    repeat match goal with
           | |- incl (filter _ _) _ => apply incl_filter_trans
           | |- incl (match ?x with _ => _ end) _ => destruct x
           | |- incl ?l ?l => apply incl_refl
           end.
  - inversion Hf; subst l.
    repeat match goal with
           | |- incl (filter _ _) _ => apply incl_filter_trans
           | |- incl (match ?x with _ => _ end) _ => destruct x
           | |- incl ?l ?l => apply incl_refl
           end.
Qed.

(** Every event kept by [filter] is an input event that satisfies each filter that is set: status, all-day flag, presence of reminders, custom predicate, and a non-empty category list, which its [category] is in or, when it has no [category], one of its [categories] is in. *)
Theorem filter_events_sound (fl : filters) (evs l : list event) :
  filter_events fl evs = Some l ->
  forall e, In e l ->
    In e evs /\
    (forall ss, f_status fl = Some ss -> In (status e) ss) /\
    (forall b, f_allDay fl = Some b -> allDay e = b) /\
    (forall b, f_hasReminders fl = Some b -> (match reminders e with [] => false | _ => true end) = b) /\
    (forall p, f_custom fl = Some p -> p e = true) /\
    (forall cats, nonempty (f_categories fl) = Some cats ->
       In (category e) cats \/
       (category e = EmptyString /\ exists c, In c (categories_ e) /\ In c cats)).
Proof.
  intros Hf e He. split; [eapply filter_events_incl; eauto|].
  unfold filter_events in Hf. cbv zeta in Hf.
  match type of Hf with
  | match ?x with None => None | Some _ => _ end = _ => destruct x as [e4|] eqn:E4
  end; [|discriminate].
  injection Hf as <-.
  assert (H4 : forall cats, nonempty (f_categories fl) = Some cats -> In e e4 ->
                 In (category e) cats \/
                 (category e = EmptyString /\ exists c, In c (categories_ e) /\ In c cats)).
  { intros cats Hc Hin.
    assert (Hin3 : In e (match nonempty (f_locations fl) with
                  | Some locs => filter (fun ev => match location ev with
                                                    | EmptyString => false
                                                    | l0 => mem (to_lower l0) (map to_lower locs)
                                                    end)
                                   (match nonempty (f_categories fl) with
                                    | Some cats0 => filter (fun ev => match category ev with
                                                   | EmptyString =>
                                                       existsb (fun cat => mem cat cats0)
                                                         (categories_ ev)
                                                   | c => mem c cats0
                                                   end) (match f_dateRange fl with
                                                         | Some r => filter (fun ev => isInDateRange ev r) evs
                                                         | None => evs end)
                                    | None => match f_dateRange fl with
                                                         | Some r => filter (fun ev => isInDateRange ev r) evs
                                                         | None => evs end
                                    end)
                  | None => match nonempty (f_categories fl) with
                                    | Some cats0 => filter (fun ev => match category ev with
                                                   | EmptyString =>
                                                       existsb (fun cat => mem cat cats0)
                                                         (categories_ ev)
                                                   | c => mem c cats0
                                                   end) (match f_dateRange fl with
                                                         | Some r => filter (fun ev => isInDateRange ev r) evs
                                                         | None => evs end)
                                    | None => match f_dateRange fl with
                                                         | Some r => filter (fun ev => isInDateRange ev r) evs
                                                         | None => evs end
                                    end
                  end)).
    { destruct (nonempty (f_attendees fl)).
      - apply filter_opt_incl in E4. apply E4. exact Hin.
      - injection E4 as <-. exact Hin. }
    rewrite Hc in Hin3.
    destruct (nonempty (f_locations fl)); [apply filter_In in Hin3 as [Hin3 _]|];
      apply filter_In in Hin3 as [_ Hm];
      (destruct (category e) as [|a s0];
       [ right; split; [reflexivity|]; apply existsb_exists in Hm as (c & Hc1 & Hc2);
         exists c; split; [exact Hc1 | apply mem_true_in; exact Hc2]
       | left; apply mem_true_in; exact Hm ]). }
  clear E4.
  destruct (f_custom fl) as [p|] eqn:Hcu; [apply filter_In in He as [He Hp]|].
  all: destruct (f_hasReminders fl) as [br|] eqn:Hhr; [apply filter_In in He as [He Hr]|].
  all: destruct (f_recurring fl) as [bc|]; [apply filter_In in He as [He _]|].
  all: destruct (f_allDay fl) as [ba|] eqn:Had; [apply filter_In in He as [He Ha]|].
  all: destruct (f_status fl) as [ss|] eqn:Hst; [apply filter_In in He as [He Hs]|].
  all: split; [|split; [|split; [|split]]];
    [ intros x E; inversion E; subst; apply mem_true_in; assumption
    | intros x E; inversion E; subst; apply Bool.eqb_prop; assumption
    | intros x E; inversion E; subst;
      match goal with H : (if ?b then _ else _) = true |- _ => destruct b end;
      destruct (reminders e); simpl in *; congruence
    | intros x E; inversion E; subst; assumption
    | intros cats Hc; apply H4; assumption ].
Qed.


(** [advancedSearch] returns a sublist of the filtered events; with a non-blank query each returned event has the id of some unlimited search result, and a positive limit bounds the result's length. *)
Theorem advancedSearch_spec `{lc : Collator} (q : string) (fl : filters) (o : search_options) (evs r : list event) :
  advancedSearch q fl o evs = Some r ->
  exists filtered, filter_events fl evs = Some filtered /\ incl r filtered /\
    (blank q = false -> exists sr, search q (with_limit o None) evs = Some sr /\
                          forall e, In e r -> In (id e) (map id sr)) /\
    (forall l, limit o = Some l -> 0 < l -> Z.of_nat (length r) <= l).
Proof.
  unfold advancedSearch. intros H.
  destruct (filter_events fl evs) as [filtered|]; [|discriminate].
  exists filtered. split; [reflexivity|].
  set (finish := fun evs0 : list event => match limit o with
                 | Some l => if l =? 0 then evs0 else slice0 evs0 l
                 | None => evs0 end) in H.
  assert (Hfin : forall evs0, incl (finish evs0) evs0 /\
                   (forall l, limit o = Some l -> 0 < l -> Z.of_nat (length (finish evs0)) <= l)).
  { intros evs0. unfold finish. destruct (limit o) as [lm|].
    - destruct (Z.eqb_spec lm 0) as [E0|Hl].
      + split; [apply incl_refl|intros l' E Hp; injection E as <-; lia].
      + split.
        * intros x Hx. unfold slice0 in Hx. apply in_firstn_in in Hx. exact Hx.
        * intros l' E Hp. injection E as <-. unfold slice0.
          rewrite length_firstn. destruct (Z.ltb_spec lm 0); [lia|]. lia.
    - split; [apply incl_refl|discriminate]. }
  destruct (blank q) eqn:Hb.
  - injection H as <-. destruct (Hfin filtered) as [H1 H2].
    split; [exact H1|]. split; [discriminate|exact H2].
  - destruct (search q (with_limit o None) evs) as [sr|]; [|discriminate].
    injection H as <-.
    destruct (Hfin (filter (fun e => mem (id e) (map id sr)) filtered)) as [H1 H2].
    split; [|split; [|exact H2]].
    + intros x Hx. apply H1 in Hx. apply filter_In in Hx. tauto.
    + intros _. exists sr. split; [reflexivity|].
      intros e He. apply H1 in He. apply filter_In in He as [_ He].
      apply mem_true_in. exact He.
Qed.

Section ParseInvariant.
Variables (tz : time_zone) (gen : nat -> string) (Q : event -> Prop).
Hypothesis HQ : forall n c, Q (fst (normalizeEvent gen n c)).

Lemma parse_entry_forall (st : pstate) (P V : string) :
  Forall Q (p_events st) -> Forall Q (p_events (parse_entry tz gen st P V)).
Proof.
  intros H. unfold parse_entry.
  destruct (String.eqb P "BEGIN").
  { destruct (String.eqb V "VEVENT"); [exact H|].
    destruct (String.eqb V "VALARM"); exact H. }
  destruct (String.eqb P "END").
  { destruct (String.eqb V "VEVENT"), (p_cur st) as [cur|];
      try (destruct (String.eqb V "VALARM"); exact H).
    pose proof (HQ (p_uid st) cur) as Hc.
    destruct (normalizeEvent gen (p_uid st) cur) as [e n]. simpl.
    apply Forall_app. split; [exact H|constructor; [exact Hc|constructor]]. }
  destruct (p_inEvent st && negb (p_inAlarm st)); [|exact H].
  destruct (p_cur st); exact H.
Qed.

Lemma parse_lines_forall (lines : list string) : forall st,
  Forall Q (p_events st) -> Forall Q (p_events (parse_lines tz gen st lines)).
Proof.
  induction lines as [|line lines IH]; intros st H; [exact H|].
  unfold parse_lines. cbn [fold_left]. apply IH.
  unfold parse_line.
  destruct (blank line); [exact H|].
  match goal with |- context [if ?c then st else _] => destruct c end; [exact H|].
  apply parse_entry_forall. exact H.
Qed.

Lemma parse_forall (n : nat) (s : string) : Forall Q (fst (parse tz gen n s)).
Proof. apply parse_lines_forall. constructor. Qed.
End ParseInvariant.

Lemma normalizeEvent_title (gen : nat -> string) (n : nat) (c : event) :
  title (fst (normalizeEvent gen n c)) <> EmptyString.
Proof.
  unfold normalizeEvent.
  destruct (match id c with EmptyString => _ | _ => _ end) as [e1 n1].
  destruct (title e1) eqn:Ht; simpl; [discriminate|]. rewrite Ht. discriminate.
Qed.

Lemma normalizeEvent_id (gen : nat -> string) (n : nat) (c : event) :
  (forall k, gen k <> EmptyString) -> id (fst (normalizeEvent gen n c)) <> EmptyString.
Proof.
  intros Hg. unfold normalizeEvent.
  destruct (id c) eqn:Hi; simpl.
  - destruct (title c); simpl; apply Hg.
  - destruct (title c); simpl; rewrite Hi; discriminate.
Qed.

(** Every record returned by [parse] has a non-empty title, and a non-empty id when the id generator never returns the empty string. *)
Theorem parse_titles_ids_nonempty (tz : time_zone) (gen : nat -> string) (n : nat) (s : string) :
  Forall (fun e => title e <> EmptyString) (fst (parse tz gen n s)) /\
  ((forall k, gen k <> EmptyString) -> Forall (fun e => id e <> EmptyString) (fst (parse tz gen n s))).
Proof.
  split.
  - apply parse_forall. apply normalizeEvent_title.
  - intros Hg. apply parse_forall. intros m c. apply normalizeEvent_id. exact Hg.
Qed.

Lemma validate_events_facts (evs : list event) : forall i r,
  Forall (fun e => title e <> EmptyString) evs ->
  valid (validate_events i evs r) = valid r && forallb has_start evs /\
  v_warnings (validate_events i evs r) = v_warnings r /\
  ((valid r = true <-> v_errors r = []) ->
   (valid (validate_events i evs r) = true <-> v_errors (validate_events i evs r) = [])).
Proof.
  induction evs as [|ev evs IH]; intros i r Ht.
  - simpl. rewrite andb_true_r. auto.
  - inversion Ht as [|? ? Hev Ht']; subst. cbn [validate_events forallb].
    set (label := "Event " ++ Z_to_radix 10 (Z.of_nat (S i))).
    set (r1 := match start ev with
               | None => mkValidation false ((v_errors r ++ [(label ++ ": Missing start date")%string])%list)
                                      (v_warnings r)
               | Some _ => r end).
    assert (Hr2 : match title ev, description ev with
                  | EmptyString, EmptyString =>
                      mkValidation (valid r1) (v_errors r1)
                        ((v_warnings r1 ++ [(label ++ ": No title or description")%string])%list)
                  | _, _ => r1 end = r1).
    { destruct (title ev); [congruence|reflexivity]. }
    rewrite Hr2.
    destruct (IH (S i) r1 Ht') as (H1 & H2 & H3).
    split; [|split].
    + rewrite H1. unfold r1, has_start. destruct (start ev); simpl; [reflexivity|].
      rewrite andb_false_r. reflexivity.
    + rewrite H2. unfold r1. destruct (start ev); reflexivity.
    + intros Hr. apply H3. unfold r1. destruct (start ev); simpl; [exact Hr|].
      split; [discriminate|intros E; destruct (v_errors r); discriminate].
Qed.

(** [validate] is valid exactly when the text has BEGIN:VCALENDAR and END:VCALENDAR and every parsed event has a start; it is valid exactly when it reports no error; its warnings are a missing VERSION and an empty event list, in that order. *)
Theorem validate_verdict (tz : time_zone) (gen : nat -> string) (n : nat) (s : string) :
  let r := fst (validate tz gen n s) in
  valid r = includes s "BEGIN:VCALENDAR" && includes s "END:VCALENDAR" &&
            forallb has_start (fst (parse tz gen n s)) /\
  (valid r = true <-> v_errors r = []) /\
  v_warnings r = ((if includes s "VERSION:" then [] else ["Missing VERSION property"]) ++
                  (match fst (parse tz gen n s) with [] => ["No events found in calendar"] | _ => [] end))%list.
Proof.
  cbv zeta. unfold validate.
  pose proof (parse_forall tz gen (fun e => title e <> EmptyString) (normalizeEvent_title gen) n s) as Ht.
  destruct (parse tz gen n s) as [evs n']. simpl fst in *.
  set (r3 := if includes s "VERSION:" then _ else _).
  set (r4 := match evs with [] => _ | _ => _ end).
  destruct (validate_events_facts evs 0 r4 Ht) as (H1 & H2 & H3).
  simpl fst. split; [|split].
  - rewrite H1. unfold r4, r3. destruct (includes s "BEGIN:VCALENDAR"), (includes s "END:VCALENDAR"),
      (includes s "VERSION:"), evs; reflexivity.
  - apply H3. unfold r4, r3. destruct (includes s "BEGIN:VCALENDAR"), (includes s "END:VCALENDAR"),
      (includes s "VERSION:"), evs; simpl; split; congruence.
  - rewrite H2. unfold r4, r3. destruct (includes s "BEGIN:VCALENDAR"), (includes s "END:VCALENDAR"),
      (includes s "VERSION:"), evs; reflexivity.
Qed.

Lemma fold_chunks_pieces (f : nat) : forall rem,
  (String.length rem <= f)%nat ->
  exists rest, fold_chunks f rem = map (String " ") rest /\
    rem = fold_right String.append EmptyString rest /\
    Forall (fun c => c <> EmptyString /\ (String.length c <= 74)%nat) rest.
Proof.
  induction f as [|f IH]; intros rem Hlen.
  - destruct rem; [|simpl in Hlen; lia]. exists []. simpl. auto.
  - destruct rem as [|x r]; [exists []; simpl; auto|].
    cbn [fold_chunks]. set (rem := String x r) in *.
    set (chunk := String.substring 0 (maxLineLength - 1) rem).
    set (next := String.substring (String.length chunk) (String.length rem - String.length chunk) rem).
    assert (Hcl : String.length chunk = Nat.min (maxLineLength - 1) (String.length rem))
      by apply substring_length.
    destruct (IH next) as (rest & H1 & H2 & H3).
    { eapply Nat.le_trans; [apply substring_length_le|]. rewrite Hcl.
      unfold maxLineLength, rem in *. simpl String.length in *. lia. }
    exists (chunk :: rest). split; [|split].
    + rewrite H1. reflexivity.
    + cbn [fold_right]. rewrite <- H2. symmetry. exact (substring_split (maxLineLength - 1) rem).
    + constructor; [|exact H3]. split.
      * unfold chunk, rem, maxLineLength. simpl. discriminate.
      * rewrite Hcl. unfold maxLineLength. lia.
Qed.

(** [foldLine] splits a line into a first piece of at most 75 characters and continuation pieces, each non-empty and at most 74 characters after its leading space; the pieces concatenate to the line. *)
Theorem fold_line_pieces (L : string) :
  exists first rest,
    fold_line L = join CRLF (first :: map (String " ") rest) /\
    L = first ++ fold_right String.append EmptyString rest /\
    (String.length first <= 75)%nat /\
    Forall (fun c => c <> EmptyString /\ (String.length (String " " c) <= 75)%nat) rest.
Proof.
  unfold fold_line. destruct (Nat.leb_spec (String.length L) maxLineLength) as [Hs|Hl].
  - exists L, []. simpl. rewrite string_app_nil. unfold maxLineLength in Hs. auto.
  - set (first := String.substring 0 maxLineLength L).
    set (remaining := String.substring maxLineLength (String.length L - maxLineLength) L).
    destruct (fold_chunks_pieces (String.length remaining) remaining (le_n _)) as (rest & H1 & H2 & H3).
    exists first, rest. split; [|split; [|split]].
    + rewrite H1. reflexivity.
    + rewrite <- H2. pose proof (substring_split maxLineLength L) as Hsp. cbv zeta in Hsp.
      rewrite substring_length in Hsp. rewrite Nat.min_l in Hsp by lia. symmetry. exact Hsp.
    + apply substring_length_le.
    + eapply Forall_impl; [|exact H3]. intros c [Hc1 Hc2]. simpl. split; [exact Hc1|lia].
Qed.

(** A date-only value written by [formatDate] is read back by [parseDate] as the instant the zone gives to local midnight of the same day (on a day whose midnight is skipped, read with the offset before the change), for local years 1000 to 9999 and offsets below one day. *)
Theorem parseDate_formatDate_dateOnly (tz : time_zone) (t y : Z) (property : string) :
  Forall (fun o => Z.abs o < msPerDay) (zone_offsets tz) ->
  Z.abs t + 3 * msPerDay <= 8640000000000000 ->
  getFullYear tz (DValid t) = Some y -> 1000 <= y <= 9999 ->
  parseDate tz (formatDate tz (DValid t) true) property =
    DValid (UTC tz (LocalTime tz t - LocalTime tz t mod msPerDay)).
Proof.
  intros Hoff Ht Hy Hyr.
  unfold getFullYear, local_field in Hy.
  pose proof (civil_from_days_spec (LocalTime tz t / msPerDay)) as Hc.
  destruct (civil_from_days (LocalTime tz t / msPerDay)) as [[y' m] d] eqn:Hcv.
  injection Hy as <-. destruct Hc as [Hm [Hd Hdays]].
  assert (Hf : formatDate tz (DValid t) true =
               Z_to_radix 10 y' ++ padStart2 (Z_to_radix 10 m) ++ padStart2 (Z_to_radix 10 d)).
  { unfold formatDate, getFullYear, getMonth, getDate, local_field.
    rewrite Hcv. simpl option_map. unfold num_to_string. rewrite Z.sub_add. reflexivity. }
  rewrite Hf. clear Hf.
  set (l := LocalTime tz t) in *.
  destruct (year_facts y' Hyr) as [HYl [_ [HYn [[c [s [HYs Hc]]] _]]]].
  destruct (two_digit_facts m ltac:(lia)) as [HMl [_ [HMn _]]].
  destruct (two_digit_facts d ltac:(lia)) as [HDl [_ [HDn _]]].
  set (Ys := Z_to_radix 10 y') in *.
  set (Ms := padStart2 (Z_to_radix 10 m)) in *.
  set (Ds := padStart2 (Z_to_radix 10 d)) in *.
  set (str := Ys ++ Ms ++ Ds).
  assert (Hstrip : strip_tzid str = str).
  { unfold strip_tzid, str. rewrite HYs. cbn [String.append starts_with]. rewrite ascii_eqb_sym, Hc. reflexivity. }
  assert (Hlen : String.length str = 8%nat).
  { unfold str. rewrite !string_length_app. rewrite HYl, HMl, HDl. reflexivity. }
  unfold parseDate. rewrite Hstrip, Hlen. rewrite orb_true_r. cbv iota.
  unfold js_substr, str.
  rewrite (substring_app_exact Ys _ 4 HYl).
  rewrite !(substring_app_skip Ys) by lia. rewrite HYl. simpl Nat.sub.
  rewrite (substring_app_exact Ms _ 2 HMl).
  rewrite !(substring_app_skip Ms) by lia. rewrite HMl. simpl Nat.sub.
  replace (String.substring 0 2 Ds) with Ds by (rewrite <- HDl; symmetry; apply substring_full).
  rewrite HYn, HMn, HDn.
  unfold new_Date, full_year, minus1, option_map, MakeDay, MakeTime, MakeDate.
  rewrite (proj2 (Z.leb_gt y' 99)) by lia. rewrite andb_false_r.
  rewrite (Z.div_small (m - 1) 12) by lia. rewrite (Z.mod_small (m - 1) 12) by lia.
  rewrite Z.add_0_r, Z.sub_add, days_from_civil_day, Z.add_0_r, Hdays.
  assert (Hval : l / msPerDay * msPerDay = l - l mod msPerDay)
    by (unfold msPerDay; Z.div_mod_to_equations; lia).
  rewrite Hval. unfold TimeClip.
  rewrite (proj2 (Z.leb_le _ _)); [reflexivity|].
  rewrite Forall_forall in Hoff.
  destruct (UTC_offset tz (l - l mod msPerDay)) as (o & Ho & ->).
  pose proof (Hoff _ Ho) as Ho'. pose proof (Hoff _ (offset_at_in tz t)) as Ht'.
  pose proof (Z.mod_pos_bound l msPerDay).
  subst l. unfold LocalTime in *. unfold msPerDay in *. lia.
Qed.

Lemma eventToICS_none (tz : time_zone) (tzname : string) (gen : nat -> string) (n : nat) (now : Z) (ev : event) :
  fst (eventToICS tz tzname gen n now ev) = None <-> start ev = None.
Proof.
  unfold eventToICS.
  destruct (match id ev with EmptyString => _ | _ => _ end) as [uid n'].
  destruct (start ev); simpl; split; congruence.
Qed.

Lemma events_to_ics_none (tz : time_zone) (tzname : string) (gen : nat -> string) (now : Z) (evs : list event) :
  forall n, fst (events_to_ics tz tzname gen n now evs) = None <-> Exists (fun e => start e = None) evs.
Proof.
  induction evs as [|ev evs IH]; intros n; simpl.
  - split; [discriminate|intros H; inversion H].
  - pose proof (eventToICS_none tz tzname gen n now ev) as He.
    destruct (eventToICS tz tzname gen n now ev) as [[ls|] n1]; simpl in He.
    + specialize (IH n1).
      destruct (events_to_ics tz tzname gen n1 now evs) as [[ls'|] n2]; simpl in IH |- *.
      * split; [discriminate|]. intros Hx. inversion Hx; subst.
        -- apply He in H0. discriminate.
        -- apply IH in H0. discriminate.
      * split; [intros _; right; apply IH; reflexivity|reflexivity].
    + split; [intros _; left; apply He; reflexivity|reflexivity].
Qed.

Lemma export_none_iff (tz : time_zone) (tzname : string) (gen : nat -> string)
    (n : nat) (now : Z) (evs : list event) (calendarName : string) :
  fst (export tz tzname gen n now evs calendarName) = None <->
  Exists (fun e => start e = None) evs.
Proof.
  rewrite <- (events_to_ics_none tz tzname gen now evs n). unfold export.
  destruct (events_to_ics tz tzname gen n now evs) as [[body|] n']; simpl; split; congruence.
Qed.

Section Frame.
Context {S : Type} (I1 I2 : CalendarState S).
Hypothesis Hg : forall i s, @getEvent S I1 i s = @getEvent S I2 i s.
Hypothesis Ha : forall e s, @addEvent S I1 e s = @addEvent S I2 e s.
Hypothesis Hu : forall i e s, @updateEvent S I1 i e s = @updateEvent S I2 i e s.

Lemma import_step_frame (o : import_options) (now : Z) (ev : event) (s : S) :
  @import_step S I1 o now ev s = @import_step S I2 o now ev s.
Proof.
  unfold import_step. rewrite Hg.
  destruct (@getEvent S I2 (id ev) s) as [[[x|]|e] s1]; [|rewrite Ha|reflexivity].
  - rewrite Hu, Ha. reflexivity.
  - reflexivity.
Qed.

Lemma import_loop_frame (o : import_options) (now : Z) (evs : list event) : forall r s,
  @import_loop S I1 o now evs r s = @import_loop S I2 o now evs r s.
Proof.
  induction evs as [|ev evs IH]; intros r s; [reflexivity|].
  cbn [import_loop]. rewrite import_step_frame.
  destruct (@import_step S I2 o now ev s) as [[out ev'] s1].
  destruct out as [f|[msg|]]; [rewrite IH|rewrite IH|]; reflexivity.
Qed.
End Frame.

(** With merge set, [import] only calls [getEvent], [addEvent] and [updateEvent]: two collaborators that agree on these give the same result, counter and state. *)
Theorem import_merge_frame {S : Type} (I1 I2 : CalendarState S) (tz : time_zone) (gen : nat -> string)
    (n : nat) (now : Z) (input : ics_input) (o : import_options) (s : S) :
  (forall i s, @getEvent S I1 i s = @getEvent S I2 i s) ->
  (forall e s, @addEvent S I1 e s = @addEvent S I2 e s) ->
  (forall i e s, @updateEvent S I1 i e s = @updateEvent S I2 i e s) ->
  merge o = true ->
  @import S I1 tz gen n now input o s = @import S I2 tz gen n now input o s.
Proof.
  intros Hg Ha Hu Hm. unfold import.
  destruct (getICSString input) as [str|e]; [|reflexivity].
  destruct (parse tz gen n str) as [evs n'].
  rewrite (import_loop_frame I1 I2 Hg Ha Hu).
  destruct (@import_loop S I2 o now evs empty_results s) as [[[r evs']|e] s1]; [|reflexivity].
  rewrite Hm. reflexivity.
Qed.

Section Accounting.
Context {S : Type} `{CalendarState S}.

Lemma import_step_size (o : import_options) (now : Z) (ev : event) (s : S) :
  forall f ev' s1, import_step o now ev s = (ROk f, ev', s1) ->
  forall r, results_size (f r) = Datatypes.S (results_size r).
Proof.
  intros f ev' s1 E r. unfold import_step in E.
  assert (Hadd : forall e, results_size (add_imported e r) = Datatypes.S (results_size r) /\
                           results_size (add_updated e r) = Datatypes.S (results_size r) /\
                           (forall m, results_size (add_skipped e m r) = Datatypes.S (results_size r))).
  { intros e. unfold results_size, add_imported, add_updated, add_skipped.
    repeat split; intros; simpl; rewrite length_app; simpl; lia. }
  repeat match type of E with
  | (if ?c then _ else _) = _ => destruct c
  | (let '(_, _) := ?x in _) = _ => destruct x as [[|] ?] eqn:?
  | (match ?x with (_, _) => _ end) = _ => destruct x as [[|] ?] eqn:?
  | (match ?x with Some _ => _ | None => _ end) = _ => destruct x
  | (ROk _, _, _) = _ => injection E as <- <- <-
  | (RThrow _, _, _) = _ => discriminate E
  end; try apply Hadd.
Qed.

Lemma import_loop_size (o : import_options) (now : Z) (evs : list event) : forall r s r' evs' s',
  import_loop o now evs r s = (ROk (r', evs'), s') ->
  results_size r' = (results_size r + length evs)%nat /\ length evs' = length evs.
Proof.
  induction evs as [|ev rest IH]; intros r s r' evs' s' E.
  - simpl in E. injection E as <- <- <-. simpl. lia.
  - cbn [import_loop] in E.
    destruct (import_step o now ev s) as [[out ev1] s1] eqn:Hs.
    destruct out as [f|[msg|]].
    + destruct (import_loop o now rest (f r) s1) as [[[r2 rest2]|] s2] eqn:Hl; [|discriminate].
      injection E as <- <- <-. apply IH in Hl as [Hl1 Hl2].
      rewrite (import_step_size o now ev s f ev1 s1 Hs r) in Hl1. simpl. lia.
    + destruct (import_loop o now rest (add_error ev1 msg r) s1) as [[[r2 rest2]|] s2] eqn:Hl;
        [|discriminate].
      injection E as <- <- <-. apply IH in Hl as [Hl1 Hl2].
      unfold results_size in *. simpl in *. rewrite length_app in Hl1. simpl in Hl1. lia.
    + discriminate.
Qed.

Lemma add_entries (e : event) (r : import_results) :
  Permutation (results_entries (add_imported e r)) (results_entries r ++ [e]) /\
  Permutation (results_entries (add_updated e r)) (results_entries r ++ [e]) /\
  (forall m, Permutation (results_entries (add_skipped e m r)) (results_entries r ++ [e])) /\
  (forall m, Permutation (results_entries (add_error e m r)) (results_entries r ++ [e])).
Proof.
  unfold results_entries, add_imported, add_updated, add_skipped, add_error; simpl.
  repeat split; intros; rewrite ?map_app; simpl; rewrite <- ?app_assoc; simpl.
  - apply Permutation_app_head. rewrite ?app_assoc. apply Permutation_cons_append.
  - do 3 apply Permutation_app_head. apply Permutation_cons_append.
  - do 2 apply Permutation_app_head. rewrite ?app_assoc. apply Permutation_cons_append.
  - reflexivity.
Qed.

Lemma import_step_entries (o : import_options) (now : Z) (ev : event) (s : S) :
  forall f ev' s1, import_step o now ev s = (ROk f, ev', s1) ->
  forall r, Permutation (results_entries (f r)) (results_entries r ++ [ev']).
Proof.
  intros f ev' s1 E r. unfold import_step in E.
  repeat match type of E with
  | (if ?c then _ else _) = _ => destruct c
  | (let '(_, _) := ?x in _) = _ => destruct x as [[|] ?] eqn:?
  | (match ?x with (_, _) => _ end) = _ => destruct x as [[|] ?] eqn:?
  | (match ?x with Some _ => _ | None => _ end) = _ => destruct x
  | (ROk _, _, _) = _ => injection E as <- <- <-
  | (RThrow _, _, _) = _ => discriminate E
  end; apply add_entries.
Qed.

Lemma import_loop_entries (o : import_options) (now : Z) (evs : list event) : forall r s r' evs' s',
  import_loop o now evs r s = (ROk (r', evs'), s') ->
  Permutation (results_entries r') (results_entries r ++ evs').
Proof.
  induction evs as [|ev rest IH]; intros r s r' evs' s' E.
  - simpl in E. injection E as <- <- <-. rewrite app_nil_r. reflexivity.
  - cbn [import_loop] in E.
    destruct (import_step o now ev s) as [[out ev1] s1] eqn:Hs.
    destruct out as [f|[msg|]].
    + destruct (import_loop o now rest (f r) s1) as [[[r2 rest2]|] s2] eqn:Hl; [|discriminate].
      injection E as <- <- <-. apply IH in Hl.
      eapply Permutation_trans; [exact Hl|].
      replace (results_entries r ++ ev1 :: rest2)%list with ((results_entries r ++ [ev1]) ++ rest2)%list
        by (rewrite <- app_assoc; reflexivity).
      apply Permutation_app_tail. exact (import_step_entries o now ev s f ev1 s1 Hs r).
    + destruct (import_loop o now rest (add_error ev1 msg r) s1) as [[[r2 rest2]|] s2] eqn:Hl;
        [|discriminate].
      injection E as <- <- <-. apply IH in Hl.
      eapply Permutation_trans; [exact Hl|].
      replace (results_entries r ++ ev1 :: rest2)%list with ((results_entries r ++ [ev1]) ++ rest2)%list
        by (rewrite <- app_assoc; reflexivity).
      apply Permutation_app_tail. apply add_entries.
    + discriminate.
Qed.

End Accounting.

(** When reading the input succeeds, [import] places every parsed event in exactly one of imported, updated, skipped or errors: the events held by the four lists are, up to order, the parsed events, each as [parse] produced it or, in the clone branch (neither [updateExisting] nor [skipDuplicates]), with the id [generateNewId(now, id)]; and its id counter is the one left by [parse]. *)
Theorem import_accounts_every_event {S : Type} `{CalendarState S} (tz : time_zone) (gen : nat -> string)
    (n : nat) (now : Z) (input : ics_input) (o : import_options) (s : S)
    (str : string) (r : import_results) (n' : nat) (s' : S) :
  getICSString input = ROk str ->
  import tz gen n now input o s = (ROk r, n', s') ->
  (exists evs', Forall2 (fun e e' => e' = e \/ (updateExisting o = false /\ skipDuplicates o = false /\
                                              e' = set_id (generateNewId now (id e)) e))
                  (fst (parse tz gen n str)) evs' /\
     Permutation (results_entries r) evs') /\
  n' = snd (parse tz gen n str).
Proof.
  intros Hi E. unfold import in E. rewrite Hi in E.
  destruct (parse tz gen n str) as [evs n1]. simpl.
  destruct (import_loop o now evs empty_results s) as [[[r1 evs1]|] s1] eqn:Hl; [|discriminate].
  assert (Hp : Permutation (results_entries r1) evs1)
    by (apply import_loop_entries in Hl; exact Hl).
  apply import_loop_records in Hl.
  destruct (merge o).
  - injection E as <- <- <-. eauto.
  - destruct (getEvents s1) as [[ex|] s2]; [|discriminate].
    destruct (remove_absent (map id evs1) ex s2) as [[|] s3]; [|discriminate].
    injection E as <- <- <-. eauto.
Qed.

(** [expandRecurringEvents] maps each event in order: a non-recurring event is kept, a recurring one with a start becomes one occurrence without recurrence whose id is the event id, '-' and the start time; no output event recurs. *)
Theorem expandRecurringEvents_spec (evs : list event) (out : list (event * option string)) :
  expandRecurringEvents evs = Some out ->
  Forall2 (fun ev p =>
    (recurrence_truthy ev = false /\ p = (ev, None)) \/
    (recurrence_truthy ev = true /\
     exists st, start ev = Some st /\
       p = (set_recurrence None (set_id (id ev ++ "-" ++ num_to_string (time_value st)) ev),
            Some (id ev)))) evs out /\
  Forall (fun p => recurrence_truthy (fst p) = false) out.
Proof.
  revert out. induction evs as [|ev evs IH]; intros out E; simpl in E.
  - injection E as <-. split; constructor.
  - destruct (recurrence_truthy ev) eqn:Hr; simpl in E.
    + destruct (start ev) as [st|] eqn:Hs; [|discriminate].
      destruct (expandRecurringEvents evs) as [xs|]; [|discriminate].
      injection E as <-. destruct (IH xs eq_refl) as [H1 H2].
      split; constructor; auto.
      right. split; [exact Hr|]. exists st. auto.
    + destruct (expandRecurringEvents evs) as [xs|]; [|discriminate].
      injection E as <-. destruct (IH xs eq_refl) as [H1 H2].
      split; constructor; auto.
Qed.

Lemma expandRecurringEvents_none (evs : list event) :
  expandRecurringEvents evs = None <->
  Exists (fun ev => recurrence_truthy ev = true /\ start ev = None) evs.
Proof.
  induction evs as [|ev evs IH]; simpl.
  - split; [discriminate|intros H; inversion H].
  - destruct (recurrence_truthy ev) eqn:Hr; simpl.
    + destruct (start ev) as [st|] eqn:Hs.
      * destruct (expandRecurringEvents evs); split; intros H.
        -- discriminate.
        -- inversion H; subst; [destruct H1; congruence|apply IH in H1; discriminate].
        -- right. apply IH. reflexivity.
        -- reflexivity.
      * split; [intros _; left; auto|reflexivity].
    + destruct (expandRecurringEvents evs); split; intros H.
      * discriminate.
      * inversion H; subst; [destruct H1; congruence|apply IH in H1; discriminate].
      * right. apply IH. reflexivity.
      * reflexivity.
Qed.

Lemma expandRecurringEvents_starts (evs : list event) (out : list (event * option string)) :
  expandRecurringEvents evs = Some out -> map (fun p => start (fst p)) out = map start evs.
Proof.
  revert out. induction evs as [|ev evs IH]; intros out E; simpl in E.
  - injection E as <-. reflexivity.
  - destruct (negb (recurrence_truthy ev)).
    + destruct (expandRecurringEvents evs) as [xs|]; [|discriminate].
      injection E as <-. simpl. f_equal. apply IH. reflexivity.
    + destruct (start ev) as [st|] eqn:Hs; [|discriminate].
      destruct (expandRecurringEvents evs) as [xs|]; [|discriminate].
      injection E as <-. simpl. rewrite Hs. f_equal. apply IH. reflexivity.
Qed.

Lemma Exists_map_start (P : option jsdate -> Prop) (l : list event) (l' : list event) :
  map start l' = map start l -> (Exists (fun e => P (start e)) l' <-> Exists (fun e => P (start e)) l).
Proof.
  revert l'. induction l as [|x l IH]; intros [|y l'] E; simpl in E; try discriminate.
  - split; intros H; inversion H.
  - injection E as E1 E2. split; intros H; inversion H; subst.
    + left. rewrite <- E1. assumption.
    + right. apply (IH l' E2). assumption.
    + left. rewrite E1. assumption.
    + right. apply (IH l' E2). assumption.
Qed.

Lemma export_outcome {S : Type} (tz : time_zone) (tzname : string) (gen : nat -> string) (n : nat)
    (now : Z) (name : string) (s1 : S) (l : list event) (P : Prop) :
  (Exists (fun e => start e = None) l <-> P) ->
  (fst (fst (match export tz tzname gen n now l name with
             | (Some out, n') => (ROk out, n', s1)
             | (None, n') => (RThrow TypeError, n', s1)
             end)) = RThrow TypeError <-> P) /\
  snd (match export tz tzname gen n now l name with
       | (Some out, n') => (ROk out, n', s1)
       | (None, n') => (RThrow TypeError, n', s1)
       end) = s1.
Proof.
  intros HP. rewrite <- HP, <- (export_none_iff tz tzname gen n now l name).
  destruct (export tz tzname gen n now l name) as [[out|] n']; simpl; split; try reflexivity.
  - split; intros Hc; exfalso; [inversion Hc|discriminate Hc].
  - split; reflexivity.
Qed.

(** [ICSHandler.export] throws exactly when a kept event without start reaches [ICSParser.export] (recurring events are dropped when neither includeRecurring nor expandRecurring is set); the collaborator's state is the one left by [getEvents]. *)
Theorem handler_export_fails {S : Type} `{CalendarState S} (tz : time_zone) (tzname : string)
    (gen : nat -> string) (n : nat) (now : Z) (o : export_options) (s s1 : S) (evs : list event) :
  getEvents s = (ROk evs, s1) ->
  let kept := match x_categories o with
              | Some cats => filter (fun ev => existsb (String.eqb (category ev)) cats)
                               (match x_dateRange o with
                                | Some r => filter (fun ev => isInDateRange ev r) evs
                                | None => evs end)
              | None => match x_dateRange o with
                        | Some r => filter (fun ev => isInDateRange ev r) evs
                        | None => evs end
              end in
  (fst (fst (handler_export tz tzname gen n now o s)) = RThrow TypeError <->
   Exists (fun ev => start ev = None /\
                     (includeRecurring o || expandRecurring o || negb (recurrence_truthy ev)) = true)
          kept) /\
  snd (handler_export tz tzname gen n now o s) = s1.
Proof.
  intros Hg kept. unfold handler_export. rewrite Hg. fold kept.
  destruct (expandRecurring o) eqn:Hxr.
  - destruct (expandRecurringEvents kept) as [out|] eqn:He; simpl option_map; cbv iota.
    + apply export_outcome.
      rewrite (Exists_map_start (fun d => d = None) kept (map fst out)).
      * split; apply Exists_impl; [intros; split; [assumption|apply orb_true_iff; left; apply orb_true_r]|tauto].
      * rewrite map_map. exact (expandRecurringEvents_starts _ _ He).
    + simpl. split; [|reflexivity]. split; [intros _|intros _; reflexivity].
      apply expandRecurringEvents_none in He.
      eapply Exists_impl; [|exact He]. intros ev [H1 H2]. split; [exact H2|].
      rewrite orb_true_r. reflexivity.
  - destruct (includeRecurring o) eqn:Hi; simpl negb; cbv iota.
    + apply export_outcome. split; apply Exists_impl; tauto.
    + apply export_outcome. rewrite !Exists_exists. split.
      * intros (x & Hx & Hs). apply filter_In in Hx. exists x. tauto.
      * intros (x & Hx & Hs & Hr). exists x. rewrite filter_In. tauto.
Qed.

(** ** Wrappers and samples *)

(** [levenshteinDistance a b] is at least the difference of the two
    lengths and at most the larger length. *)
Theorem levenshteinDistance_bounds (a b : string) :
  (String.length a - String.length b <= levenshteinDistance a b)%nat /\
  (String.length b - String.length a <= levenshteinDistance a b)%nat /\
  (levenshteinDistance a b <= Nat.max (String.length a) (String.length b))%nat.
Proof. exact (lev_bounds a b). Qed.

(** [tokenize] returns non-empty tokens that contain no white space, and
    their concatenation is the query with its white space removed. *)
Theorem tokenize_tokens (q : string) :
  Forall (fun t => t <> EmptyString /\ drop_spaces t = t) (tokenize q) /\
  fold_right String.append EmptyString (tokenize q) = drop_spaces q.
Proof. exact (tokenize_acc_spec q EmptyString eq_refl). Qed.

(** [ICSParser.export] throws exactly when one of the events has no
    [start]. *)
Theorem export_fails_iff_missing_start (tz : time_zone) (tzname : string) (gen : nat -> string)
    (n : nat) (now : Z) (evs : list event) (calendarName : string) :
  fst (export tz tzname gen n now evs calendarName) = None <->
  Exists (fun e => start e = None) evs.
Proof. apply export_none_iff. Qed.

(** [unescapeText] undoes [escapeText] on every text that has no
    backslash followed by [n]. *)
Theorem unescape_escape_roundtrip (t : string) :
  includes t (String BS "n") = false -> unescapeText (escapeText t) = t.
Proof. apply unescapeText_escapeText. Qed.

(** [unfoldLines] undoes [foldLines] joined with CRLF on every non-empty
    list of lines that are non-empty, have no line feed and do not start
    with a space. *)
Theorem unfold_fold_roundtrip (ls : list string) :
  ls <> [] -> Forall line_ok ls -> unfoldLines (join CRLF (foldLines ls)) = ls.
Proof.
  destruct ls as [|l ls]; [intros H; congruence|]. intros _. apply unfoldLines_foldLines.
Qed.

(** A date-time written by [formatDate] (not date-only) is read back by
    [parseDate] as the same instant truncated to the second, for local
    years 1000 to 9999 and a property without [VALUE=DATE], in a zone whose
    offsets and transitions are whole seconds, unless an earlier instant
    shows the same local time (the second pass of a repeated hour). *)
Theorem parseDate_formatDate_roundtrip (tz : time_zone) (t y : Z) (property : string) :
  includes property "VALUE=DATE" = false ->
  whole_seconds tz -> first_shown tz (t - t mod 1000) ->
  Z.abs t <= 8640000000000000 ->
  getFullYear tz (DValid t) = Some y -> 1000 <= y <= 9999 ->
  parseDate tz (formatDate tz (DValid t) false) property = DValid (t - t mod 1000).
Proof. apply parseDate_formatDate. Qed.

Lemma search_hits_scored_witness :
  exists res, @search string_compare "standup" default_search_options sample_events = Some res /\
  exists hs, res = map hit_event hs /\
    Forall (fun h => In (hit_event h) sample_events /\ 0 < hit_score h /\
              calculateMatchScore (hit_event h)
                (tokenize (if caseSensitive default_search_options then "standup" else to_lower "standup"))
                (fields default_search_options) (fuzzy default_search_options)
                (caseSensitive default_search_options) = Some (hit_score h)) hs /\
    (sortBy default_search_options = "relevance" -> Sorted score_ge hs).
Proof.
  eexists; split; [reflexivity|].
  apply (@search_hits_scored string_compare "standup" default_search_options sample_events). vm_compute. reflexivity.
Defined.

Lemma getSuggestions_spec_witness :
  exists l, getSuggestions "stand" default_suggestion_options sample_events = Some l /\
  NoDup l /\ Z.of_nat (length l) <= Z.max 1 (s_limit default_suggestion_options) /\
  Forall (fun v => includes (to_lower v) (to_lower "stand") = true /\
                   exists ev, In ev sample_events /\
                              field_value ev (s_field default_suggestion_options) = FStr v) l.
Proof.
  eexists; split; [reflexivity|].
  apply (getSuggestions_spec "stand" default_suggestion_options sample_events). vm_compute. reflexivity.
Defined.

Lemma filter_events_sound_witness :
  exists l, filter_events (mkFilters None (Some ["work"]) None None None None None None None) (sample_events ++ categorized_events)
            = Some l /\
  forall e, In e l ->
    In e (sample_events ++ categorized_events) /\
    (forall ss, f_status (mkFilters None (Some ["work"]) None None None None None None None) = Some ss ->
                In (status e) ss) /\
    (forall b, f_allDay (mkFilters None (Some ["work"]) None None None None None None None) = Some b ->
               allDay e = b) /\
    (forall b, f_hasReminders (mkFilters None (Some ["work"]) None None None None None None None) = Some b ->
               (match reminders e with [] => false | _ => true end) = b) /\
    (forall p, f_custom (mkFilters None (Some ["work"]) None None None None None None None) = Some p ->
               p e = true) /\
    (forall cats, nonempty (f_categories (mkFilters None (Some ["work"]) None None None None None None None))
                  = Some cats ->
       In (category e) cats \/
       (category e = EmptyString /\ exists c, In c (categories_ e) /\ In c cats)).
Proof.
  eexists; split; [reflexivity|].
  apply (filter_events_sound (mkFilters None (Some ["work"]) None None None None None None None) (sample_events ++ categorized_events)).
  vm_compute. reflexivity.
Defined.

Lemma advancedSearch_spec_witness :
  exists r, @advancedSearch string_compare "standup" no_filters (with_limit default_search_options (Some 1)) sample_events
            = Some r /\
  exists filtered, filter_events no_filters sample_events = Some filtered /\ incl r filtered /\
    (blank "standup" = false ->
     exists sr, @search string_compare "standup" (with_limit (with_limit default_search_options (Some 1)) None)
                  sample_events = Some sr /\
                forall e, In e r -> In (id e) (map id sr)) /\
    (forall l, limit (with_limit default_search_options (Some 1)) = Some l -> 0 < l ->
               Z.of_nat (length r) <= l).
Proof.
  eexists; split; [reflexivity|].
  apply (@advancedSearch_spec string_compare "standup" no_filters (with_limit default_search_options (Some 1))
           sample_events). vm_compute. reflexivity.
Defined.

Lemma parseDate_formatDate_dateOnly_witness :
  Forall (fun o => Z.abs o < msPerDay) (zone_offsets new_york_2024) /\
  Z.abs 1710086400000 + 3 * msPerDay <= 8640000000000000 /\
  getFullYear new_york_2024 (DValid 1710086400000) = Some 2024 /\ 1000 <= 2024 <= 9999 /\
  parseDate new_york_2024 (formatDate new_york_2024 (DValid 1710086400000) true) "DTSTART" =
    DValid (UTC new_york_2024 (LocalTime new_york_2024 1710086400000 -
                               LocalTime new_york_2024 1710086400000 mod msPerDay)) /\
  UTC new_york_2024 (LocalTime new_york_2024 1710086400000 -
                     LocalTime new_york_2024 1710086400000 mod msPerDay) = 1710046800000.
Proof.
  assert (Ho : Forall (fun o => Z.abs o < msPerDay) (zone_offsets new_york_2024))
    by (repeat constructor).
  split; [exact Ho|]. split; [unfold msPerDay; lia|]. split; [vm_compute; reflexivity|].
  split; [lia|]. split; [|vm_compute; reflexivity].
  apply (parseDate_formatDate_dateOnly new_york_2024 1710086400000 2024 "DTSTART");
    [exact Ho | unfold msPerDay; lia | vm_compute; reflexivity | lia].
Defined.

Lemma import_merge_frame_witness :
  (forall i s, @getEvent store store_calendar i s = @getEvent store store_without_removal i s) /\
  (forall e s, @addEvent store store_calendar e s = @addEvent store store_without_removal e s) /\
  (forall i e s, @updateEvent store store_calendar i e s =
                 @updateEvent store store_without_removal i e s) /\
  merge default_import_options = true /\
  @import store store_calendar new_york_2024 sample_gen 0 1705000000000 (InString doc_uid1)
    default_import_options sample_events =
  @import store store_without_removal new_york_2024 sample_gen 0 1705000000000 (InString doc_uid1)
    default_import_options sample_events.
Proof.
  split; [intros; reflexivity|]. split; [intros; reflexivity|]. split; [intros; reflexivity|].
  split; [reflexivity|].
  apply (import_merge_frame store_calendar store_without_removal); intros; reflexivity.
Defined.

Lemma import_accounts_every_event_witness :
  exists r n' s',
    getICSString (InString doc_uid1) = ROk doc_uid1 /\
    import (S := store) new_york_2024 sample_gen 0 1705000000000 (InString doc_uid1) default_import_options
      sample_events = (ROk r, n', s') /\
    (exists evs', Forall2 (fun e e' => e' = e \/
                     (updateExisting default_import_options = false /\
                      skipDuplicates default_import_options = false /\
                      e' = set_id (generateNewId 1705000000000 (id e)) e))
                    (fst (parse new_york_2024 sample_gen 0 doc_uid1)) evs' /\
       Permutation (results_entries r) evs') /\
    n' = snd (parse new_york_2024 sample_gen 0 doc_uid1).
Proof.
  do 3 eexists. split; [reflexivity|]. split; [reflexivity|].
  eapply (import_accounts_every_event (S := store) new_york_2024 sample_gen 0 1705000000000 (InString doc_uid1)
           default_import_options sample_events doc_uid1); reflexivity.
Defined.

Lemma expandRecurringEvents_spec_witness :
  exists out, expandRecurringEvents sample_events = Some out /\
  Forall2 (fun ev p =>
    (recurrence_truthy ev = false /\ p = (ev, None)) \/
    (recurrence_truthy ev = true /\
     exists st, start ev = Some st /\
       p = (set_recurrence None (set_id (id ev ++ "-" ++ num_to_string (time_value st)) ev),
            Some (id ev)))) sample_events out /\
  Forall (fun p => recurrence_truthy (fst p) = false) out.
Proof.
  eexists; split; [reflexivity|].
  apply expandRecurringEvents_spec. vm_compute. reflexivity.
Defined.

Lemma handler_export_fails_witness :
  getEvents (S := store) sample_events = (ROk sample_events, sample_events) /\
  (fst (fst (handler_export (S := store) new_york_2024 "America/New_York" sample_gen 0 1705000000000
               default_export_options sample_events)) = RThrow TypeError <->
   Exists (fun ev => start ev = None /\
                     (includeRecurring default_export_options || expandRecurring default_export_options ||
                      negb (recurrence_truthy ev)) = true)
     (match x_categories default_export_options with
      | Some cats => filter (fun ev => existsb (String.eqb (category ev)) cats)
                       (match x_dateRange default_export_options with
                        | Some r => filter (fun ev => isInDateRange ev r) sample_events
                        | None => sample_events end)
      | None => match x_dateRange default_export_options with
                | Some r => filter (fun ev => isInDateRange ev r) sample_events
                | None => sample_events end
      end)) /\
  snd (handler_export (S := store) new_york_2024 "America/New_York" sample_gen 0 1705000000000
         default_export_options sample_events) = sample_events.
Proof.
  split; [reflexivity|].
  apply (handler_export_fails (S := store) new_york_2024 "America/New_York" sample_gen 0 1705000000000
           default_export_options sample_events sample_events sample_events).
  reflexivity.
Defined.

Lemma unescape_escape_roundtrip_witness :
  includes ("a,b;c" ++ String LF "d") (String BS "n") = false /\
  unescapeText (escapeText ("a,b;c" ++ String LF "d")) = "a,b;c" ++ String LF "d".
Proof.
  split; [vm_compute; reflexivity|]. apply unescape_escape_roundtrip. vm_compute. reflexivity.
Defined.

Lemma unfold_fold_roundtrip_witness :
  ["BEGIN:VEVENT"; "DESCRIPTION:xxxxxxxxxxxxxxxxxxxxxxxxxxxxxxxxxxxxxxxxxxxxxxxxxxxxxxxxxxxxxxxxxxxxxxxxxxxxxxxxxxxxxxxxxx"; "END:VEVENT"] <> [] /\
  Forall line_ok ["BEGIN:VEVENT"; "DESCRIPTION:xxxxxxxxxxxxxxxxxxxxxxxxxxxxxxxxxxxxxxxxxxxxxxxxxxxxxxxxxxxxxxxxxxxxxxxxxxxxxxxxxxxxxxxxxx"; "END:VEVENT"] /\
  unfoldLines (join CRLF (foldLines ["BEGIN:VEVENT"; "DESCRIPTION:xxxxxxxxxxxxxxxxxxxxxxxxxxxxxxxxxxxxxxxxxxxxxxxxxxxxxxxxxxxxxxxxxxxxxxxxxxxxxxxxxxxxxxxxxx"; "END:VEVENT"])) =
    ["BEGIN:VEVENT"; "DESCRIPTION:xxxxxxxxxxxxxxxxxxxxxxxxxxxxxxxxxxxxxxxxxxxxxxxxxxxxxxxxxxxxxxxxxxxxxxxxxxxxxxxxxxxxxxxxxx"; "END:VEVENT"].
Proof.
  assert (H : Forall line_ok ["BEGIN:VEVENT"; "DESCRIPTION:xxxxxxxxxxxxxxxxxxxxxxxxxxxxxxxxxxxxxxxxxxxxxxxxxxxxxxxxxxxxxxxxxxxxxxxxxxxxxxxxxxxxxxxxxx"; "END:VEVENT"]).
  { repeat constructor; unfold no_lf; try (vm_compute; reflexivity); discriminate. }
  split; [discriminate|]. split; [exact H|].
  apply unfold_fold_roundtrip; [discriminate|exact H].
Defined.

Lemma parseDate_formatDate_roundtrip_witness :
  includes "DTSTART" "VALUE=DATE" = false /\ whole_seconds new_york_2024 /\
  first_shown new_york_2024 (1704085200123 - 1704085200123 mod 1000) /\
  Z.abs 1704085200123 <= 8640000000000000 /\
  getFullYear new_york_2024 (DValid 1704085200123) = Some 2024 /\ 1000 <= 2024 <= 9999 /\
  parseDate new_york_2024 (formatDate new_york_2024 (DValid 1704085200123) false) "DTSTART" =
    DValid (1704085200123 - 1704085200123 mod 1000).
Proof.
  assert (Hf : first_shown new_york_2024 (1704085200123 - 1704085200123 mod 1000))
    by (apply first_shown_of_offsets; vm_compute; reflexivity).
  split; [reflexivity|]. split; [exact new_york_2024_whole_seconds|]. split; [exact Hf|].
  split; [lia|]. split; [vm_compute; reflexivity|]. split; [lia|].
  apply (parseDate_formatDate_roundtrip new_york_2024 1704085200123 2024 "DTSTART");
    [reflexivity | exact new_york_2024_whole_seconds | exact Hf | lia | vm_compute; reflexivity | lia].
Defined.

Lemma sortResults_ordered_witness :
  (forall a b, Z.sgn (string_compare b a) = - Z.sgn (string_compare a b)) /\
  Permutation (@sortResults string_compare sample_hits "title") sample_hits /\
  (forall cmp, @sort_comparator string_compare "title" = Some cmp ->
     Sorted (fun a b => cmp a b <= 0) (@sortResults string_compare sample_hits "title")) /\
  (@sort_comparator string_compare "title" = None ->
     @sortResults string_compare sample_hits "title" = sample_hits).
Proof.
  assert (Hlc : forall a b, Z.sgn (string_compare b a) = - Z.sgn (string_compare a b))
    by (intros a b; rewrite string_compare_anti; apply Z.sgn_opp).
  split; [exact Hlc|].
  exact (@sortResults_ordered string_compare sample_hits "title" Hlc).
Defined.
